(** * Chroma-key background removal (scripts/generate_isometric_assets.py)

    A shallow embedding of [remove_chroma_key_background] and of its two
    local helpers [color_distance] and [sample_corner_region], followed by
    the properties of the corner-sampled flood fill.

    Modelling conventions.
    - Python integers are [Z]; [//] is floor division, which is [Z.div] for
      the positive divisors that occur.
    - The decoded RGBA picture ([Image.open] followed by [convert('RGBA')])
      is a record holding [img.size] and the pixel store behind
      [img.load()], a finite map from coordinates to 4-tuples. Decoding the
      input bytes and the final lossless PNG encoding are outside the
      embedding: the transform is studied on the pixel grid.
    - [pixels[x, y]] follows Pillow's pixel access: a negative index counts
      from the far edge, anything still outside the picture raises
      [IndexError].
    - Exceptions and the [while] loop are explicit: every operation returns
      an [outcome], and the loop takes a step budget.
    - The [print] calls only report progress and are left out, and Pillow is
      taken to be installed ([HAS_PIL]); without it the function hands its
      input back untouched. *)

From Stdlib Require Import ZArith Lia List Reals Lra String Ascii.
From stdpp Require Import base option list gmap sets strings pretty.

Local Open Scope Z_scope.

(** ** Outcomes of fallible operations *)

Inductive outcome (A : Type) : Type :=
| Done (a : A)
| IndexError
| ZeroDivisionError
| OutOfFuel.

Arguments Done {A} a.
Arguments IndexError {A}.
Arguments ZeroDivisionError {A}.
Arguments OutOfFuel {A}.

(** The exception monad, with stdpp's [x ← m; k] notation. *)
#[global] Instance outcome_bind : MBind outcome := λ A B k m,
  match m with
  | Done a => k a
  | IndexError => IndexError
  | ZeroDivisionError => ZeroDivisionError
  | OutOfFuel => OutOfFuel
  end.

#[global] Instance outcome_fmap : FMap outcome := λ A B f m,
  match m with
  | Done a => Done (f a)
  | IndexError => IndexError
  | ZeroDivisionError => ZeroDivisionError
  | OutOfFuel => OutOfFuel
  end.

(** [for v in xs: s = body(s, v)] with exceptions propagating. *)
Fixpoint for_each {A S : Type} (xs : list A) (body : S → A → outcome S)
    (s : S) : outcome S :=
  match xs with
  | [] => Done s
  | v :: rest => s' ← body s v; for_each rest body s'
  end.

(** Python's [range(n)]: empty when [n <= 0]. *)
Definition range (n : Z) : list Z := seqZ 0 n.

(** ** Data model *)

Abbreviation Coord := (Z * Z)%type.
Abbreviation Color := (Z * Z * Z)%type.
Abbreviation Pixel := (Z * Z * Z * Z)%type.

Record Image : Type := mkImage {
  width : Z;
  height : Z;
  pixels : gmap Coord Pixel
}.

Definition in_bounds (img : Image) (c : Coord) : Prop :=
  0 ≤ c.1 < width img ∧ 0 ≤ c.2 < height img.

(** A well-formed picture stores exactly the pixels of its
    [width] x [height] grid. *)
Definition well_formed (img : Image) : Prop :=
  0 ≤ width img ∧ 0 ≤ height img ∧
  ∀ c, is_Some (pixels img !! c) ↔ in_bounds img c.

(** Pillow's index normalisation for one axis. *)
Definition wrap_index (extent i : Z) : Z :=
  if i <? 0 then extent + i else i.

Definition inside (img : Image) (x y : Z) : bool :=
  (0 <=? x) && (x <? width img) && (0 <=? y) && (y <? height img).

(** [pixels[x, y]] *)
Definition pixel_get (img : Image) (x y : Z) : outcome Pixel :=
  let x' := wrap_index (width img) x in
  let y' := wrap_index (height img) y in
  if inside img x' y' then
    match pixels img !! (x', y') with
    | Some p => Done p
    | None => IndexError
    end
  else IndexError.

(** [pixels[x, y] = v] *)
Definition pixel_set (img : Image) (x y : Z) (v : Pixel) : outcome Image :=
  let x' := wrap_index (width img) x in
  let y' := wrap_index (height img) y in
  if inside img x' y' then
    Done (mkImage (width img) (height img) (<[(x', y') := v]> (pixels img)))
  else IndexError.

(** ** [color_distance]

    The source returns [(dr**2 + dg**2 + db**2) ** 0.5] and compares it with
    the integer [tolerance]. The radicand is an exact integer, so the
    comparison [dist <= tolerance] holds exactly when the tolerance is
    non-negative and the radicand is at most its square; the embedding keeps
    the radicand and performs the comparison on integers. *)
Definition color_distance_sq (c1 c2 : Color) : Z :=
  let '(r1, g1, b1) := c1 in
  let '(r2, g2, b2) := c2 in
  (r1 - r2) ^ 2 + (g1 - g2) ^ 2 + (b1 - b2) ^ 2.

(** [color_distance(c1, c2) <= tolerance] *)
Definition within_tolerance (c1 c2 : Color) (tolerance : Z) : bool :=
  (0 <=? tolerance) && (color_distance_sq c1 c2 <=? tolerance * tolerance).

Definition rgb (p : Pixel) : Color :=
  let '(r, g, b, _) := p in (r, g, b).

(** ** [sample_corner_region] *)

Definition sample_corner_region (img : Image) (start_x start_y size : Z)
    : outcome (list Color) :=
  for_each (range size) (fun colors dy =>
    for_each (range size) (fun colors dx =>
      let x := start_x + dx in
      let y := start_y + dy in
      if inside img x y then
        '(r, g, b, a) ← pixel_get img x y;
        Done (colors ++ [(r, g, b)])
      else Done colors) colors) [].

Definition corner_regions (img : Image) (sample_size : Z) : list Coord :=
  [ (0, 0);
    (width img - sample_size, 0);
    (0, height img - sample_size);
    (width img - sample_size, height img - sample_size) ].

(** The loop filling [all_bg_colors]. *)
Definition collect_corner_samples (img : Image) (sample_size : Z)
    : outcome (list Color) :=
  for_each (corner_regions img sample_size) (fun all_bg_colors '(cx, cy) =>
    colors ← sample_corner_region img cx cy sample_size;
    Done (all_bg_colors ++ colors)) [].

(** [a // b] on Python integers. *)
Definition floordiv (a b : Z) : outcome Z :=
  if b =? 0 then ZeroDivisionError else Done (a / b).

(** [sum(c[k] for c in colors)] *)
Definition sum_channel (proj : Color → Z) (colors : list Color) : Z :=
  foldr (fun c acc => proj c + acc) 0 colors.

Definition red (c : Color) : Z := c.1.1.
Definition green (c : Color) : Z := c.1.2.
Definition blue (c : Color) : Z := c.2.

(** [bg_color] from the collected samples. *)
Definition average_color (all_bg_colors : list Color) : outcome Color :=
  let n := Z.of_nat (length all_bg_colors) in
  avg_r ← floordiv (sum_channel red all_bg_colors) n;
  avg_g ← floordiv (sum_channel green all_bg_colors) n;
  avg_b ← floordiv (sum_channel blue all_bg_colors) n;
  Done (avg_r, avg_g, avg_b).

(** ** The flood fill *)

(** What one iteration of the [while queue:] loop did with the coordinate it
    popped. The [trace] is a ghost record of the iterations, kept only so
    that properties of the execution can be stated; nothing reads it. *)
Inductive event : Type :=
| Skipped (c : Coord)      (* already in [visited] *)
| Outside (c : Coord)      (* passed the visited check, failed the bounds check *)
| Kept (c : Coord)         (* marked visited, too far from [bg_color] *)
| Absorbed (c : Coord).    (* marked visited and added to [to_remove] *)

Record fill_state : Type := mkFill {
  queue : list Coord;
  visited : gset Coord;
  to_remove : gset Coord;
  trace : list event
}.

(** The two loops that seed the queue with every edge pixel. *)
Definition edge_seeds (img : Image) : list Coord :=
  (range (width img) ≫= fun x => [(x, 0); (x, height img - 1)]) ++
  (range (height img) ≫= fun y => [(0, y); (width img - 1, y)]).

Definition initial_fill (img : Image) : fill_state :=
  mkFill (edge_seeds img) ∅ ∅ [].

(** The body of the [while] loop, for the coordinate [(x, y)] just popped;
    [st] already has the shortened queue. *)
Definition fill_step (img : Image) (bg_color : Color) (tolerance : Z)
    (c : Coord) (st : fill_state) : outcome fill_state :=
  let '(x, y) := c in
  if decide ((x, y) ∈ visited st) then
    Done (mkFill (queue st) (visited st) (to_remove st)
            (trace st ++ [Skipped (x, y)]))
  else if (x <? 0) || (x >=? width img) || (y <? 0) || (y >=? height img) then
    Done (mkFill (queue st) (visited st) (to_remove st)
            (trace st ++ [Outside (x, y)]))
  else
    let visited' := {[ (x, y) ]} ∪ visited st in
    '(r, g, b, a) ← pixel_get img x y;
    if within_tolerance (r, g, b) bg_color tolerance then
      Done (mkFill
              (queue st ++ [(x + 1, y); (x - 1, y); (x, y + 1); (x, y - 1)])
              visited'
              ({[ (x, y) ]} ∪ to_remove st)
              (trace st ++ [Absorbed (x, y)]))
    else
      Done (mkFill (queue st) visited' (to_remove st)
              (trace st ++ [Kept (x, y)])).

(** [while queue: x, y = queue.popleft(); ...] with a budget of
    iterations. *)
Fixpoint fill_loop (img : Image) (bg_color : Color) (tolerance : Z)
    (fuel : nat) (st : fill_state) : outcome fill_state :=
  match queue st with
  | [] => Done st
  | c :: rest =>
    match fuel with
    | O => OutOfFuel
    | S fuel' =>
      st' ← fill_step img bg_color tolerance c
              (mkFill rest (visited st) (to_remove st) (trace st));
      fill_loop img bg_color tolerance fuel' st'
    end
  end.

(** A budget that the loop never exhausts (see [fill_loop_spec]): the
    seeds plus four pushes per pixel. *)
Definition fill_budget (img : Image) : nat :=
  length (edge_seeds img) + 4 * Z.to_nat (width img * height img).

Definition flood_fill (img : Image) (bg_color : Color) (tolerance : Z)
    : outcome fill_state :=
  fill_loop img bg_color tolerance (fill_budget img) (initial_fill img).

(** [for x, y in to_remove: pixels[x, y] = (0, 0, 0, 0)] *)
Definition clear_pixels (img : Image) (to_remove : gset Coord)
    : outcome Image :=
  for_each (elements to_remove)
    (fun img '(x, y) => pixel_set img x y (0, 0, 0, 0)) img.

(** ** [remove_chroma_key_background]

    The argument is the decoded RGBA picture, the result the picture that is
    saved as PNG; on the early return the input is handed back as it is. *)
Definition remove_chroma_key_background (img : Image)
    (tolerance sample_size : Z) : outcome Image :=
  all_bg_colors ← collect_corner_samples img sample_size;
  match all_bg_colors with
  | [] => Done img
  | _ :: _ =>
    bg_color ← average_color all_bg_colors;
    st ← flood_fill img bg_color tolerance;
    clear_pixels img (to_remove st)
  end.

(** The intermediate values of a run, for stating properties about them. *)

(** [bg_color], or [None] on the early return. *)
Definition background_estimate (img : Image) (sample_size : Z)
    : outcome (option Color) :=
  all_bg_colors ← collect_corner_samples img sample_size;
  match all_bg_colors with
  | [] => Done None
  | _ :: _ => bg_color ← average_color all_bg_colors; Done (Some bg_color)
  end.

(** The final state of the fill, or [None] on the early return. *)
Definition fill_result (img : Image) (tolerance sample_size : Z)
    : outcome (option fill_state) :=
  all_bg_colors ← collect_corner_samples img sample_size;
  match all_bg_colors with
  | [] => Done None
  | _ :: _ =>
    bg_color ← average_color all_bg_colors;
    st ← flood_fill img bg_color tolerance;
    Done (Some st)
  end.

(** The coordinates cleared by a run: [to_remove], empty on the early
    return. *)
Definition removal_set (img : Image) (tolerance sample_size : Z)
    : outcome (gset Coord) :=
  r ← fill_result img tolerance sample_size;
  Done (from_option to_remove ∅ r).

(** ** Building and observing pictures *)

Definition all_coords (w h : Z) : list Coord :=
  range h ≫= fun y => (fun x => (x, y)) <$> range w.

(** The [w] x [h] picture whose pixel at [(x, y)] is [f x y]. *)
Definition make_image (w h : Z) (f : Z → Z → Pixel) : Image :=
  mkImage w h (list_to_map ((fun c => (c, f c.1 c.2)) <$> all_coords w h)).

(** The rows of a picture, top to bottom. *)
Definition image_rows (img : Image) : list (list (option Pixel)) :=
  (fun y => (fun x => pixels img !! (x, y)) <$> range (width img))
    <$> range (height img).

(** * Vocabulary for the properties *)

#[global] Instance in_bounds_dec img c : Decision (in_bounds img c).
Proof. unfold in_bounds. apply _. Defined.

(** The pixel stored at a coordinate of the grid. *)
Definition pixel_at (img : Image) (c : Coord) : Pixel :=
  default (0, 0, 0, 0) (pixels img !! c).

Definition color_at (img : Image) (c : Coord) : Color := rgb (pixel_at img c).

(** The [size] x [size] block anchored at [(start_x, start_y)], row by row. *)
Definition window (start_x start_y size : Z) : list Coord :=
  range size ≫= fun dy =>
    (fun dx => (start_x + dx, start_y + dy)) <$> range size.

(** The part of the block that lies on the picture. *)
Definition clipped_window (img : Image) (start_x start_y size : Z) : list Coord :=
  filter (in_bounds img) (window start_x start_y size).

(** Every coordinate sampled by the four corner blocks, in sampling order. *)
Definition sample_coords (img : Image) (sample_size : Z) : list Coord :=
  corner_regions img sample_size ≫= fun c =>
    clipped_window img c.1 c.2 sample_size.

(** The four neighbours pushed by the fill: right, left, below, above. *)
Definition adjacent (p q : Coord) : Prop :=
  q = (p.1 + 1, p.2) ∨ q = (p.1 - 1, p.2) ∨
  q = (p.1, p.2 + 1) ∨ q = (p.1, p.2 - 1).

#[global] Instance adjacent_dec p q : Decision (adjacent p q).
Proof. unfold adjacent. apply _. Defined.

(** A pixel of the outer frame of the picture. *)
Definition on_border (img : Image) (c : Coord) : Prop :=
  in_bounds img c ∧
  (c.1 = 0 ∨ c.1 = width img - 1 ∨ c.2 = 0 ∨ c.2 = height img - 1).

(** A pixel of the picture whose colour is within the tolerance of the
    background colour. *)
Definition matches (img : Image) (bg_color : Color) (tolerance : Z)
    (c : Coord) : Prop :=
  in_bounds img c ∧
  within_tolerance (color_at img c) bg_color tolerance = true.

(** [linked p path c]: starting at [p] and stepping through [path], each
    step to one of the four neighbours, one arrives at [c]. *)
Fixpoint linked (p : Coord) (path : list Coord) (c : Coord) : Prop :=
  match path with
  | [] => p = c
  | q :: rest => adjacent p q ∧ linked q rest c
  end.

(** [c] is reached from a border pixel by a 4-connected chain of matching
    pixels (the border pixel and [c] included). *)
Definition border_connected (img : Image) (bg_color : Color) (tolerance : Z)
    (c : Coord) : Prop :=
  ∃ (b : Coord) (path : list Coord),
    on_border img b ∧ linked b path c ∧
    Forall (matches img bg_color tolerance) (b :: path).

(** The same set, generated step by step. *)
Inductive connected (img : Image) (bg_color : Color) (tolerance : Z)
    : Coord → Prop :=
| connected_border c :
    on_border img c → matches img bg_color tolerance c →
    connected img bg_color tolerance c
| connected_step p c :
    connected img bg_color tolerance p → adjacent p c →
    matches img bg_color tolerance c →
    connected img bg_color tolerance c.

(** The coordinate of an iteration that got past the [visited] check. *)
Definition passed (e : event) : option Coord :=
  match e with
  | Skipped _ => None
  | Outside c | Kept c | Absorbed c => Some c
  end.

(** How many iterations handled [c] past the [visited] check. *)
Definition visits (tr : list event) (c : Coord) : nat :=
  length (filter (fun e => passed e = Some c) tr).

(** [corner] anchors a [size] x [size] block that covers [c]. *)
Definition in_window (size : Z) (c corner : Coord) : Prop :=
  corner.1 ≤ c.1 < corner.1 + size ∧ corner.2 ≤ c.2 < corner.2 + size.

#[global] Instance in_window_dec size c corner : Decision (in_window size c corner).
Proof. unfold in_window. apply _. Defined.

(** The number of corner blocks that cover [c]. *)
Definition windows_containing (img : Image) (sample_size : Z) (c : Coord) : nat :=
  length (filter (in_window sample_size c) (corner_regions img sample_size)).

(** The number of times [c] occurs in a list of coordinates. *)
Definition occurrences (c : Coord) (l : list Coord) : nat :=
  length (filter (fun c' => c' = c) l).

Definition sum_over (g : Coord → Z) (l : list Coord) : Z :=
  foldr (fun c acc => g c + acc) 0 l.

(** The sum of [g] over the pixels of the picture, each weighted by the
    number of corner blocks that cover it. *)
Definition weighted_sum (img : Image) (sample_size : Z) (g : Coord → Z) : Z :=
  sum_over (fun c => Z.of_nat (windows_containing img sample_size c) * g c)
           (all_coords (width img) (height img)).

(** The Euclidean distance of two colours, as a real number. *)
Definition color_distance (c1 c2 : Color) : R :=
  sqrt (IZR (color_distance_sq c1 c2)).

(** The invariants of the [while] loop. *)
Record fill_inv (img : Image) (bg_color : Color) (tolerance : Z)
    (st : fill_state) : Prop := {
  inv_bounds : ∀ c, c ∈ visited st → in_bounds img c;
  inv_removed : ∀ c, c ∈ to_remove st ↔ c ∈ visited st ∧ matches img bg_color tolerance c;
  inv_sound : ∀ c, c ∈ to_remove st → connected img bg_color tolerance c;
  inv_queue : ∀ c, c ∈ queue st → in_bounds img c →
    on_border img c ∨ ∃ p, p ∈ to_remove st ∧ adjacent p c;
  inv_border : ∀ c, on_border img c → c ∈ visited st ∨ c ∈ queue st;
  inv_frontier : ∀ p c, p ∈ to_remove st → adjacent p c → in_bounds img c →
    c ∈ visited st ∨ c ∈ queue st;
  inv_trace : ∀ c, in_bounds img c →
    visits (trace st) c = if decide (c ∈ visited st) then 1%nat else 0%nat
}.

(** The four coordinates an absorbed pixel pushes, in pushing order. *)
Definition neighbours (c : Coord) : list Coord :=
  [(c.1 + 1, c.2); (c.1 - 1, c.2); (c.1, c.2 + 1); (c.1, c.2 - 1)].

(** How many of the four neighbours of [c] are in the set [R]. *)
Definition absorbed_neighbours (R : gset Coord) (c : Coord) : nat :=
  length (filter (fun q => q ∈ R) (neighbours c)).

(** Bookkeeping for the coordinates off the picture: what is still queued
    plus what was popped equals what was seeded plus one push per absorbed
    neighbour. *)
Definition outside_inv (img : Image) (st : fill_state) : Prop :=
  ∀ c, ¬ in_bounds img c →
    (occurrences c (queue st) + visits (trace st) c =
     occurrences c (edge_seeds img) + absorbed_neighbours (to_remove st) c)%nat.

(** The queue length plus four pushes for every pixel not yet visited. *)
Definition fill_measure (img : Image) (st : fill_state) : nat :=
  (length (queue st) +
   4 * (Z.to_nat (width img * height img) - size (visited st)))%nat.

(** What a run that gets past the early return computes. *)
Record run_facts (img : Image) (tolerance sample_size : Z)
    (bg_color : Color) (st : fill_state) (out : Image) : Prop := {
  run_average :
    average_color (color_at img <$> sample_coords img sample_size) = Done bg_color;
  run_estimate : background_estimate img sample_size = Done (Some bg_color);
  run_fill : flood_fill img bg_color tolerance = Done st;
  run_inv : fill_inv img bg_color tolerance st;
  run_drained : queue st = [];
  run_iterations : (length (trace st) ≤ fill_budget img)%nat;
  run_fill_result : fill_result img tolerance sample_size = Done (Some st);
  run_removal : removal_set img tolerance sample_size = Done (to_remove st);
  run_result : remove_chroma_key_background img tolerance sample_size = Done out;
  run_width : width out = width img;
  run_height : height out = height img;
  run_pixels : ∀ c, pixels out !! c =
    if decide (c ∈ to_remove st) then Some (0, 0, 0, 0) else pixels img !! c
}.

(** ** Example pictures *)

(** A single pixel. *)
Definition single_pixel (p : Pixel) : Image := make_image 1 1 (fun _ _ => p).

(** A row of three pixels. *)
Definition strip (p0 p1 p2 : Pixel) : Image :=
  make_image 3 1 (fun x _ => if x =? 0 then p0 else if x =? 1 then p1 else p2).

(** Two by two greys: 160 and 120 on top, 180 below. *)
Definition grey_square : Image :=
  make_image 2 2 (fun x y =>
    if y =? 0 then
      if x =? 0 then (160, 160, 160, 255) else (120, 120, 120, 255)
    else (180, 180, 180, 255)).

Definition magenta : Color := (255, 0, 255).

(** Four by four: a one-pixel opaque magenta frame around the 2 x 2 centre
    given by [inner]. *)
Definition framed (inner : Z → Z → Pixel) : Image :=
  make_image 4 4 (fun x y =>
    if (x =? 0) || (x =? 3) || (y =? 0) || (y =? 3)
    then (255, 0, 255, 255) else inner x y).

(** The grey square again, with other alpha values. *)
Definition grey_square_faded : Image :=
  make_image 2 2 (fun x y =>
    if y =? 0 then
      if x =? 0 then (160, 160, 160, 0) else (120, 120, 120, 17)
    else (180, 180, 180, 200)).

(** Black, mid-grey, light grey in a row. *)
Definition grey_strip : Image :=
  strip (0, 0, 0, 255) (100, 100, 100, 255) (200, 200, 200, 255).

(** The frame around a centre one step away from magenta. *)
Definition pale_frame : Image := framed (fun _ _ => (254, 0, 255, 255)).

(** The frame around a dark centre. *)
Definition dark_frame : Image := framed (fun _ _ => (10, 20, 30, 255)).

(** Every colour channel of every stored pixel is a byte. *)
Definition eight_bit (img : Image) : Prop :=
  ∀ c, in_bounds img c →
    0 ≤ red (color_at img c) ≤ 255 ∧
    0 ≤ green (color_at img c) ≤ 255 ∧
    0 ≤ blue (color_at img c) ≤ 255.

(** All pixels of the picture have the colour [col]. *)
Definition uniform (img : Image) (col : Color) : Prop :=
  ∀ c, in_bounds img c → color_at img c = col.

(** The [w] x [h] picture filled with the pixel [p]. *)
Definition plain (w h : Z) (p : Pixel) : Image := make_image w h (fun _ _ => p).

(** Reduce a bind whose first computation has finished. *)
Ltac run_bind := cbn beta iota delta [mbind outcome_bind].
Ltac run_bind_in H := cbn beta iota delta [mbind outcome_bind] in H.

(** * The image-generation client ([OpenRouterClient])

    Modelling conventions.
    - The response of the API is a JSON value, and the code probes it with
      [in], [[]], [.get], [len], truth tests and [.startswith]; each of
      these is a function that raises what Python raises on a value of the
      wrong kind. A [str] is the list of its bytes, which answers the
      prefix, comma and emptiness tests of the code like the text does.
    - Floats, JSON numbers and [base64.b64decode] belong to a [Runtime].
    - What the program does to the outside world is appended to a log of
      effects. The network is a function from the log so far, the request
      just made included, to a failure or a response.
    - The session headers set by [__init__] do not influence the control
      flow and are left out, as are the [print] calls. *)

(** ** Python values and exceptions *)

(** The exceptions that the modelled code can meet. Inside
    [generate_image] every one of them is caught by [except Exception];
    elsewhere nothing catches them. [PyIndexError] and
    [PyZeroDivisionError] are Python's [IndexError] and
    [ZeroDivisionError], [ImageError] is whatever Pillow raises for bytes
    it cannot read, and [BudgetExceeded] stands for a flood fill that
    outruns its step budget. *)
Inductive exn : Type :=
| TypeError | KeyError | PyIndexError | AttributeError | ValueError
| OverflowError | RequestTimeout | RequestError
| PyZeroDivisionError | OSError | ImageError | BudgetExceeded.

Inductive result (A : Type) : Type :=
| Ok (a : A)
| Raise (e : exn).

Arguments Ok {A} a.
Arguments Raise {A} e.

#[global] Instance result_bind : MBind result := λ A B k m,
  match m with
  | Ok a => k a
  | Raise e => Raise e
  end.

(** Byte strings ([bytes]). *)
Abbreviation bytes := (list Byte.byte).

(** What the Python runtime and the libraries provide: floats, JSON
    numbers, [base64.b64decode], and Pillow's decoder and PNG encoder. *)
Class Runtime : Type := {
  float : Type;
  float_zero : float;                      (* 0.0 *)
  float_add : float → float → float;       (* x + y *)
  float_of_bool : bool → float;            (* float(True), float(False) *)
  float_of_str : string → option float;    (* float(s); None for ValueError *)
  number : Type;                           (* a decoded JSON number *)
  number_truthy : number → bool;           (* bool(n) *)
  float_of_number : number → option float; (* float(n); None for OverflowError *)
  b64decode : string → option bytes;       (* None when it raises *)
  float_1_5 : float;                       (* the literal 1.5 *)
  float_1_2 : float;                       (* the literal 1.2 *)
  float_ge : float → float → bool;         (* x >= y *)
  int_truediv : Z → Z → option float;      (* w / h for h != 0; None for
                                              OverflowError *)
  HAS_PIL : bool;                          (* whether Pillow was imported *)
  image_open : bytes → option Image;       (* Image.open and convert('RGBA');
                                              None when they raise *)
  save_png : Image → bytes                 (* img.save(output, format='PNG') *)
}.

Section client.
Context `{Runtime}.

(** The result of [response.json()]. A Python [str] is represented by its
    UTF-8 bytes; a [dict] by its items in order, with distinct keys. *)
#[warnings="-register-all"]
Inductive json : Type :=
| JNull
| JBool (b : bool)
| JNum (n : number)
| JStr (s : string)
| JList (l : list json)
| JDict (items : list (string * json)).

(** [sub in s] for strings. *)
Definition str_contains (sub s : string) : bool :=
  if String.index 0 sub s is Some _ then true else false.

(** [key in v] *)
Definition py_in (key : string) (v : json) : result bool :=
  match v with
  | JDict items => Ok (bool_decide (key ∈ items.*1))
  | JList l => Ok (existsb (fun e => if e is JStr s then bool_decide (s = key) else false) l)
  | JStr s => Ok (str_contains key s)
  | _ => Raise TypeError
  end.

Fixpoint assoc (key : string) (items : list (string * json)) : option json :=
  match items with
  | [] => None
  | (k, v) :: rest => if bool_decide (k = key) then Some v else assoc key rest
  end.

(** [v[key]] for a string key. *)
Definition py_getitem (v : json) (key : string) : result json :=
  match v with
  | JDict items => if assoc key items is Some x then Ok x else Raise KeyError
  | _ => Raise TypeError
  end.

(** [len(v)] *)
Definition py_len (v : json) : result Z :=
  match v with
  | JList l => Ok (Z.of_nat (List.length l))
  | JStr s => Ok (Z.of_nat (String.length s))
  | JDict items => Ok (Z.of_nat (List.length items))
  | _ => Raise TypeError
  end.

(** [v[0]] *)
Definition py_first (v : json) : result json :=
  match v with
  | JList (x :: _) => Ok x
  | JList [] => Raise PyIndexError
  | JStr (String a _) => Ok (JStr (String a EmptyString))
  | JStr EmptyString => Raise PyIndexError
  | JDict _ => Raise KeyError
  | _ => Raise TypeError
  end.

(** [v.get(key, default)] *)
Definition py_get (v : json) (key : string) (default : json) : result json :=
  match v with
  | JDict items => Ok (if assoc key items is Some x then x else default)
  | _ => Raise AttributeError
  end.

(** [bool(v)] *)
Definition py_truthy (v : json) : bool :=
  match v with
  | JNull => false
  | JBool b => b
  | JNum n => number_truthy n
  | JStr s => negb (bool_decide (s = EmptyString))
  | JList l => if l is [] then false else true
  | JDict items => if items is [] then false else true
  end.

(** [float(v)] *)
Definition py_float (v : json) : result float :=
  match v with
  | JNum n => if float_of_number n is Some f then Ok f else Raise OverflowError
  | JBool b => Ok (float_of_bool b)
  | JStr s => if float_of_str s is Some f then Ok f else Raise ValueError
  | _ => Raise TypeError
  end.

(** [v.startswith(prefix)] *)
Definition py_startswith (v : json) (prefix : string) : result bool :=
  match v with
  | JStr s => Ok (String.prefix prefix s)
  | _ => Raise AttributeError
  end.

(** [s.split(",")[1] if "," in s else s] *)
Fixpoint drop_through_comma (s : string) : string :=
  match s with
  | EmptyString => EmptyString
  | String a rest =>
    if Ascii.eqb a "," then rest else drop_through_comma rest
  end.

Fixpoint take_until_comma (s : string) : string :=
  match s with
  | EmptyString => EmptyString
  | String a rest =>
    if Ascii.eqb a "," then EmptyString else String a (take_until_comma rest)
  end.

Definition base64_part (s : string) : string :=
  if str_contains "," s then take_until_comma (drop_through_comma s) else s.

(** ** Configuration *)

Definition OPENROUTER_API_URL : string :=
  "https://openrouter.ai/api/v1/chat/completions".
Definition MODEL : string := "google/gemini-2.5-flash-image-preview".
Definition MAX_RETRIES : Z := 3.
Definition RETRY_DELAY : Z := 2.

(** ** The network and the clock *)

(** The JSON document posted by [generate_image]. *)
Record payload : Type := mkPayload {
  p_model : string;
  p_content : string;          (* messages[0].content, with role "user" *)
  p_modalities : list string;
  p_aspect_ratio : string;
  p_image_size : string
}.

(** What the program does to the outside world, in order. The progress
    messages it prints are not recorded. *)
Inductive effect : Type :=
| Post (url : string) (body : payload) (timeout : Z)   (* session.post *)
| Get (url : string) (timeout : Z)                     (* requests.get *)
| Sleep (seconds : Z)                                  (* time.sleep *)
| Mkdir (path : list string)                           (* mkdir(parents, exist_ok) *)
| WriteBytes (path : list string) (data : bytes).      (* write_bytes *)

(** An HTTP response: [status_code], [json()] ([None] when it raises) and
    [content]. *)
Record response : Type := mkResponse {
  status_code : Z;
  json_body : option json;
  content : bytes
}.

Inductive reply : Type :=
| Fails (e : exn)           (* the request raises *)
| Responds (r : response).

(** The behaviour of the network: the answer to the request that was just
    logged, which may depend on everything done so far. *)
Definition network : Type := list effect → reply.

(** ** [OpenRouterClient] *)

Record client : Type := mkClient {
  api_key : string;
  total_cost : float;
  total_requests : Z;
  successful_requests : Z
}.

(** [__init__] *)
Definition new_client (key : string) : client := mkClient key float_zero 0 0.

(** [get_cost_summary]: total_requests, successful_requests,
    failed_requests, total_cost_usd. *)
Record cost_summary : Type := mkSummary {
  sum_total_requests : Z;
  sum_successful_requests : Z;
  sum_failed_requests : Z;
  sum_total_cost_usd : float
}.

Definition get_cost_summary (c : client) : cost_summary :=
  mkSummary (total_requests c) (successful_requests c)
            (total_requests c - successful_requests c) (total_cost c).

Definition add_request (c : client) : client :=
  mkClient (api_key c) (total_cost c) (total_requests c + 1)
           (successful_requests c).

Definition add_success (c : client) : client :=
  mkClient (api_key c) (total_cost c) (total_requests c)
           (successful_requests c + 1).

Definition add_cost (c : client) (x : float) : client :=
  mkClient (api_key c) (float_add (total_cost c) x) (total_requests c)
           (successful_requests c).

(** The cost tracking of a 200 response: the amount to add, if any. *)
Definition reported_cost (data : json) : result (option float) :=
  has_usage ← py_in "usage" data;
  if has_usage : bool then
    usage ← py_getitem data "usage";
    has_total ← py_in "total_cost" usage;
    if has_total : bool then
      v ← py_getitem usage "total_cost"; x ← py_float v; Ok (Some x)
    else
      has_cost ← py_in "cost" usage;
      if has_cost : bool then
        v ← py_getitem usage "cost"; x ← py_float v; Ok (Some x)
      else Ok None
  else Ok None.

(** Where the primary format points to. *)
Inductive image_ref : Type :=
| DataUrl (base64_data : string)    (* a "data:image" URL *)
| HttpUrl (url : string)            (* a URL to download *)
| NoImage.                          (* nothing usable in [images] *)

(** ["choices" in data and len(data["choices"]) > 0] *)
Definition has_choices (data : json) : result bool :=
  present ← py_in "choices" data;
  if present : bool then
    choices ← py_getitem data "choices";
    n ← py_len choices;
    Ok (0 <? n)
  else Ok false.

(** The [or] chain that reads the URL of the first image. *)
Definition first_image_url (image_obj : json) : result json :=
  a ← py_get image_obj "image_url" (JDict []);
  a_url ← py_get a "url" JNull;
  if py_truthy a_url then Ok a_url
  else
    b ← py_get image_obj "imageUrl" (JDict []);
    b_url ← py_get b "url" JNull;
    if py_truthy b_url then Ok b_url
    else py_get image_obj "url" JNull.

(** The string held by a value that passed [startswith]. *)
Definition str_of (v : json) : string := if v is JStr s then s else EmptyString.

(** The part of the 200 branch from [message = ...] up to the decision
    between decoding, downloading and the fallback. *)
Definition primary_image (data : json) : result (json * image_ref) :=
  choices ← py_getitem data "choices";
  first ← py_first choices;
  message ← py_get first "message" (JDict []);
  images ← py_get message "images" (JList []);
  if py_truthy images then
    image_obj ← py_first images;
    image_url ← first_image_url image_obj;
    if py_truthy image_url then
      is_data ← py_startswith image_url "data:image";
      if is_data : bool then
        Ok (message, DataUrl (base64_part (str_of image_url)))
      else
        is_http ← py_startswith image_url "http";
        if is_http : bool then Ok (message, HttpUrl (str_of image_url))
        else Ok (message, NoImage)
    else Ok (message, NoImage)
  else Ok (message, NoImage).

(** The fallback: [content] itself as a "data:image" URL. *)
Definition fallback_image (message : json) : result (option string) :=
  content ← py_get message "content" (JStr EmptyString);
  if py_truthy content then
    is_data ← py_startswith content "data:image";
    if is_data : bool then Ok (Some (base64_part (str_of content)))
    else Ok None
  else Ok None.

(** How one pass through the loop body ends. *)
Inductive attempt_end : Type :=
| Returns (data : bytes)     (* [return] with the image *)
| Continues                  (* [continue] after a 429 *)
| FallsThrough.              (* reaches the pause at the end of the body *)

(** [self.successful_requests += 1; return base64.b64decode(base64_data)] *)
Definition decode_and_return (c : client) (log : list effect)
    (base64_data : string) : attempt_end * client * list effect :=
  match b64decode base64_data with
  | Some data => (Returns data, add_success c, log)
  | None => (FallsThrough, add_success c, log)
  end.

(** The fallback part of the 200 branch. *)
Definition try_fallback (c : client) (log : list effect) (message : json)
    : attempt_end * client * list effect :=
  match fallback_image message with
  | Ok (Some base64_data) => decode_and_return c log base64_data
  | Ok None => (FallsThrough, c, log)
  | Raise _ => (FallsThrough, c, log)
  end.

(** The branch [response.status_code == 200]. *)
Definition handle_ok (net : network) (c : client) (log : list effect)
    (r : response) : attempt_end * client * list effect :=
  match json_body r with
  | None => (FallsThrough, c, log)
  | Some data =>
    match reported_cost data with
    | Raise _ => (FallsThrough, c, log)
    | Ok cost =>
      let c := if cost is Some x then add_cost c x else c in
      match has_choices data with
      | Raise _ => (FallsThrough, c, log)
      | Ok false => (FallsThrough, c, log)
      | Ok true =>
        match primary_image data with
        | Raise _ => (FallsThrough, c, log)
        | Ok (message, DataUrl base64_data) => decode_and_return c log base64_data
        | Ok (message, HttpUrl url) =>
          let log := log ++ [Get url 60] in
          match net log with
          | Fails _ => (FallsThrough, c, log)
          | Responds img_response =>
            if status_code img_response =? 200 then
              (Returns (content img_response), add_success c, log)
            else try_fallback c log message
          end
        | Ok (message, NoImage) => try_fallback c log message
        end
      end
    end
  end.

Definition request_body (prompt aspect_ratio : string) : payload :=
  mkPayload MODEL prompt ["image"; "text"]%string aspect_ratio "1K".

(** The body of [for attempt in range(retries)], up to the pause. *)
Definition attempt_body (net : network) (prompt aspect_ratio : string)
    (attempt : Z) (c : client) (log : list effect)
    : attempt_end * client * list effect :=
  let c := add_request c in
  let log := log ++ [Post OPENROUTER_API_URL (request_body prompt aspect_ratio) 120] in
  match net log with
  | Fails _ => (FallsThrough, c, log)
  | Responds r =>
    if status_code r =? 200 then handle_ok net c log r
    else if status_code r =? 429 then
      (Continues, c, log ++ [Sleep (RETRY_DELAY * (attempt + 1) * 2)])
    else (FallsThrough, c, log)
  end.

(** The loop over the attempts still to make. *)
Fixpoint attempts (net : network) (prompt aspect_ratio : string) (retries : Z)
    (todo : list Z) (c : client) (log : list effect)
    : option bytes * client * list effect :=
  match todo with
  | [] => (None, c, log)
  | attempt :: rest =>
    match attempt_body net prompt aspect_ratio attempt c log with
    | (Returns data, c, log) => (Some data, c, log)
    | (Continues, c, log) => attempts net prompt aspect_ratio retries rest c log
    | (FallsThrough, c, log) =>
      let log := if attempt <? retries - 1 then log ++ [Sleep RETRY_DELAY] else log in
      attempts net prompt aspect_ratio retries rest c log
    end
  end.

(** [generate_image(prompt, aspect_ratio, retries)]: the image bytes or
    [None], the updated client and the extended log. *)
Definition generate_image (net : network) (c : client) (log : list effect)
    (prompt aspect_ratio : string) (retries : Z)
    : option bytes * client * list effect :=
  attempts net prompt aspect_ratio retries (range retries) c log.
End client.

(** A response document in the primary format whose first image has the
    given URL. *)
Definition image_document `{Runtime} (url : string) : json :=
  JDict [("choices"%string,
    JList [JDict [("message"%string,
      JDict [("images"%string,
        JList [JDict [("image_url"%string,
          JDict [("url"%string, JStr url)])]])])]])].

(** ** Measuring a log *)

Definition is_post (e : effect) : bool := if e is Post _ _ _ then true else false.
Definition is_get (e : effect) : bool := if e is Get _ _ then true else false.

(** The number of POST requests in a log. *)
Definition posts (log : list effect) : Z :=
  Z.of_nat (List.length (List.filter is_post log)).

(** The number of downloads in a log. *)
Definition downloads (log : list effect) : Z :=
  Z.of_nat (List.length (List.filter is_get log)).

(** The seconds slept in a log. *)
Definition slept (log : list effect) : Z :=
  foldr (fun e acc => (if e is Sleep s then s else 0) + acc) 0 log.

(** ** Vocabulary for the properties of the client *)

Section client_vocabulary.
Context `{Runtime}.

(** What one pass through the loop body does. *)
Record attempt_facts (net : network) (attempt : Z) (c : client)
    (log : list effect) (e : attempt_end) (c' : client) (log' : list effect)
    : Prop := {
  af_log : ∃ added, log' = log ++ added ∧ posts added = 1 ∧
             0 ≤ downloads added ≤ 1 ∧
             slept added = (if e is Continues then RETRY_DELAY * (attempt + 1) * 2 else 0);
  af_key : api_key c' = api_key c;
  af_total : total_requests c' = total_requests c + 1;
  af_success : successful_requests c ≤ successful_requests c'
                 ≤ successful_requests c + 1;
  af_return : ∀ data, e = Returns data →
                successful_requests c' = successful_requests c + 1
}.

(** The longest the attempts in [todo] can sleep. *)
Definition sleep_budget (todo : list Z) : Z :=
  foldr (fun attempt acc => RETRY_DELAY * (attempt + 1) * 2 + acc) 0 todo.

(** What a run of the loop over [todo] does. *)
Record loop_facts (todo : list Z) (c : client) (log : list effect)
    (res : option bytes) (c' : client) (log' : list effect) : Prop := {
  lf_log : ∃ added, log' = log ++ added ∧
             0 ≤ posts added ≤ Z.of_nat (List.length todo) ∧
             0 ≤ downloads added ≤ posts added ∧
             total_requests c' = total_requests c + posts added ∧
             successful_requests c' ≤ successful_requests c + posts added ∧
             (Forall (fun attempt => 0 ≤ attempt) todo →
              0 ≤ slept added ≤ sleep_budget todo) ∧
             (res ≠ None → 1 ≤ posts added);
  lf_key : api_key c' = api_key c;
  lf_success : successful_requests c ≤ successful_requests c';
  lf_return : res ≠ None → successful_requests c + 1 ≤ successful_requests c'
}.

(** Clients as they occur in a run: made by [__init__], then used for any
    number of [generate_image] calls. *)
Inductive in_use : client → Prop :=
| in_use_new key : in_use (new_client key)
| in_use_call net c log prompt aspect_ratio retries res c' log' :
    in_use c →
    generate_image net c log prompt aspect_ratio retries = (res, c', log') →
    in_use c'.


End client_vocabulary.

(** * The asset generators and [main]

    Modelling conventions.
    - [main] starts from the parsed command line; the argument parser, the
      environment and the built-in default key are outside the embedding.
    - A [Path] is the list of the parts of the base directory followed by
      the operands that were joined to it with [/].
    - [mkdir] and [write_bytes] are logged like requests, and a second
      function from the log tells whether the file system accepts the
      operation or raises [OSError].
    - The generators return their result together with the client, which
      Python mutates in place, and the log. An exception that escapes is a
      result of its own; in [main] it ends the run with a traceback.
    - Pillow's decoder and PNG encoder and the float comparison behind the
      aspect ratio of a building belong to the [Runtime]. *)

(** ** Prompt tables *)

Definition STYLE_BIBLE : string :=
  "hand-painted, soft gradients, warm colors, slightly stylized, cozy game aesthetic like Stardew Valley, clean outlines, readable silhouettes".

Definition LIGHTING : string :=
  "soft studio light from top-left, subtle drop shadow underneath".

Definition CHROMA_KEY_BG : string :=
  "solid bright magenta (#FF00FF) background".

Definition TILE_CONSTRAINTS : string :=
  "single tile only, centered, " +:+ CHROMA_KEY_BG +:+ ", crisp edges, consistent density".

Definition BUILDING_CONSTRAINTS : string :=
  "single building only, centered, " +:+ CHROMA_KEY_BG +:+ ", crisp edges, readable silhouette".

(** [BiomeConfig] *)
Record BiomeConfig : Type := mkBiome {
  name : string;
  display_name : string;
  base_prompt : string;
  color_palette : string;
  features : string;
  mood : string
}.

(** An entry of [BUILDINGS]: a dict with the keys "size", "prompt" and
    "features". *)
Record BuildingConfig : Type := mkBuilding {
  building_size : Z * Z;
  building_prompt : string;
  building_features : string
}.

Definition BIOMES : list (string * BiomeConfig) := [
  ("oak_forest",
   mkBiome "oak_forest" "Oak Forest"
     "A lush oak forest floor tile with rich brown soil, fallen acorns, scattered autumn leaves in orange and gold, and patches of soft green moss"
     "warm browns, forest greens, touches of orange and gold, earthy tones"
     "oak leaf litter, acorns, moss patches, small mushrooms, twigs"
     "peaceful, dappled sunlight filtering through trees, cozy autumn forest");
  ("pine_forest",
   mkBiome "pine_forest" "Pine Forest"
     "A dark evergreen pine forest floor with scattered pine needles, pine cones, and patches of low ferns"
     "deep greens, dark browns, hints of blue-green, shadowy tones"
     "pine needles carpet, pine cones, small ferns, rocks with lichen"
     "mysterious, slightly darker, peaceful coniferous forest");
  ("jungle",
   mkBiome "jungle" "Jungle"
     "A dense tropical jungle floor with large tropical leaves, exotic flowers, vines, and humid atmosphere"
     "vibrant greens, tropical pinks and purples, yellow accents, lush colors"
     "large monstera-like leaves, colorful flowers, hanging vines, tropical plants"
     "lush, exotic, humid, teeming with life");
  ("dead_forest",
   mkBiome "dead_forest" "Dead Forest"
     "A spooky dead forest floor with bare twisted roots, dead leaves, and eerie fog wisps"
     "grays, muted browns, purple-gray shadows, desaturated tones"
     "dead leaves, bare roots, cracked dry soil, wisps of fog, dead branches"
     "eerie, haunting, but still somewhat cozy in a gothic way");
  ("mountains",
   mkBiome "mountains" "Mountains"
     "A rocky mountain terrain tile with gray stone, alpine gravel, small hardy plants between rocks"
     "grays, slate blues, hints of green, cool stone tones"
     "rocky ground, gravel, small alpine flowers, lichen on stones"
     "rugged, high altitude, crisp mountain air feeling");
  ("swamp",
   mkBiome "swamp" "Swamp"
     "A murky swamp tile with shallow muddy water, lily pads, cattails, and mossy patches"
     "murky greens, muddy browns, dark water blues, moss colors"
     "shallow water, lily pads, cattails, moss, algae, muddy patches"
     "mysterious, damp, but with a cozy wetland charm");
  ("desert",
   mkBiome "desert" "Desert"
     "A sandy desert tile with golden dunes, scattered pebbles, and occasional desert succulent"
     "warm golds, sandy yellows, terracotta, sun-bleached tones"
     "sand ripples, small rocks, tiny cactus or succulent, desert flowers"
     "warm, sun-baked, peaceful desert oasis feeling");
  ("tundra",
   mkBiome "tundra" "Tundra"
     "A frozen tundra tile with snow patches, ice crystals, frozen ground, and hardy arctic moss"
     "whites, icy blues, pale greens, frost tones"
     "snow patches, ice crystals, frozen ground, arctic moss, small stones"
     "cold but beautiful, arctic serenity, winter wonderland");
  ("meadow",
   mkBiome "meadow" "Meadow"
     "A sunny meadow tile with lush green grass, wildflowers in various colors, and butterflies"
     "bright greens, cheerful yellows, pinks, purples, sunny colors"
     "tall grass, daisies, buttercups, lavender, clover, small butterflies"
     "cheerful, sunny, peaceful pastoral scene");
  ("cave_entrance",
   mkBiome "cave_entrance" "Cave Entrance"
     "A dark cave entrance tile with rocky ground, mysterious shadows, and glowing crystals"
     "dark grays, deep purples, hints of crystal blue/purple glow"
     "cave rocks, mysterious shadows, small glowing crystals, stalactite hints"
     "mysterious, adventurous, hint of treasure within");
  ("enemy_lair",
   mkBiome "enemy_lair" "Enemy Lair"
     "A threatening enemy territory tile with scorched earth, bones, claw marks, and ominous atmosphere"
     "dark reds, charred blacks, bone whites, threatening tones"
     "scorched ground, small bones, claw marks in dirt, dead vegetation"
     "dangerous, threatening, but still game-appropriate (not too scary)")
].

Definition AUTOTILE_VARIANTS : list (Z * (string * string)) := [
  (0, ("isolated", "completely surrounded by different terrain, island tile"));
  (1, ("north_only", "connects to same terrain on north edge only"));
  (2, ("east_only", "connects to same terrain on east edge only"));
  (3, ("north_east", "connects to same terrain on north and east edges (corner piece)"));
  (4, ("south_only", "connects to same terrain on south edge only"));
  (5, ("north_south", "connects to same terrain on north and south (vertical strip)"));
  (6, ("east_south", "connects to same terrain on east and south edges (corner piece)"));
  (7, ("north_east_south", "connects on north, east, and south (open to west)"));
  (8, ("west_only", "connects to same terrain on west edge only"));
  (9, ("north_west", "connects to same terrain on north and west edges (corner piece)"));
  (10, ("east_west", "connects to same terrain on east and west (horizontal strip)"));
  (11, ("north_east_west", "connects on north, east, and west (open to south)"));
  (12, ("south_west", "connects to same terrain on south and west edges (corner piece)"));
  (13, ("north_south_west", "connects on north, south, and west (open to east)"));
  (14, ("east_south_west", "connects on east, south, and west (open to north)"));
  (15, ("full", "fully surrounded by same terrain on all sides, center tile"))
].

Definition BUILDINGS : list (string * BuildingConfig) := [
  ("den",
   mkBuilding (192, 128)
     "A cozy cat den/shelter made of woven branches and leaves, with a small entrance, comfortable-looking interior visible, warm and inviting"
     "woven branch structure, leaf roof, soft bedding visible inside, small paw prints near entrance");
  ("food_storage",
   mkBuilding (128, 96)
     "A rustic food storage hut with hanging dried fish and meat, wooden shelves with preserved foods"
     "wooden structure, hanging fish, clay pots, wooden shelves");
  ("water_bowl",
   mkBuilding (96, 64)
     "A large stone water bowl with fresh clear water, lily pad floating, small ripples"
     "carved stone bowl, clear water, small plants around base");
  ("beds",
   mkBuilding (128, 96)
     "Cozy sleeping area with multiple soft beds made of moss, leaves, and feathers for cats"
     "multiple soft nests, feathers, dried grass bedding, cozy arrangement");
  ("herb_garden",
   mkBuilding (128, 96)
     "A small medicinal herb garden with various healing plants, lavender, mint, and catnip"
     "organized plant beds, labeled herbs, small fence, aromatic plants");
  ("nursery",
   mkBuilding (160, 112)
     "A protected nursery area for kittens with extra soft bedding, toys, and protective walls"
     "extra soft bedding, small toys, protective woven walls, warm lighting");
  ("elder_corner",
   mkBuilding (128, 96)
     "A comfortable resting area for elder cats with extra cushioning and sun-catching design"
     "thick cushioned beds, sun patch, gentle slope for easy access");
  ("walls",
   mkBuilding (128, 64)
     "A defensive wall section made of woven branches and thorns, sturdy but natural-looking"
     "woven branches, thorny vines, sturdy construction");
  ("mouse_farm",
   mkBuilding (160, 112)
     "A small enclosed area for farming mice, with little mouse houses and feeding stations"
     "small enclosure, tiny mouse houses, grain storage, humane design")
].

(** [d[key]] for a dict given by its items, in insertion order. *)
Fixpoint dict_get {K A : Type} `{EqDecision K} (key : K) (items : list (K * A))
    : option A :=
  match items with
  | [] => None
  | (k, v) :: rest => if decide (k = key) then Some v else dict_get key rest
  end.

(** ** Paths and the file system *)

(** A [Path], as the parts of the base directory followed by the operands
    of [/] that were joined to it. *)
Abbreviation Path := (list string).

(** The file system: whether the operation that was just logged succeeds;
    when it does not, it raises [OSError]. *)
Definition disk : Type := list effect → bool.

Section generators.
Context `{Runtime}.

(** ** [remove_chroma_key_background] on bytes *)

(** An exception of the pixel transform, as it reaches the caller. *)
Definition from_outcome {A : Type} (m : outcome A) : result A :=
  match m with
  | Done a => Ok a
  | IndexError => Raise PyIndexError
  | ZeroDivisionError => Raise PyZeroDivisionError
  | OutOfFuel => Raise BudgetExceeded
  end.

(** The whole of [remove_chroma_key_background]: the [HAS_PIL] guard, the
    decoding, the pixel transform and the PNG encoding. On the early return
    the input bytes are handed back, not a PNG of them. *)
Definition remove_chroma_key_background_bytes (image_bytes : bytes)
    (tolerance sample_size : Z) : result bytes :=
  if negb HAS_PIL then Ok image_bytes
  else
    match image_open image_bytes with
    | None => Raise ImageError
    | Some img =>
      all_bg_colors ← from_outcome (collect_corner_samples img sample_size);
      match all_bg_colors with
      | [] => Ok image_bytes
      | _ :: _ =>
        out ← from_outcome (remove_chroma_key_background img tolerance sample_size);
        Ok (save_png out)
      end
    end.

(** ** The generators *)

(** The prompt of an autotile variant. *)
Definition variant_prompt (biome : BiomeConfig) (variant : Z)
    (variant_name variant_desc : string) : string :=
  "Generate an isometric 2D game terrain tile, orthographic 3/4 top-down view, diamond shape. Subject: "
  +:+ base_prompt biome
  +:+ ". Tile variant "
  +:+ pretty variant
  +:+ " ("
  +:+ variant_name
  +:+ "): "
  +:+ variant_desc
  +:+ ". Visual elements: "
  +:+ features biome
  +:+ ". Color palette: "
  +:+ color_palette biome
  +:+ ". Mood: "
  +:+ mood biome
  +:+ ". Style: "
  +:+ STYLE_BIBLE
  +:+ ". Constraints: "
  +:+ TILE_CONSTRAINTS
  +:+ ", seamless edges where connecting to same terrain. Lighting: "
  +:+ LIGHTING
  +:+ ". Generate 1 image.".

(** The prompt of a centre tile. *)
Definition center_prompt (biome : BiomeConfig) : string :=
  "Generate an isometric 2D game terrain tile, orthographic 3/4 top-down view, diamond shape. Subject: "
  +:+ base_prompt biome
  +:+ ". This is a center tile that seamlessly connects on all edges. Visual elements: "
  +:+ features biome
  +:+ ". Color palette: "
  +:+ color_palette biome
  +:+ ". Mood: "
  +:+ mood biome
  +:+ ". Style: "
  +:+ STYLE_BIBLE
  +:+ ". Constraints: "
  +:+ TILE_CONSTRAINTS
  +:+ ", perfectly seamless on all edges. Lighting: "
  +:+ LIGHTING
  +:+ ". Generate 1 image.".

(** The prompt of a building. *)
Definition building_prompt_text (config : BuildingConfig) : string :=
  "Generate an isometric 2D game building, orthographic 3/4 top-down view, for a cat colony game. Subject: "
  +:+ building_prompt config
  +:+ ". Visual details: "
  +:+ building_features config
  +:+ ". Scale: cat-sized structure, cozy proportions. Style: "
  +:+ STYLE_BIBLE
  +:+ ", natural materials like wood, stone, leaves, branches. Constraints: "
  +:+ BUILDING_CONSTRAINTS
  +:+ ", warm inviting safe-feeling design. Lighting: "
  +:+ LIGHTING
  +:+ ". Generate 1 image.".

(** The last lines of both generators, which are the same: ask for the
    image, post-process it and write it to [output_path]. The client is
    [None] in a dry run. *)
Definition fetch_and_save (net : network) (dsk : disk) (c : option client)
    (log : list effect) (prompt aspect_ratio : string) (output_path : Path)
    : result bool * option client * list effect :=
  match c with
  | None => (Raise AttributeError, None, log)
  | Some cl =>
    match generate_image net cl log prompt aspect_ratio MAX_RETRIES with
    | (Some (b :: rest), cl, log) =>
      match (if HAS_PIL then remove_chroma_key_background_bytes (b :: rest) 70 10
             else Ok (b :: rest)) with
      | Raise e => (Raise e, Some cl, log)
      | Ok image_data =>
        let log := log ++ [WriteBytes output_path image_data] in
        if dsk log then (Ok true, Some cl, log) else (Raise OSError, Some cl, log)
      end
    | (_, cl, log) => (Ok false, Some cl, log)
    end
  end.

(** [generate_biome_tile(client, biome, output_dir, variant, dry_run)] *)
Definition generate_biome_tile (net : network) (dsk : disk) (c : option client)
    (log : list effect) (biome : BiomeConfig) (output_dir : Path)
    (variant : option Z) (dry_run : bool)
    : result bool * option client * list effect :=
  match
    match variant with
    | Some v =>
      match dict_get v AUTOTILE_VARIANTS with
      | None => Raise KeyError
      | Some (variant_name, variant_desc) =>
        Ok (variant_prompt biome v variant_name variant_desc,
            pretty v +:+ ".png", output_dir ++ [name biome])
      end
    | None => Ok (center_prompt biome, name biome +:+ ".png", output_dir)
    end
  with
  | Raise e => (Raise e, c, log)
  | Ok (prompt, filename, subdir) =>
    let log := log ++ [Mkdir subdir] in
    if negb (dsk log) then (Raise OSError, c, log)
    else
      let output_path := subdir ++ [filename] in
      if dry_run then (Ok true, c, log)
      else fetch_and_save net dsk c log prompt "16:9" output_path
  end.

(** The aspect ratio that [generate_building] picks for a size. *)
Definition building_aspect_ratio (width height : Z) : result string :=
  if bool_decide (height = 0) then Raise PyZeroDivisionError
  else
    match int_truediv width height with
    | None => Raise OverflowError
    | Some ratio =>
      Ok (if float_ge ratio float_1_5 then "3:2"
          else if float_ge ratio float_1_2 then "4:3"
          else "1:1")
    end.

(** [generate_building(client, building_name, config, output_dir, dry_run)];
    the unused [building_display_name] is left out. *)
Definition generate_building (net : network) (dsk : disk) (c : option client)
    (log : list effect) (building_name : string) (config : BuildingConfig)
    (output_dir : Path) (dry_run : bool)
    : result bool * option client * list effect :=
  let '(width, height) := building_size config in
  let prompt := building_prompt_text config in
  let log := log ++ [Mkdir output_dir] in
  if negb (dsk log) then (Raise OSError, c, log)
  else
    let output_path := output_dir ++ [building_name +:+ ".png"] in
    if dry_run then (Ok true, c, log)
    else
      match building_aspect_ratio width height with
      | Raise e => (Raise e, c, log)
      | Ok aspect_ratio =>
        fetch_and_save net dsk c log prompt aspect_ratio output_path
      end.

(** ** [main] *)

(** The parsed command line. [args_api_key] is the value of [--api-key],
    of the environment variable or of the built-in default. *)
Record Args : Type := mkArgs {
  args_api_key : string;
  args_output_dir : Path;
  args_biome : option string;
  args_biomes : bool;
  args_autotile : bool;
  args_buildings : bool;
  args_all : bool;
  args_dry_run : bool
}.

(** The local state of [main]. *)
Record progress : Type := mkProgress {
  the_client : option client;
  the_log : list effect;
  success_count : Z;
  fail_count : Z
}.

(** [main] under way, or stopped by an exception that nothing catches. *)
Inductive run : Type :=
| Running (st : progress)
| Crashed (e : exn) (st : progress).

(** How the program ends: [sys.exit(code)], with 0 for reaching the end of
    [main], or a traceback. *)
Inductive ending : Type :=
| Exit (code : Z)
| Traceback (e : exn).

(** The end of every loop body: count the result of the generator, then
    pause unless this is a dry run. *)
Definition account (dry_run : bool) (st : progress)
    (call : result bool * option client * list effect) : run :=
  match call with
  | (Raise e, c, log) => Crashed e (mkProgress c log (success_count st) (fail_count st))
  | (Ok ok, c, log) =>
    let log := if dry_run then log else log ++ [Sleep 1] in
    if ok then Running (mkProgress c log (success_count st + 1) (fail_count st))
    else Running (mkProgress c log (success_count st) (fail_count st + 1))
  end.

(** [for x in xs: body], stopping at an exception. *)
Fixpoint for_assets {A : Type} (xs : list A) (body : A → progress → run)
    (st : progress) : run :=
  match xs with
  | [] => Running st
  | x :: rest =>
    match body x st with
    | Running st => for_assets rest body st
    | Crashed e st => Crashed e st
    end
  end.

(** [bool(args.biome)] *)
Definition biome_given (args : Args) : bool :=
  match args_biome args with
  | Some b => negb (bool_decide (b = EmptyString))
  | None => false
  end.

(** [[args.biome] if args.biome else list(BIOMES.keys())] *)
Definition biomes_to_generate (args : Args) : list string :=
  match args_biome args with
  | Some b => if bool_decide (b = EmptyString) then BIOMES.*1 else [b]
  | None => BIOMES.*1
  end.

(** The loop under "GENERATING BIOME TILES". *)
Definition base_tiles (net : network) (dsk : disk) (args : Args)
    (st : progress) : run :=
  for_assets (biomes_to_generate args) (fun biome_name st =>
    match dict_get biome_name BIOMES with
    | None => Crashed KeyError st
    | Some biome =>
      account (args_dry_run args) st
        (generate_biome_tile net dsk (the_client st) (the_log st) biome
           (args_output_dir args ++ ["tiles"; "isometric"]) None
           (args_dry_run args))
    end) st.

(** The loops under "GENERATING AUTOTILE VARIANTS". *)
Definition autotile_variants (net : network) (dsk : disk) (args : Args)
    (st : progress) : run :=
  for_assets (biomes_to_generate args) (fun biome_name st =>
    match dict_get biome_name BIOMES with
    | None => Crashed KeyError st
    | Some biome =>
      for_assets (range 16) (fun variant st =>
        account (args_dry_run args) st
          (generate_biome_tile net dsk (the_client st) (the_log st) biome
             (args_output_dir args ++ ["tiles"; "isometric"]) (Some variant)
             (args_dry_run args))) st
    end) st.

(** The loop under "GENERATING BUILDINGS". *)
Definition buildings (net : network) (dsk : disk) (args : Args)
    (st : progress) : run :=
  for_assets BUILDINGS (fun '(building_name, config) st =>
    account (args_dry_run args) st
      (generate_building net dsk (the_client st) (the_log st) building_name
         config (args_output_dir args ++ ["buildings"; "isometric"])
         (args_dry_run args))) st.

(** One of the three parts of [main], run when its condition holds. *)
Definition part (condition : bool) (body : progress → run) (r : run) : run :=
  match r with
  | Running st => if condition then body st else Running st
  | Crashed e st => Crashed e st
  end.

(** [main()], from the parsed arguments on: how the program ends, the
    client and the log. *)
Definition main (net : network) (dsk : disk) (args : Args) (log : list effect)
    : ending * option client * list effect :=
  if bool_decide (args_api_key args = EmptyString) && negb (args_dry_run args)
  then (Exit 1, None, log)
  else if negb (args_biomes args || args_autotile args || args_buildings args
                || args_all args || biome_given args)
  then (Exit 1, None, log)
  else
    let client := if args_dry_run args then None
                  else Some (new_client (args_api_key args)) in
    let r := Running (mkProgress client log 0 0) in
    let r := part (args_biomes args || args_all args || biome_given args)
               (base_tiles net dsk args) r in
    let r := part (args_autotile args || args_all args)
               (autotile_variants net dsk args) r in
    let r := part (args_buildings args || args_all args)
               (buildings net dsk args) r in
    match r with
    | Running st =>
      (Exit (if 0 <? fail_count st then 1 else 0), the_client st, the_log st)
    | Crashed e st => (Traceback e, the_client st, the_log st)
    end.
End generators.

(** ** Measuring a log, continued *)

Definition is_write (e : effect) : bool := if e is WriteBytes _ _ then true else false.
Definition is_mkdir (e : effect) : bool := if e is Mkdir _ then true else false.

(** The number of files written in a log. *)
Definition writes (log : list effect) : Z :=
  Z.of_nat (List.length (List.filter is_write log)).

(** The number of [mkdir] calls in a log: one per generator call. *)
Definition mkdirs (log : list effect) : Z :=
  Z.of_nat (List.length (List.filter is_mkdir log)).

(** ** Vocabulary for the properties of a run *)

(** The effects of [generate_image]: requests and pauses. *)
Definition is_network (e : effect) : bool :=
  match e with
  | Post _ _ _ | Get _ _ | Sleep _ => true
  | Mkdir _ | WriteBytes _ _ => false
  end.

(** Every file written in [added] is a ".png" directly inside a directory
    that satisfies [ok_dir] and was created earlier in [added]. *)
Definition well_placed (ok_dir : Path → Prop) (added : list effect) : Prop :=
  ∀ i path data, added !! i = Some (WriteBytes path data) →
    ∃ j dir stem,
      (j < i)%nat ∧ added !! j = Some (Mkdir dir) ∧
      path = dir ++ [stem +:+ ".png"] ∧ ok_dir dir.

(** The directories below [output_dir] that [main] writes to. *)
Definition asset_dir (output_dir dir : Path) : Prop :=
  (output_dir ++ ["tiles"; "isometric"]) `prefix_of` dir ∨
  dir = output_dir ++ ["buildings"; "isometric"].

(** The number of generator calls that a run with these arguments makes
    when nothing stops it. *)
Definition planned_assets (args : Args) : Z :=
  let n := Z.of_nat (List.length (biomes_to_generate args)) in
  (if args_biomes args || args_all args || biome_given args then n else 0) +
  (if args_autotile args || args_all args then 16 * n else 0) +
  (if args_buildings args || args_all args
   then Z.of_nat (List.length BUILDINGS) else 0).

(** [--biome], when given, names a biome of the table, as the [choices] of
    the argument parser ensure. *)
Definition biome_known (args : Args) : Prop :=
  ∀ b, args_biome args = Some b → b ∈ BIOMES.*1.

Section run_vocabulary.
Context `{Runtime}.



(** Why a generator call can raise: the file system refuses an operation,
    the post-processing of an image raises, which takes a run that is not a
    dry run, or the call was made with arguments that [other] describes. *)
Inductive crash_cause (dsk : disk) (dry_run : bool) (other : exn → Prop)
    : exn → list effect → Prop :=
| disk_refuses log : dsk log = false → crash_cause dsk dry_run other OSError log
| post_processing e log image_bytes :
    dry_run = false → HAS_PIL = true →
    remove_chroma_key_background_bytes image_bytes 70 10 = Raise e →
    crash_cause dsk dry_run other e log
| bad_arguments e log : other e → crash_cause dsk dry_run other e log.

(** The arguments with which [generate_biome_tile] raises: a variant that
    is not in the table, or no client outside a dry run. *)
Definition tile_trouble (variant : option Z) (dry_run : bool)
    (c : option client) (e : exn) : Prop :=
  (e = KeyError ∧ ∃ v, variant = Some v ∧ dict_get v AUTOTILE_VARIANTS = None) ∨
  (e = AttributeError ∧ c = None ∧ dry_run = false).

(** The arguments with which [generate_building] raises: a size without an
    aspect ratio, or no client outside a dry run. *)
Definition building_trouble (config : BuildingConfig) (dry_run : bool)
    (c : option client) (e : exn) : Prop :=
  (dry_run = false ∧
   building_aspect_ratio (building_size config).1 (building_size config).2
     = Raise e) ∨
  (e = AttributeError ∧ c = None ∧ dry_run = false).

(** The same for a run of [main] that started with the client [c]. *)
Definition run_trouble (args : Args) (c : option client) (e : exn) : Prop :=
  (e = KeyError ∧ ¬ biome_known args) ∨
  (e = AttributeError ∧ c = None ∧ args_dry_run args = false) ∨
  (args_dry_run args = false ∧
   ∃ building_name config,
     (building_name, config) ∈ BUILDINGS ∧
     building_aspect_ratio (building_size config).1 (building_size config).2
       = Raise e).

(** How the client after some steps relates to the one before. *)
Definition client_after (c c' : option client) (added : list effect) : Prop :=
  match c with
  | None => c' = None
  | Some cl =>
    ∃ cl', c' = Some cl' ∧ api_key cl' = api_key cl ∧
           total_requests cl' = total_requests cl + posts added
  end.

(** What the log says about the steps since some earlier point. *)
Record segment_facts (ok_dir : Path → Prop) (dry_run : bool)
    (added : list effect) : Prop := {
  seg_posts : 0 ≤ posts added ≤ MAX_RETRIES * mkdirs added;
  seg_downloads : 0 ≤ downloads added ≤ posts added;
  seg_slept : 0 ≤ slept added ≤ 25 * mkdirs added;
  seg_writes : 0 ≤ writes added ≤ mkdirs added;
  seg_placed : well_placed ok_dir added;
  seg_dry : dry_run = true → Forall (fun e => is_mkdir e = true) added
}.

(** What one generator call does. *)
Record call_facts (dsk : disk) (other : exn → Prop) (ok_dir : Path → Prop)
    (dry_run : bool) (c : option client) (log : list effect)
    (r : result bool) (c' : option client) (log' : list effect) : Prop := {
  call_log : ∃ added,
    log' = log ++ added ∧
    segment_facts ok_dir dry_run added ∧
    0 ≤ slept added ≤ 24 * mkdirs added ∧
    mkdirs added ≤ 1 ∧
    client_after c c' added ∧
    (∀ ok, r = Ok ok → mkdirs added = 1 ∧
       (dry_run = true → ok = true) ∧
       (dry_run = false → writes added = if ok then 1 else 0));
  call_cause : ∀ e, r = Raise e → crash_cause dsk dry_run other e log'
}.

(** The state of a run, crashed or not. *)
Definition state_of (r : run) : progress :=
  match r with Running st | Crashed _ st => st end.

(** What some steps of [main] do. [n] is the number of generator calls that
    they make when nothing stops them. *)
Record progress_facts (dsk : disk) (args : Args) (n : Z) (st0 : progress)
    (r : run) : Prop := {
  pf_log : ∃ added,
    the_log (state_of r) = the_log st0 ++ added ∧
    segment_facts (asset_dir (args_output_dir args)) (args_dry_run args) added ∧
    mkdirs added ≤ n ∧
    client_after (the_client st0) (the_client (state_of r)) added ∧
    (∀ st, r = Running st →
       mkdirs added = n ∧
       success_count st0 ≤ success_count st ∧
       fail_count st0 ≤ fail_count st ∧
       (success_count st - success_count st0) +
         (fail_count st - fail_count st0) = n ∧
       (args_dry_run args = true → fail_count st = fail_count st0) ∧
       (args_dry_run args = false →
        writes added = success_count st - success_count st0));
  pf_cause : ∀ e st, r = Crashed e st →
    crash_cause dsk (args_dry_run args) (run_trouble args (the_client st0)) e
      (the_log st)
}.
End run_vocabulary.

(** ** A small runtime and network for examples *)

(** Floats are counted in thousandths and JSON numbers are integers here,
    [b64decode] knows one payload, "QQ==", the letter A, and Pillow is
    installed: it reads any bytes as the magenta frame around a dark
    centre, and writes one byte per row of a picture. *)
Definition example_runtime : Runtime := {|
  float := Z;
  float_zero := 0;
  float_add := Z.add;
  float_of_bool b := if b then 1000 else 0;
  float_of_str _ := None;
  number := Z;
  number_truthy n := negb (n =? 0);
  float_of_number n := Some (1000 * n);
  b64decode s := if bool_decide (s = "QQ=="%string) then Some [Byte.x41] else None;
  float_1_5 := 1500;
  float_1_2 := 1200;
  float_ge := Z.geb;
  int_truediv w h := Some (1000 * w / h);
  HAS_PIL := true;
  image_open _ := Some dark_frame;
  save_png img := (fun _ => Byte.x50) <$> image_rows img
|}.

(** A network that answers every request with the same status and no
    usable body. *)
Definition always_status (code : Z) : network (H := example_runtime) :=
  fun _ => Responds (mkResponse code None []).

(** A network that answers every request with status 200 and the same
    document. *)
Definition always_serves (doc : json (H := example_runtime))
    : network (H := example_runtime) :=
  fun _ => Responds (mkResponse 200 (Some doc) []).

(** A client fresh from [__init__]. *)
Definition example_client : client (H := example_runtime) := new_client "key".

(** ** Example runs *)

(** A file system that accepts everything, and one that accepts nothing. *)
Definition willing_disk : disk := fun _ => true.

(** [--biome oak_forest], with or without [--dry-run]. *)
Definition oak_args (dry_run : bool) : Args :=
  mkArgs "key" ["public"; "images"] (Some "oak_forest")
    false false false false dry_run.


(** * Properties *)

(** ** Loops that never raise *)

(** A loop that appends [g v] for the elements passing a test. *)
Lemma for_each_collect {A B : Type} (P : A → Prop) `{∀ v, Decision (P v)}
    (g : A → B) (body : list B → A → outcome (list B)) xs acc :
  (∀ acc v, body acc v = Done (if decide (P v) then acc ++ [g v] else acc)) →
  for_each xs body acc = Done (acc ++ (g <$> filter P xs)).
Proof.
  intros Hb. revert acc. induction xs as [|v xs IH]; intros acc; simpl.
  - by rewrite app_nil_r.
  - rewrite Hb. simpl. rewrite IH. rewrite filter_cons.
    destruct (decide (P v)); simpl; [by rewrite <- app_assoc | done].
Qed.

(** A loop that appends a whole block [h v] per element. *)
Lemma for_each_extend {A B : Type} (h : A → list B)
    (body : list B → A → outcome (list B)) xs acc :
  (∀ acc v, body acc v = Done (acc ++ h v)) →
  for_each xs body acc = Done (acc ++ (xs ≫= h)).
Proof.
  intros Hb. revert acc. induction xs as [|v xs IH]; intros acc; csimpl.
  - by rewrite app_nil_r.
  - rewrite Hb. csimpl. rewrite IH. by rewrite <- app_assoc.
Qed.

(** ** Bounds and pixel access *)

Lemma inside_in_bounds img x y : inside img x y = true ↔ in_bounds img (x, y).
Proof. unfold inside, in_bounds. simpl. lia. Qed.

Lemma inside_decide img x y :
  inside img x y = bool_decide (in_bounds img (x, y)).
Proof.
  destruct (inside img x y) eqn:E.
  - symmetry. apply bool_decide_eq_true. by apply inside_in_bounds.
  - symmetry. apply bool_decide_eq_false. rewrite <- inside_in_bounds. congruence.
Qed.

Lemma wrap_index_nonneg extent i : 0 ≤ i → wrap_index extent i = i.
Proof. unfold wrap_index. intros. destruct (Z.ltb_spec i 0); lia. Qed.

Lemma lookup_in_bounds img c :
  well_formed img → in_bounds img c → pixels img !! c = Some (pixel_at img c).
Proof.
  intros (_ & _ & Hwf) Hc. apply Hwf in Hc as [p Hp].
  unfold pixel_at. by rewrite Hp.
Qed.

Lemma pixel_get_in_bounds img x y :
  well_formed img → in_bounds img (x, y) →
  pixel_get img x y = Done (pixel_at img (x, y)).
Proof.
  intros Hwf Hc. unfold pixel_get.
  pose proof Hc as [Hx Hy]. simpl in Hx, Hy.
  rewrite !wrap_index_nonneg by lia.
  rewrite (proj2 (inside_in_bounds img x y) Hc).
  by rewrite (lookup_in_bounds img (x, y) Hwf Hc).
Qed.

Lemma pixel_set_in_bounds img x y v :
  in_bounds img (x, y) →
  pixel_set img x y v =
    Done (mkImage (width img) (height img) (<[(x, y) := v]> (pixels img))).
Proof.
  intros Hc. unfold pixel_set.
  pose proof Hc as [Hx Hy]. simpl in Hx, Hy.
  rewrite !wrap_index_nonneg by lia.
  by rewrite (proj2 (inside_in_bounds img x y) Hc).
Qed.

(** ** Corner sampling *)

Lemma filter_bind {A B : Type} (P : B → Prop) `{∀ b, Decision (P b)}
    (h : A → list B) (xs : list A) :
  filter P (xs ≫= h) = xs ≫= fun a => filter P (h a).
Proof.
  induction xs as [|a xs IH]; csimpl; [done|].
  by rewrite filter_app, IH.
Qed.

Lemma filter_fmap_comm {A B : Type} (P : B → Prop) `{∀ b, Decision (P b)}
    (g : A → B) (xs : list A) :
  filter P (g <$> xs) = g <$> filter (fun a => P (g a)) xs.
Proof.
  induction xs as [|a xs IH]; csimpl; [done|].
  rewrite !filter_cons. destruct (decide (P (g a))); csimpl; by rewrite IH.
Qed.

Lemma fmap_over_bind {A B C : Type} (g : B → C) (h : A → list B) (xs : list A) :
  g <$> (xs ≫= h) = xs ≫= fun a => g <$> h a.
Proof.
  induction xs as [|a xs IH]; csimpl; [done|].
  by rewrite fmap_app, IH.
Qed.

Lemma sample_corner_region_spec img start_x start_y size :
  well_formed img →
  sample_corner_region img start_x start_y size =
    Done (color_at img <$> clipped_window img start_x start_y size).
Proof.
  intros Hwf. unfold sample_corner_region, clipped_window, window.
  rewrite filter_bind.
  rewrite (for_each_extend
    (fun dy => color_at img <$>
       filter (in_bounds img)
          ((fun dx => (start_x + dx, start_y + dy)) <$> range size))).
  - by rewrite fmap_over_bind.
  - intros acc dy.
    rewrite (for_each_collect
      (fun dx => in_bounds img (start_x + dx, start_y + dy))
      (fun dx => color_at img (start_x + dx, start_y + dy))).
    + f_equal. f_equal. rewrite filter_fmap_comm. by rewrite <- list_fmap_compose.
    + intros acc' dx. rewrite inside_decide.
      destruct (decide (in_bounds img (start_x + dx, start_y + dy))) as [Hin|Hout].
      * rewrite bool_decide_eq_true_2 by done.
        rewrite pixel_get_in_bounds by done.
        unfold color_at. simpl.
        by destruct (pixel_at img (start_x + dx, start_y + dy)) as [[[r g] b] a].
      * by rewrite bool_decide_eq_false_2 by done.
Qed.

Lemma collect_corner_samples_spec img sample_size :
  well_formed img →
  collect_corner_samples img sample_size =
    Done (color_at img <$> sample_coords img sample_size).
Proof.
  intros Hwf. unfold collect_corner_samples, sample_coords.
  rewrite (for_each_extend
    (fun c => color_at img <$> clipped_window img c.1 c.2 sample_size)).
  - by rewrite fmap_over_bind.
  - intros acc [cx cy]. by rewrite sample_corner_region_spec.
Qed.

Lemma elem_of_range n k : k ∈ range n ↔ 0 ≤ k < n.
Proof. unfold range. rewrite elem_of_seqZ. lia. Qed.

Lemma NoDup_range n : NoDup (range n).
Proof. apply NoDup_seqZ. Qed.

Lemma elem_of_window start_x start_y size c :
  c ∈ window start_x start_y size ↔
  start_x ≤ c.1 < start_x + size ∧ start_y ≤ c.2 < start_y + size.
Proof.
  unfold window. rewrite list_elem_of_bind. destruct c as [x y]. simpl. split.
  - intros (dy & Hc & Hdy). apply list_elem_of_fmap in Hc as (dx & Hc & Hdx).
    apply elem_of_range in Hdy, Hdx. inversion Hc. lia.
  - intros [Hx Hy]. exists (y - start_y). split.
    + apply list_elem_of_fmap. exists (x - start_x). split.
      * f_equal; lia.
      * apply elem_of_range. lia.
    + apply elem_of_range. lia.
Qed.

Lemma NoDup_window start_x start_y size : NoDup (window start_x start_y size).
Proof.
  unfold window. apply NoDup_bind.
  - intros dy1 dy2 c _ _ H1 H2.
    apply list_elem_of_fmap in H1 as (dx1 & -> & _).
    apply list_elem_of_fmap in H2 as (dx2 & H2 & _).
    inversion H2. lia.
  - intros dy _. apply NoDup_fmap_2; [|apply NoDup_range].
    intros dx1 dx2 H. inversion H. lia.
  - apply NoDup_range.
Qed.

Lemma elem_of_clipped_window img start_x start_y size c :
  c ∈ clipped_window img start_x start_y size ↔
  in_bounds img c ∧
  start_x ≤ c.1 < start_x + size ∧ start_y ≤ c.2 < start_y + size.
Proof.
  unfold clipped_window. rewrite list_elem_of_filter.
  by rewrite elem_of_window.
Qed.

Lemma NoDup_clipped_window img start_x start_y size :
  NoDup (clipped_window img start_x start_y size).
Proof. apply NoDup_filter, NoDup_window. Qed.

Lemma sample_coords_app img sample_size :
  sample_coords img sample_size =
    clipped_window img 0 0 sample_size ++
    clipped_window img (width img - sample_size) 0 sample_size ++
    clipped_window img 0 (height img - sample_size) sample_size ++
    clipped_window img (width img - sample_size) (height img - sample_size)
      sample_size.
Proof. unfold sample_coords, corner_regions. csimpl. by rewrite app_nil_r. Qed.

Lemma sample_coords_in_bounds img sample_size c :
  c ∈ sample_coords img sample_size → in_bounds img c.
Proof.
  unfold sample_coords. rewrite list_elem_of_bind.
  intros (corner & Hc & _). by apply elem_of_clipped_window in Hc as [? _].
Qed.

(** With a positive sample size the top-left pixel of a non-empty picture is
    always sampled. *)
Lemma origin_sampled img sample_size :
  0 < width img → 0 < height img → 1 ≤ sample_size →
  (0, 0) ∈ sample_coords img sample_size.
Proof.
  intros Hw Hh Hs. rewrite sample_coords_app. apply elem_of_app. left.
  apply elem_of_clipped_window. unfold in_bounds. simpl. lia.
Qed.

(** ** The average *)

Lemma average_color_spec colors :
  colors ≠ [] →
  average_color colors =
    Done (sum_channel red colors / Z.of_nat (length colors),
          sum_channel green colors / Z.of_nat (length colors),
          sum_channel blue colors / Z.of_nat (length colors)).
Proof.
  intros Hne. unfold average_color, floordiv.
  destruct (Z.eqb_spec (Z.of_nat (length colors)) 0) as [E|E]; [|done].
  destruct colors; [done | simpl in E; lia].
Qed.

(** ** Connectivity on the pixel grid *)

Lemma linked_snoc p path q c :
  linked p path q → adjacent q c → linked p (path ++ [c]) c.
Proof.
  revert p. induction path as [|r path IH]; simpl; intros p.
  - intros ->. auto.
  - intros [Hadj Hl] Hc. split; auto.
Qed.

Lemma linked_last p path c :
  linked p path c → last (p :: path) = Some c.
Proof.
  revert p. induction path as [|r path IH]; intros p; simpl.
  - by intros ->.
  - intros [_ Hl]. by apply IH in Hl.
Qed.

Lemma connected_border_connected img bg_color tolerance c :
  connected img bg_color tolerance c ↔ border_connected img bg_color tolerance c.
Proof.
  split.
  - induction 1 as [c Hb Hm | p c _ (b & path & Hb & Hl & Hall) Hadj Hm].
    + exists c, []. split; [done|]. split; [done|].
      constructor; [done | constructor].
    + exists b, (path ++ [c]). split; [done|]. split.
      * by eapply linked_snoc.
      * rewrite app_comm_cons. apply Forall_app. split; [done|]. by constructor.
  - intros (b & path & Hb & Hl & Hall).
    apply Forall_cons in Hall as [Hm Hall].
    assert (Hcb : connected img bg_color tolerance b) by by constructor.
    clear Hb Hm. revert b Hcb Hl.
    induction Hall as [|q path Hq Hall IH]; simpl; intros b Hcb.
    + by intros <-.
    + intros [Hadj Hl]. apply (IH q); [|done]. by eapply connected_step.
Qed.

Lemma connected_matches img bg_color tolerance c :
  connected img bg_color tolerance c → matches img bg_color tolerance c.
Proof. by destruct 1. Qed.

(** ** The seeds *)

Lemma elem_of_edge_seeds img c :
  c ∈ edge_seeds img ↔
  (0 ≤ c.1 < width img ∧ (c.2 = 0 ∨ c.2 = height img - 1)) ∨
  (0 ≤ c.2 < height img ∧ (c.1 = 0 ∨ c.1 = width img - 1)).
Proof.
  unfold edge_seeds. rewrite elem_of_app, !list_elem_of_bind.
  destruct c as [x y]. simpl. split.
  - intros [(x' & Hc & Hx) | (y' & Hc & Hy)].
    + left. apply elem_of_range in Hx.
      rewrite !elem_of_cons, elem_of_nil in Hc.
      destruct Hc as [Hc | [Hc | []]]; inversion Hc; lia.
    + right. apply elem_of_range in Hy.
      rewrite !elem_of_cons, elem_of_nil in Hc.
      destruct Hc as [Hc | [Hc | []]]; inversion Hc; lia.
  - intros [[Hx Hy] | [Hy Hx]].
    + left. exists x. rewrite elem_of_range. split; [|done].
      rewrite !elem_of_cons. destruct Hy as [-> | ->]; auto.
    + right. exists y. rewrite elem_of_range. split; [|done].
      rewrite !elem_of_cons. destruct Hx as [-> | ->]; auto.
Qed.

Lemma edge_seeds_border img c :
  on_border img c ↔ c ∈ edge_seeds img ∧ in_bounds img c.
Proof.
  rewrite elem_of_edge_seeds. unfold on_border, in_bounds.
  destruct c as [x y]. simpl. lia.
Qed.

Lemma length_edge_seeds img :
  length (edge_seeds img) =
    (2 * Z.to_nat (width img) + 2 * Z.to_nat (height img))%nat.
Proof.
  unfold edge_seeds, range. rewrite length_app.
  assert (Hlen : ∀ (g : Z → list Coord) l,
            (∀ v, length (g v) = 2%nat) → length (l ≫= g) = (2 * length l)%nat).
  { intros g l Hg. induction l as [|v l IH]; csimpl; [done|].
    rewrite length_app, Hg, IH. lia. }
  rewrite !Hlen by done. rewrite !length_seqZ. lia.
Qed.

(** ** Reading the trace *)

Lemma visits_snoc tr e c :
  visits (tr ++ [e]) c =
    (visits tr c + if decide (passed e = Some c) then 1 else 0)%nat.
Proof.
  unfold visits. rewrite filter_app, length_app. f_equal.
  rewrite filter_cons, filter_nil. by destruct (decide (passed e = Some c)).
Qed.

(** ** Invariants of the fill loop *)

Section fill.
Context (img : Image) (bg_color : Color) (tolerance : Z).
Hypothesis Hwf : well_formed img.

Local Abbreviation matching := (matches img bg_color tolerance).
Local Abbreviation reach := (connected img bg_color tolerance).
Local Abbreviation fill_inv := (fill_inv img bg_color tolerance).

Lemma fill_inv_initial : fill_inv (initial_fill img).
Proof.
  split; simpl.
  - set_solver.
  - set_solver.
  - set_solver.
  - intros c Hc Hin. left. apply edge_seeds_border. auto.
  - intros c Hc. right. by apply edge_seeds_border in Hc as [? _].
  - set_solver.
  - intros c _. by rewrite decide_False by set_solver.
Qed.

(** An iteration that leaves the sets alone: the coordinate was visited
    before, or lies off the picture. *)
Lemma fill_inv_drop c rest V R T e :
  fill_inv (mkFill (c :: rest) V R T) →
  c ∈ V ∨ ¬ in_bounds img c →
  (∀ c', in_bounds img c' → passed e ≠ Some c') →
  fill_inv (mkFill rest V R (T ++ [e])).
Proof.
  intros [Hb Hr Hs Hq Hbd Hf Ht] Hc He. simpl in *. split; simpl; auto.
  - intros c' Hc'. apply Hq. by right.
  - intros c' Hc'. destruct (Hbd c' Hc') as [?|Hin]; [by left|].
    apply elem_of_cons in Hin as [-> | ?]; [|by right].
    destruct Hc as [? | Hout]; [by left|]. destruct Hout. apply Hc'.
  - intros p c' Hp Hadj Hin. destruct (Hf p c' Hp Hadj Hin) as [?|Hq']; [by left|].
    apply elem_of_cons in Hq' as [-> | ?]; [|by right].
    destruct Hc as [? | Hout]; [by left | done].
  - intros c' Hin. rewrite visits_snoc, Ht by done.
    rewrite (decide_False (P := passed e = Some c')) by auto. lia.
Qed.

(** An iteration that marks a fresh pixel of the picture and keeps it. *)
Lemma fill_inv_keep c rest V R T :
  fill_inv (mkFill (c :: rest) V R T) →
  c ∉ V → in_bounds img c → ¬ matching c →
  fill_inv (mkFill rest ({[ c ]} ∪ V) R (T ++ [Kept c])).
Proof.
  intros [Hb Hr Hs Hq Hbd Hf Ht] Hfresh Hin Hnm. simpl in *. split; simpl; auto.
  - intros c'. rewrite elem_of_union, elem_of_singleton. intros [-> | ?]; auto.
  - intros c'. rewrite Hr, elem_of_union, elem_of_singleton. split.
    + intros [? ?]. auto.
    + intros [[-> | ?] ?]; [done | auto].
  - intros c' Hc'. apply Hq. by right.
  - intros c' Hc'. rewrite elem_of_union, elem_of_singleton.
    destruct (Hbd c' Hc') as [?|Hq']; [auto|].
    apply elem_of_cons in Hq' as [-> | ?]; auto.
  - intros p c' Hp Hadj Hin'. rewrite elem_of_union, elem_of_singleton.
    destruct (Hf p c' Hp Hadj Hin') as [?|Hq']; [auto|].
    apply elem_of_cons in Hq' as [-> | ?]; auto.
  - intros c' Hin'. rewrite visits_snoc, Ht by done. simpl.
    destruct (decide (c' = c)) as [-> | Hne].
    + rewrite (decide_False (P := c ∈ V)) by done.
      rewrite (decide_True (P := Some c = Some c)) by done.
      by rewrite decide_True by set_solver.
    + rewrite (decide_False (P := Some c = Some c')) by congruence.
      destruct (decide (c' ∈ V)).
      * by rewrite decide_True by set_solver.
      * by rewrite decide_False by set_solver.
Qed.

(** An iteration that absorbs a fresh matching pixel and pushes its four
    neighbours. *)
Lemma fill_inv_absorb c rest V R T :
  fill_inv (mkFill (c :: rest) V R T) →
  c ∉ V → matching c →
  fill_inv (mkFill
    (rest ++ [(c.1 + 1, c.2); (c.1 - 1, c.2); (c.1, c.2 + 1); (c.1, c.2 - 1)])
    ({[ c ]} ∪ V) ({[ c ]} ∪ R) (T ++ [Absorbed c])).
Proof.
  intros [Hb Hr Hs Hq Hbd Hf Ht] Hfresh Hm. simpl in *.
  pose proof Hm as [Hin _].
  assert (Hreach : reach c).
  { destruct (Hq c) as [Hbc | (p & Hp & Hadj)]; [by left | done | |].
    - by apply connected_border.
    - eapply connected_step; eauto. }
  split; simpl.
  - intros c'. rewrite elem_of_union, elem_of_singleton. intros [-> | ?]; auto.
  - intros c'. rewrite !elem_of_union, !elem_of_singleton, Hr. split.
    + intros [-> | [? ?]]; auto.
    + intros [[-> | ?] ?]; auto.
  - intros c'. rewrite elem_of_union, elem_of_singleton. intros [-> | ?]; auto.
  - intros c' Hc' Hin'. apply elem_of_app in Hc' as [Hc' | Hc'].
    + destruct (Hq c') as [? | (p & Hp & Hadj)]; [by right | done | by left |].
      right. exists p. split; [set_solver | done].
    + right. exists c. split; [set_solver|].
      unfold adjacent. rewrite !elem_of_cons, elem_of_nil in Hc'. tauto.
  - intros c' Hc'. rewrite elem_of_union, elem_of_singleton, elem_of_app.
    destruct (Hbd c' Hc') as [?|Hq']; [auto|].
    apply elem_of_cons in Hq' as [-> | ?]; auto.
  - intros p c' Hp Hadj Hin'.
    rewrite elem_of_union, elem_of_singleton, elem_of_app.
    apply elem_of_union in Hp as [Hp | Hp].
    + apply elem_of_singleton in Hp as ->. right. right.
      rewrite !elem_of_cons. unfold adjacent in Hadj. tauto.
    + destruct (Hf p c' Hp Hadj Hin') as [?|Hq']; [auto|].
      apply elem_of_cons in Hq' as [-> | ?]; auto.
  - intros c' Hin'. rewrite visits_snoc, Ht by done. simpl.
    destruct (decide (c' = c)) as [-> | Hne].
    + rewrite (decide_False (P := c ∈ V)) by done.
      rewrite (decide_True (P := Some c = Some c)) by done.
      by rewrite decide_True by set_solver.
    + rewrite (decide_False (P := Some c = Some c')) by congruence.
      destruct (decide (c' ∈ V)).
      * by rewrite decide_True by set_solver.
      * by rewrite decide_False by set_solver.
Qed.

(** When the queue has drained, [to_remove] is the border-connected
    matching region. *)
Lemma fill_inv_final st c :
  fill_inv st → queue st = [] → c ∈ to_remove st ↔ reach c.
Proof.
  intros [Hb Hr Hs Hq Hbd Hf Ht] Hempty. split; [apply Hs|].
  rewrite Hempty in Hbd, Hf.
  induction 1 as [c Hc Hm | p c _ IH Hadj Hm].
  - apply Hr. split; [|done].
    destruct (Hbd c Hc) as [? | Hnil]; [done | by apply elem_of_nil in Hnil].
  - apply Hr. split; [|done]. destruct Hm as [Hin _].
    destruct (Hf p c IH Hadj Hin) as [? | Hnil];
      [done | by apply elem_of_nil in Hnil].
Qed.
End fill.

(** ** Termination of the fill loop *)

Lemma elem_of_all_coords w h c :
  c ∈ all_coords w h ↔ 0 ≤ c.1 < w ∧ 0 ≤ c.2 < h.
Proof.
  unfold all_coords. rewrite list_elem_of_bind. destruct c as [x y]. simpl. split.
  - intros (y' & Hc & Hy). apply list_elem_of_fmap in Hc as (x' & Hc & Hx).
    apply elem_of_range in Hx, Hy. inversion Hc. lia.
  - intros [Hx Hy]. exists y. split; [|by apply elem_of_range].
    apply list_elem_of_fmap. exists x. split; [done | by apply elem_of_range].
Qed.

Lemma NoDup_all_coords w h : NoDup (all_coords w h).
Proof.
  unfold all_coords. apply NoDup_bind.
  - intros y1 y2 c _ _ H1 H2.
    apply list_elem_of_fmap in H1 as (x1 & -> & _).
    apply list_elem_of_fmap in H2 as (x2 & H2 & _). by inversion H2.
  - intros y _. apply NoDup_fmap_2; [|apply NoDup_range].
    intros x1 x2 H. by inversion H.
  - apply NoDup_range.
Qed.

Lemma length_all_coords w h :
  0 ≤ w → 0 ≤ h → length (all_coords w h) = Z.to_nat (w * h).
Proof.
  intros Hw Hh. unfold all_coords.
  assert (Hlen : ∀ l : list Z,
    length (l ≫= fun y => (fun x => (x, y)) <$> range w) =
      (length l * Z.to_nat w)%nat).
  { induction l as [|y l IH]; csimpl; [done|].
    rewrite length_app, length_fmap, IH. unfold range. rewrite length_seqZ. lia. }
  rewrite Hlen. unfold range. rewrite length_seqZ. rewrite Z2Nat.inj_mul by lia. lia.
Qed.

(** A set of pixels of the picture has at most [width * height] elements. *)
Lemma size_on_picture (img : Image) (V : gset Coord) :
  (∀ c, c ∈ V → in_bounds img c) →
  (size V ≤ Z.to_nat (width img * height img))%nat.
Proof.
  intros HV.
  destruct (decide (0 < width img ∧ 0 < height img)) as [[Hw Hh] | Hempty].
  - rewrite <- length_all_coords by lia.
    rewrite <- (size_list_to_set (C := gset Coord)) by apply NoDup_all_coords.
    apply subseteq_size. intros c Hc. apply elem_of_list_to_set.
    apply elem_of_all_coords. by apply HV.
  - assert (V = ∅) as ->; [|by rewrite size_empty; lia].
    apply set_eq. intros c. split; [|set_solver].
    intros Hc. apply HV in Hc. unfold in_bounds in Hc. lia.
Qed.

Lemma out_of_bounds_test img x y :
  (x <? 0) || (x >=? width img) || (y <? 0) || (y >=? height img) = true ↔
  ¬ in_bounds img (x, y).
Proof. unfold in_bounds. simpl. lia. Qed.

(** One iteration from a state satisfying the invariants: it raises nothing,
    keeps the invariants, lowers the measure and logs one event. *)
Lemma fill_step_spec img bg_color tolerance c rest V R T :
  well_formed img →
  fill_inv img bg_color tolerance (mkFill (c :: rest) V R T) →
  ∃ st', fill_step img bg_color tolerance c (mkFill rest V R T) = Done st' ∧
         fill_inv img bg_color tolerance st' ∧
         (fill_measure img st' < fill_measure img (mkFill (c :: rest) V R T))%nat ∧
         length (trace st') = S (length T).
Proof.
  intros Hwf Hinv. destruct c as [x y]. unfold fill_step. simpl.
  destruct (decide ((x, y) ∈ V)) as [Hvis | Hfresh].
  { eexists. split; [done|]. split; [|split].
    - eapply fill_inv_drop; eauto; intros; done.
    - unfold fill_measure. simpl. lia.
    - simpl. rewrite length_app. simpl. lia. }
  destruct ((x <? 0) || (x >=? width img) || (y <? 0) || (y >=? height img))
    eqn:Hout.
  { apply out_of_bounds_test in Hout.
    eexists. split; [done|]. split; [|split].
    - eapply fill_inv_drop; eauto; simpl; intros c' Hin [= <-]; done.
    - unfold fill_measure. simpl. lia.
    - simpl. rewrite length_app. simpl. lia. }
  assert (Hin : in_bounds img (x, y)).
  { destruct (decide (in_bounds img (x, y))) as [?|Hn]; [done|].
    apply out_of_bounds_test in Hn. congruence. }
  assert (Hsize' : size ({[(x, y)]} ∪ V) = S (size V)).
  { rewrite size_union by set_solver. by rewrite size_singleton. }
  assert (Hsize : (S (size V) ≤ Z.to_nat (width img * height img))%nat).
  { rewrite <- Hsize'.
    apply size_on_picture. intros c'. rewrite elem_of_union, elem_of_singleton.
    intros [-> | Hc']; [done|]. by apply (inv_bounds _ _ _ _ Hinv). }
  rewrite pixel_get_in_bounds by done.
  destruct (pixel_at img (x, y)) as [[[r g] b] a] eqn:Hpx. simpl.
  assert (Hcol : color_at img (x, y) = (r, g, b)).
  { unfold color_at. by rewrite Hpx. }
  destruct (within_tolerance (r, g, b) bg_color tolerance) eqn:Hclose.
  - eexists. split; [done|]. split; [|split].
    + apply (fill_inv_absorb img bg_color tolerance) with (c := (x, y)); auto.
      split; [done|]. by rewrite Hcol.
    + unfold fill_measure. simpl. rewrite length_app, Hsize'. simpl. lia.
    + simpl. rewrite length_app. simpl. lia.
  - eexists. split; [done|]. split; [|split].
    + apply fill_inv_keep; auto. intros [_ Hm]. rewrite Hcol in Hm. congruence.
    + unfold fill_measure. simpl. rewrite Hsize'. lia.
    + simpl. rewrite length_app. simpl. lia.
Qed.

(** With fuel for the measure the loop runs to an empty queue. *)
Lemma fill_loop_spec img bg_color tolerance fuel st :
  well_formed img →
  fill_inv img bg_color tolerance st →
  (fill_measure img st ≤ fuel)%nat →
  ∃ st', fill_loop img bg_color tolerance fuel st = Done st' ∧
         fill_inv img bg_color tolerance st' ∧
         queue st' = [] ∧
         (length (trace st') ≤ length (trace st) + fill_measure img st)%nat.
Proof.
  intros Hwf. revert st. induction fuel as [|fuel IH]; intros st Hinv Hfuel.
  - destruct st as [q V R T]. destruct q as [|c rest].
    + exists (mkFill [] V R T). simpl.
      split; [done|]. split; [done|]. split; [done|]. lia.
    + unfold fill_measure in Hfuel. simpl in Hfuel. lia.
  - destruct st as [q V R T]. destruct q as [|c rest].
    + exists (mkFill [] V R T). simpl.
      split; [done|]. split; [done|]. split; [done|]. lia.
    + destruct (fill_step_spec img bg_color tolerance c rest V R T Hwf Hinv)
        as (st1 & Hstep & Hinv1 & Hlt & Hlen).
      destruct (IH st1 Hinv1) as (st' & Hloop & Hinv' & Hq & Htr); [lia|].
      exists st'. simpl. rewrite Hstep. simpl. split; [done|].
      split; [done|]. split; [done|]. simpl in *. lia.
Qed.

(** More fuel does not change a finished run. *)
Lemma fill_loop_more_fuel img bg_color tolerance fuel fuel' st st' :
  fill_loop img bg_color tolerance fuel st = Done st' →
  (fuel ≤ fuel')%nat →
  fill_loop img bg_color tolerance fuel' st = Done st'.
Proof.
  revert fuel' st. induction fuel as [|fuel IH]; intros fuel' st Hrun Hle.
  - destruct fuel'; simpl in *; destruct (queue st); done.
  - destruct fuel' as [|fuel']; [lia|]. simpl in *.
    destruct (queue st) as [|c rest]; [done|].
    destruct (fill_step img bg_color tolerance c _) as [st1| | |]; simpl in *;
      try done.
    apply IH; [done | lia].
Qed.

Lemma fill_measure_initial img :
  fill_measure img (initial_fill img) = fill_budget img.
Proof.
  unfold fill_measure, fill_budget, initial_fill. cbn [queue visited].
  rewrite size_empty. lia.
Qed.

(** The fill as a whole: it returns, with the queue drained and the
    invariants in force. *)
Lemma flood_fill_spec img bg_color tolerance :
  well_formed img →
  ∃ st, flood_fill img bg_color tolerance = Done st ∧
        fill_inv img bg_color tolerance st ∧
        queue st = [] ∧
        (length (trace st) ≤ fill_budget img)%nat.
Proof.
  intros Hwf.
  destruct (fill_loop_spec img bg_color tolerance (fill_budget img)
              (initial_fill img) Hwf
              (fill_inv_initial img bg_color tolerance Hwf))
    as (st & Hrun & Hinv & Hq & Htr).
  - by rewrite fill_measure_initial.
  - exists st. rewrite fill_measure_initial in Htr. simpl in Htr. done.
Qed.

(** ** Clearing the removed pixels *)

Lemma clear_list_spec l : ∀ img,
  (∀ c, c ∈ l → in_bounds img c) →
  ∃ out,
    for_each l (fun img '(x, y) => pixel_set img x y (0, 0, 0, 0)) img = Done out ∧
    width out = width img ∧ height out = height img ∧
    ∀ c, pixels out !! c =
           if decide (c ∈ l) then Some (0, 0, 0, 0) else pixels img !! c.
Proof.
  induction l as [|[x y] l IH]; intros img Hl.
  - exists img. simpl. split; [done|]. split; [done|]. split; [done|].
    intros c. destruct (decide (c ∈ [])) as [H|]; [by apply elem_of_nil in H | done].
  - simpl. rewrite pixel_set_in_bounds by (apply Hl; left).
    set (img1 := mkImage (width img) (height img)
                   (<[(x, y) := (0, 0, 0, 0)]> (pixels img))).
    destruct (IH img1) as (out & Hrun & Hw & Hh & Hpx).
    { intros c Hc. apply (Hl c). by right. }
    exists out. split; [done|]. split; [done|]. split; [done|].
    intros c. rewrite Hpx. simpl.
    destruct (decide (c ∈ l)) as [Hc | Hc].
    + by rewrite decide_True by by right.
    + destruct (decide (c = (x, y))) as [-> | Hne].
      * rewrite decide_True by left. apply lookup_insert_eq.
      * rewrite decide_False by (rewrite elem_of_cons; tauto).
        by apply lookup_insert_ne.
Qed.

Lemma clear_pixels_spec (img : Image) (R : gset Coord) :
  (∀ c, c ∈ R → in_bounds img c) →
  ∃ out,
    clear_pixels img R = Done out ∧
    width out = width img ∧ height out = height img ∧
    ∀ c, pixels out !! c =
           if decide (c ∈ R) then Some (0, 0, 0, 0) else pixels img !! c.
Proof.
  intros HR. destruct (clear_list_spec (elements R) img) as (out & ? & ? & ? & Hpx).
  { intros c Hc. apply HR. by apply elem_of_elements. }
  exists out. repeat split; try done. intros c. rewrite Hpx.
  destruct (decide (c ∈ R)).
  - by rewrite decide_True by by apply elem_of_elements.
  - by rewrite decide_False by by rewrite elem_of_elements.
Qed.

Lemma image_eq img1 img2 :
  width img1 = width img2 → height img1 = height img2 →
  (∀ c, pixels img1 !! c = pixels img2 !! c) → img1 = img2.
Proof.
  destruct img1, img2. simpl. intros -> -> Hpx. f_equal. by apply map_eq.
Qed.

(** ** Pictures built from a function *)

Lemma make_image_lookup w h f c :
  pixels (make_image w h f) !! c =
    if decide (0 ≤ c.1 < w ∧ 0 ≤ c.2 < h) then Some (f c.1 c.2) else None.
Proof.
  unfold make_image. simpl.
  assert (Hfst : ((fun c => (c, f c.1 c.2)) <$> all_coords w h).*1 = all_coords w h).
  { rewrite <- list_fmap_compose. apply list_fmap_id. }
  destruct (decide (0 ≤ c.1 < w ∧ 0 ≤ c.2 < h)) as [Hin | Hout].
  - apply elem_of_list_to_map.
    + rewrite Hfst. apply NoDup_all_coords.
    + apply list_elem_of_fmap. exists c. split; [done|].
      by apply elem_of_all_coords.
  - apply not_elem_of_list_to_map. rewrite Hfst.
    by rewrite elem_of_all_coords.
Qed.

Lemma make_image_well_formed w h f :
  0 ≤ w → 0 ≤ h → well_formed (make_image w h f).
Proof.
  intros Hw Hh. split; [done|]. split; [done|]. intros c.
  rewrite make_image_lookup. unfold in_bounds. simpl.
  destruct (decide (0 ≤ c.1 < w ∧ 0 ≤ c.2 < h)); split; intros H;
    try done; by destruct H.
Qed.

(** ** The run as a whole *)

Lemma sample_coords_nonempty img sample_size :
  sample_coords img sample_size ≠ [] ↔
  0 < width img ∧ 0 < height img ∧ 1 ≤ sample_size.
Proof.
  split.
  - intros Hne. destruct (sample_coords img sample_size) as [|c l] eqn:E; [done|].
    assert (Hc : c ∈ sample_coords img sample_size) by (rewrite E; left).
    unfold sample_coords in Hc. apply list_elem_of_bind in Hc as (corner & Hc & _).
    apply elem_of_clipped_window in Hc. unfold in_bounds in Hc. lia.
  - intros (Hw & Hh & Hs) E.
    pose proof (origin_sampled img sample_size Hw Hh Hs) as H0.
    rewrite E in H0. by apply elem_of_nil in H0.
Qed.

Lemma run_early img tolerance sample_size :
  well_formed img → sample_coords img sample_size = [] →
  remove_chroma_key_background img tolerance sample_size = Done img ∧
  background_estimate img sample_size = Done None ∧
  removal_set img tolerance sample_size = Done ∅.
Proof.
  intros Hwf Hnil.
  unfold remove_chroma_key_background, background_estimate, removal_set,
    fill_result.
  rewrite collect_corner_samples_spec by done. by rewrite Hnil.
Qed.

Lemma run_full img tolerance sample_size :
  well_formed img → sample_coords img sample_size ≠ [] →
  ∃ bg_color st out, run_facts img tolerance sample_size bg_color st out.
Proof.
  intros Hwf Hne.
  destruct (sample_coords img sample_size) as [|c0 l] eqn:Hcoords; [done|].
  destruct (average_color (color_at img <$> c0 :: l)) as [bg| | |] eqn:Havg;
    try (rewrite average_color_spec in Havg by done; discriminate).
  destruct (flood_fill_spec img bg tolerance Hwf) as (st & Hfill & Hinv & Hq & Htr).
  destruct (clear_pixels_spec img (to_remove st)) as (out & Hclear & Hw & Hh & Hpx).
  { intros c Hc. apply (inv_bounds _ _ _ _ Hinv).
    by apply (inv_removed _ _ _ _ Hinv) in Hc as [? _]. }
  assert (Hcollect : collect_corner_samples img sample_size =
                       Done (color_at img <$> c0 :: l)).
  { by rewrite collect_corner_samples_spec, Hcoords. }
  rewrite fmap_cons in Hcollect, Havg.
  assert (Hres : fill_result img tolerance sample_size = Done (Some st)).
  { unfold fill_result. rewrite Hcollect. run_bind.
    rewrite Havg. run_bind. by rewrite Hfill. }
  exists bg, st, out. split; try done.
  - by rewrite Hcoords.
  - unfold background_estimate. rewrite Hcollect. run_bind. by rewrite Havg.
  - unfold removal_set. by rewrite Hres.
  - unfold remove_chroma_key_background. rewrite Hcollect. run_bind.
    rewrite Havg. run_bind. by rewrite Hfill.
Qed.

(** Every run returns, and clears exactly its removal set. *)
Lemma run_summary img tolerance sample_size :
  well_formed img →
  ∃ R out,
    removal_set img tolerance sample_size = Done R ∧
    remove_chroma_key_background img tolerance sample_size = Done out ∧
    width out = width img ∧ height out = height img ∧
    (∀ c, c ∈ R → in_bounds img c) ∧
    ∀ c, pixels out !! c =
           if decide (c ∈ R) then Some (0, 0, 0, 0) else pixels img !! c.
Proof.
  intros Hwf.
  destruct (decide (sample_coords img sample_size = [])) as [Hnil | Hne].
  - destruct (run_early img tolerance sample_size Hwf Hnil) as (Hrun & _ & HR).
    exists ∅, img. do 4 (split; [done|]). split; [set_solver|].
    intros c. by rewrite decide_False by set_solver.
  - destruct (run_full img tolerance sample_size Hwf Hne) as (bg & st & out & F).
    exists (to_remove st), out. destruct F as [_ _ _ Hinv _ _ _ ? ? ? ? ?].
    do 4 (split; [done|]). split; [|done].
    intros c Hc. apply (inv_bounds _ _ _ _ Hinv).
    by apply (inv_removed _ _ _ _ Hinv) in Hc as [? _].
Qed.

(** ** The tolerance test is the Euclidean one *)

Lemma color_distance_sq_nonneg c1 c2 : 0 ≤ color_distance_sq c1 c2.
Proof.
  destruct c1 as [[r1 g1] b1], c2 as [[r2 g2] b2]. unfold color_distance_sq.
  rewrite !Z.pow_2_r.
  pose proof (Z.square_nonneg (r1 - r2)).
  pose proof (Z.square_nonneg (g1 - g2)).
  pose proof (Z.square_nonneg (b1 - b2)). lia.
Qed.

Lemma color_distance_sq_self c : color_distance_sq c c = 0.
Proof.
  destruct c as [[r g] b]. unfold color_distance_sq.
  rewrite !Z.sub_diag. reflexivity.
Qed.

(** The integer test of the embedding decides the comparison of the real
    Euclidean distance with the tolerance. *)
Lemma within_tolerance_euclidean c1 c2 tolerance :
  within_tolerance c1 c2 tolerance = true ↔
  (color_distance c1 c2 <= IZR tolerance)%R.
Proof.
  unfold within_tolerance, color_distance.
  pose proof (color_distance_sq_nonneg c1 c2) as Hd.
  set (d := color_distance_sq c1 c2) in *.
  rewrite andb_true_iff, !Z.leb_le. split.
  - intros [Ht Hle]. rewrite <- (sqrt_square (IZR tolerance)) by by apply IZR_le.
    apply sqrt_le_1_alt. rewrite <- mult_IZR. by apply IZR_le.
  - intros Hle.
    assert (Hs : (0 <= sqrt (IZR d))%R) by apply sqrt_pos.
    assert (Ht : (0 <= IZR tolerance)%R) by lra.
    split; [by apply le_IZR|].
    apply le_IZR. rewrite mult_IZR.
    rewrite <- (sqrt_sqrt (IZR d)) by by apply IZR_le.
    by apply Rmult_le_compat.
Qed.

Lemma within_tolerance_self c tolerance :
  0 ≤ tolerance → within_tolerance c c tolerance = true.
Proof.
  intros Ht. unfold within_tolerance. rewrite color_distance_sq_self.
  apply andb_true_iff. rewrite !Z.leb_le. nia.
Qed.

(** ** C6: the corner windows are clipped to the picture *)

Lemma background_estimate_returns img sample_size :
  well_formed img → ∃ r, background_estimate img sample_size = Done r.
Proof.
  intros Hwf.
  destruct (decide (sample_coords img sample_size = [])) as [Hnil | Hne].
  - exists None. by apply (run_early img 0 sample_size).
  - destruct (run_full img 0 sample_size Hwf Hne) as (bg & st & out & F).
    exists (Some bg). apply F.
Qed.

(** C6. For every picture and every sample size, also one larger than the
    width or the height, each corner block is cut down to the pixels it
    shares with the picture. [sample_corner_region] raises nothing and
    returns the colours stored at exactly the coordinates that lie both in
    the block and on the picture, each once (nothing wraps around to the far
    edge, nothing is padded), so every collected sample is the colour of an
    in-bounds pixel, and the average computed from them is produced without
    an exception. *)
Theorem corner_windows_clipped img sample_size :
  well_formed img →
  (∀ start_x start_y,
     sample_corner_region img start_x start_y sample_size =
       Done (color_at img <$> clipped_window img start_x start_y sample_size) ∧
     NoDup (clipped_window img start_x start_y sample_size) ∧
     ∀ c, c ∈ clipped_window img start_x start_y sample_size ↔
          in_bounds img c ∧ in_window sample_size c (start_x, start_y)) ∧
  collect_corner_samples img sample_size =
    Done (color_at img <$> sample_coords img sample_size) ∧
  sample_coords img sample_size =
    clipped_window img 0 0 sample_size ++
    clipped_window img (width img - sample_size) 0 sample_size ++
    clipped_window img 0 (height img - sample_size) sample_size ++
    clipped_window img (width img - sample_size) (height img - sample_size)
      sample_size ∧
  (∀ c, c ∈ sample_coords img sample_size →
        in_bounds img c ∧ pixels img !! c = Some (pixel_at img c)) ∧
  ∃ r, background_estimate img sample_size = Done r.
Proof.
  intros Hwf. split; [|split; [|split; [|split]]].
  - intros start_x start_y. split; [by apply sample_corner_region_spec|].
    split; [apply NoDup_clipped_window|].
    intros c. apply elem_of_clipped_window.
  - by apply collect_corner_samples_spec.
  - apply sample_coords_app.
  - intros c Hc. apply sample_coords_in_bounds in Hc.
    split; [done | by apply lookup_in_bounds].
  - by apply background_estimate_returns.
Qed.

(** A three-pixel row sampled with 5 x 5 corner blocks. *)
Lemma corner_windows_clipped_witness :
  well_formed (strip (0, 0, 0, 255) (90, 90, 90, 255) (0, 0, 0, 255)) ∧
  collect_corner_samples
    (strip (0, 0, 0, 255) (90, 90, 90, 255) (0, 0, 0, 255)) 5 =
  Done (color_at (strip (0, 0, 0, 255) (90, 90, 90, 255) (0, 0, 0, 255)) <$>
        sample_coords (strip (0, 0, 0, 255) (90, 90, 90, 255) (0, 0, 0, 255)) 5).
Proof.
  assert (Hwf : well_formed (strip (0, 0, 0, 255) (90, 90, 90, 255) (0, 0, 0, 255))).
  { by apply make_image_well_formed. }
  split; [exact Hwf|].
  exact (proj1 (proj2 (corner_windows_clipped _ 5 Hwf))).
Defined.

(** ** C9: samples are counted with multiplicity *)

Lemma occurrences_app c l1 l2 :
  occurrences c (l1 ++ l2) = (occurrences c l1 + occurrences c l2)%nat.
Proof. unfold occurrences. by rewrite filter_app, length_app. Qed.

Lemma occurrences_cons c x l :
  occurrences c (x :: l) =
    ((if decide (x = c) then 1 else 0) + occurrences c l)%nat.
Proof.
  unfold occurrences. rewrite filter_cons. by destruct (decide (x = c)).
Qed.

Lemma occurrences_absent c l : c ∉ l → occurrences c l = 0%nat.
Proof.
  induction l as [|x l IH]; intros Hc; [done|].
  rewrite occurrences_cons, IH by (intros ?; apply Hc; by right).
  rewrite decide_False; [done|]. intros ->. apply Hc. by left.
Qed.

Lemma occurrences_NoDup c l :
  NoDup l → occurrences c l = if decide (c ∈ l) then 1%nat else 0%nat.
Proof.
  induction 1 as [|x l Hx Hnd IH].
  - by rewrite decide_False by apply not_elem_of_nil.
  - rewrite occurrences_cons. destruct (decide (x = c)) as [-> | Hne].
    + rewrite occurrences_absent by done. by rewrite decide_True by left.
    + rewrite IH. destruct (decide (c ∈ l)).
      * by rewrite decide_True by by right.
      * rewrite decide_False; [done|]. rewrite elem_of_cons. naive_solver.
Qed.

Lemma occurrences_clipped_window img start_x start_y size c :
  in_bounds img c →
  occurrences c (clipped_window img start_x start_y size) =
    if decide (in_window size c (start_x, start_y)) then 1%nat else 0%nat.
Proof.
  intros Hin. rewrite occurrences_NoDup by apply NoDup_clipped_window.
  destruct (decide (in_window size c (start_x, start_y))) as [Hw | Hw].
  - rewrite decide_True; [done|]. by apply elem_of_clipped_window.
  - rewrite decide_False; [done|]. rewrite elem_of_clipped_window.
    unfold in_window in Hw. simpl in Hw. tauto.
Qed.

Lemma occurrences_sample_coords img sample_size c :
  in_bounds img c →
  occurrences c (sample_coords img sample_size) =
    windows_containing img sample_size c.
Proof.
  intros Hin. rewrite sample_coords_app, !occurrences_app.
  rewrite !occurrences_clipped_window by done.
  unfold windows_containing, corner_regions.
  rewrite !filter_cons, filter_nil.
  repeat case_decide; unfold in_window in *; simpl in *; lia.
Qed.

Lemma sum_over_ext f g l :
  (∀ c, c ∈ l → f c = g c) → sum_over f l = sum_over g l.
Proof.
  induction l as [|x l IH]; intros Hfg; simpl; [done|].
  rewrite Hfg by left. rewrite IH; [done|]. intros c Hc. apply Hfg. by right.
Qed.

Lemma sum_over_plus f g l :
  sum_over (fun c => f c + g c) l = sum_over f l + sum_over g l.
Proof. induction l as [|x l IH]; simpl; [done|]. rewrite IH. lia. Qed.

Lemma sum_over_zero l : sum_over (fun _ => 0) l = 0.
Proof. induction l as [|x l IH]; simpl; [done|]. by rewrite IH. Qed.

Lemma sum_over_single g x dom :
  NoDup dom → x ∈ dom →
  sum_over (fun c => if decide (x = c) then g c else 0) dom = g x.
Proof.
  induction 1 as [|y dom Hy Hnd IH]; intros Hx; [by apply elem_of_nil in Hx|].
  simpl. apply elem_of_cons in Hx as [-> | Hx].
  - rewrite decide_True by done.
    rewrite (sum_over_ext _ (fun _ => 0)), sum_over_zero; [lia|].
    intros c Hc. rewrite decide_False; [done|]. by intros ->.
  - rewrite decide_False by (by intros ->). rewrite IH by done. lia.
Qed.

(** Summing over a list of coordinates is summing over the grid with each
    coordinate weighted by its number of occurrences. *)
Lemma sum_over_occurrences g l dom :
  NoDup dom → (∀ c, c ∈ l → c ∈ dom) →
  sum_over g l = sum_over (fun c => Z.of_nat (occurrences c l) * g c) dom.
Proof.
  intros Hnd. induction l as [|x l IH]; intros Hl.
  - simpl. rewrite (sum_over_ext _ (fun _ => 0)), sum_over_zero; [done|].
    intros c _. by rewrite occurrences_absent by apply not_elem_of_nil.
  - simpl. rewrite IH by (intros c Hc; apply Hl; by right).
    rewrite <- (sum_over_single g x dom Hnd) by (apply Hl; left).
    rewrite <- sum_over_plus. apply sum_over_ext. intros c _.
    rewrite occurrences_cons. destruct (decide (x = c)); lia.
Qed.

Lemma sum_channel_colors proj img l :
  sum_channel proj (color_at img <$> l) =
    sum_over (fun c => proj (color_at img c)) l.
Proof. induction l as [|x l IH]; csimpl; [done|]. unfold sum_channel in IH. by rewrite <- IH. Qed.

Lemma length_as_sum (l : list Coord) :
  Z.of_nat (length l) = sum_over (fun _ => 1) l.
Proof. induction l as [|x l IH]; simpl length; simpl sum_over; [done|]. lia. Qed.

Lemma sum_over_samples img sample_size g :
  0 ≤ width img → 0 ≤ height img →
  sum_over g (sample_coords img sample_size) = weighted_sum img sample_size g.
Proof.
  intros Hw Hh. unfold weighted_sum.
  rewrite (sum_over_occurrences g _ (all_coords (width img) (height img))).
  - apply sum_over_ext. intros c Hc.
    rewrite occurrences_sample_coords; [done|]. by apply elem_of_all_coords.
  - apply NoDup_all_coords.
  - intros c Hc. apply elem_of_all_coords. by apply sample_coords_in_bounds in Hc.
Qed.

Lemma overlapping_windows img sample_size :
  0 < width img → 0 < height img → 1 ≤ sample_size →
  width img < 2 * sample_size ∨ height img < 2 * sample_size →
  ∃ c, in_bounds img c ∧ (2 ≤ windows_containing img sample_size c)%nat.
Proof.
  intros Hw Hh Hs [Hnarrow | Hlow].
  - exists (Z.max 0 (width img - sample_size), 0). split.
    + unfold in_bounds. simpl. lia.
    + unfold windows_containing, corner_regions.
      rewrite !filter_cons, filter_nil.
      rewrite (decide_True (P := in_window _ _ (0, 0)))
        by (unfold in_window; simpl; lia).
      rewrite (decide_True (P := in_window _ _ (width img - sample_size, 0)))
        by (unfold in_window; simpl; lia).
      repeat case_decide; simpl; lia.
  - exists (0, Z.max 0 (height img - sample_size)). split.
    + unfold in_bounds. simpl. lia.
    + unfold windows_containing, corner_regions.
      rewrite !filter_cons, filter_nil.
      rewrite (decide_True (P := in_window _ _ (0, 0)))
        by (unfold in_window; simpl; lia).
      rewrite (decide_True (P := in_window _ _ (0, height img - sample_size)))
        by (unfold in_window; simpl; lia).
      repeat case_decide; simpl; lia.
Qed.

(** C9. The corner samples form a list, not a set: the collected colours are
    the colours at [sample_coords], in which a pixel of the picture occurs
    once for every corner block that covers it. Each channel sum and the
    sample count are therefore sums over the pixels weighted by that number,
    the background estimate is the quotient of these weighted sums, and as
    soon as the picture is narrower or lower than two sample sizes some
    pixel is covered, and counted, at least twice. *)
Theorem samples_with_multiplicity img sample_size :
  well_formed img →
  collect_corner_samples img sample_size =
    Done (color_at img <$> sample_coords img sample_size) ∧
  (∀ c, in_bounds img c →
     occurrences c (sample_coords img sample_size) =
       windows_containing img sample_size c) ∧
  (∀ proj,
     sum_channel proj (color_at img <$> sample_coords img sample_size) =
       weighted_sum img sample_size (fun c => proj (color_at img c))) ∧
  Z.of_nat (length (color_at img <$> sample_coords img sample_size)) =
    weighted_sum img sample_size (fun _ => 1) ∧
  (sample_coords img sample_size ≠ [] →
   background_estimate img sample_size =
     Done (Some
       (weighted_sum img sample_size (fun c => red (color_at img c)) /
          weighted_sum img sample_size (fun _ => 1),
        weighted_sum img sample_size (fun c => green (color_at img c)) /
          weighted_sum img sample_size (fun _ => 1),
        weighted_sum img sample_size (fun c => blue (color_at img c)) /
          weighted_sum img sample_size (fun _ => 1)))) ∧
  (0 < width img → 0 < height img → 1 ≤ sample_size →
   width img < 2 * sample_size ∨ height img < 2 * sample_size →
   ∃ c, in_bounds img c ∧ (2 ≤ windows_containing img sample_size c)%nat).
Proof.
  intros Hwf. pose proof Hwf as (Hw & Hh & _).
  assert (Hsum : ∀ proj,
    sum_channel proj (color_at img <$> sample_coords img sample_size) =
      weighted_sum img sample_size (fun c => proj (color_at img c))).
  { intros proj. rewrite sum_channel_colors. by apply sum_over_samples. }
  assert (Hlen :
    Z.of_nat (length (color_at img <$> sample_coords img sample_size)) =
      weighted_sum img sample_size (fun _ => 1)).
  { rewrite length_fmap, length_as_sum. by apply sum_over_samples. }
  split; [by apply collect_corner_samples_spec|].
  split; [intros c Hc; by apply occurrences_sample_coords|].
  split; [done|]. split; [done|]. split; [|apply overlapping_windows].
  intros Hne.
  destruct (run_full img 0 sample_size Hwf Hne) as (bg & st & out & F).
  rewrite (run_estimate _ _ _ _ _ _ F). do 2 f_equal.
  pose proof (run_average _ _ _ _ _ _ F) as Havg.
  rewrite average_color_spec in Havg.
  - rewrite !Hsum, Hlen in Havg. by inversion Havg.
  - intros Hnil. apply fmap_nil_inv in Hnil. done.
Qed.

(** A row of three pixels sampled with 2 x 2 blocks: the middle pixel lies
    in all four blocks, the outer ones in two each, and the estimate is
    (2*0 + 4*90 + 2*0) / 8 = 45, not the plain mean 30 of the three pixels. *)
Lemma samples_with_multiplicity_witness :
  well_formed (strip (0, 0, 0, 255) (90, 90, 90, 255) (0, 0, 0, 255)) ∧
  occurrences (1, 0)
    (sample_coords (strip (0, 0, 0, 255) (90, 90, 90, 255) (0, 0, 0, 255)) 2) =
  windows_containing (strip (0, 0, 0, 255) (90, 90, 90, 255) (0, 0, 0, 255)) 2
    (1, 0) ∧
  windows_containing (strip (0, 0, 0, 255) (90, 90, 90, 255) (0, 0, 0, 255)) 2
    (1, 0) = 4%nat ∧
  background_estimate (strip (0, 0, 0, 255) (90, 90, 90, 255) (0, 0, 0, 255)) 2 =
    Done (Some (45, 45, 45)).
Proof.
  assert (Hwf : well_formed (strip (0, 0, 0, 255) (90, 90, 90, 255) (0, 0, 0, 255))).
  { by apply make_image_well_formed. }
  split; [exact Hwf|]. split.
  - apply (proj1 (proj2 (samples_with_multiplicity _ 2 Hwf))).
    unfold in_bounds. simpl. lia.
  - split; vm_compute; reflexivity.
Defined.

(** ** C4: the background estimate is the floor of the channel means *)

Lemma only_element (a : Coord) l :
  NoDup l → (∀ c, c ∈ l ↔ c = a) → l = [a].
Proof.
  intros Hnd Hl. destruct l as [|x l].
  - exfalso. eapply not_elem_of_nil. by apply (Hl a).
  - assert (x = a) as -> by (apply Hl; left).
    destruct l as [|y l]; [done|]. exfalso.
    assert (y = a) as -> by (apply Hl; right; left).
    apply NoDup_cons in Hnd as [Hx _]. apply Hx. left.
Qed.

Lemma sample_coords_single_pixel img sample_size :
  width img = 1 → height img = 1 → 1 ≤ sample_size →
  sample_coords img sample_size = [(0, 0); (0, 0); (0, 0); (0, 0)].
Proof.
  intros Hw Hh Hs. rewrite sample_coords_app.
  assert (Hone : ∀ start_x start_y,
    start_x ≤ 0 < start_x + sample_size → start_y ≤ 0 < start_y + sample_size →
    clipped_window img start_x start_y sample_size = [(0, 0)]).
  { intros start_x start_y Hx Hy. apply only_element.
    - apply NoDup_clipped_window.
    - intros [x y]. rewrite elem_of_clipped_window. unfold in_bounds. simpl.
      split.
      + intros ([? ?] & _). f_equal; lia.
      + intros [= -> ->]. lia. }
  rewrite !Hone by lia. done.
Qed.

Lemma floor_quotient s n :
  0 < n → n * (s / n) ≤ s < n * (s / n + 1).
Proof.
  intros Hn. split; [by apply Z.mul_div_le|].
  by apply Z.mul_succ_div_gt.
Qed.

Lemma average_of_four c : average_color [c; c; c; c] = Done c.
Proof.
  rewrite average_color_spec by done. destruct c as [[r g] b].
  unfold sum_channel, red, green, blue. simpl.
  do 3 f_equal; [f_equal|..]; symmetry; apply Z.div_unique_exact; lia.
Qed.

(** C4. Whenever there is at least one corner sample, each channel of the
    background estimate is the floor of the sum of that channel over all
    collected samples divided by their number. For a 1 x 1 picture the
    estimate is the colour of its only pixel, which with tolerance 0 is
    within the tolerance of the estimate and is cleared. *)
Theorem background_is_floor_mean img sample_size colors :
  well_formed img →
  collect_corner_samples img sample_size = Done colors →
  colors ≠ [] →
  ∃ bg,
    background_estimate img sample_size = Done (Some bg) ∧
    bg = (sum_channel red colors / Z.of_nat (length colors),
          sum_channel green colors / Z.of_nat (length colors),
          sum_channel blue colors / Z.of_nat (length colors)) ∧
    (Z.of_nat (length colors) * red bg ≤ sum_channel red colors
       < Z.of_nat (length colors) * (red bg + 1)) ∧
    (Z.of_nat (length colors) * green bg ≤ sum_channel green colors
       < Z.of_nat (length colors) * (green bg + 1)) ∧
    (Z.of_nat (length colors) * blue bg ≤ sum_channel blue colors
       < Z.of_nat (length colors) * (blue bg + 1)) ∧
    (width img = 1 → height img = 1 →
     bg = color_at img (0, 0) ∧
     within_tolerance (color_at img (0, 0)) bg 0 = true ∧
     removal_set img 0 sample_size = Done {[ (0, 0) ]} ∧
     ∃ out, remove_chroma_key_background img 0 sample_size = Done out ∧
            pixels out !! (0, 0) = Some (0, 0, 0, 0)).
Proof.
  intros Hwf Hcollect Hne.
  rewrite collect_corner_samples_spec in Hcollect by done.
  injection Hcollect as Hcolors.
  assert (Hcoords : sample_coords img sample_size ≠ []).
  { intros Hnil. rewrite Hnil in Hcolors. by subst colors. }
  destruct (run_full img 0 sample_size Hwf Hcoords) as (bg & st & out & F).
  pose proof (run_average _ _ _ _ _ _ F) as Havg. rewrite Hcolors in Havg.
  assert (Hn : 0 < Z.of_nat (length colors)).
  { destruct colors; [done | simpl; lia]. }
  exists bg. split; [apply F|].
  pose proof Havg as Havg'. rewrite average_color_spec in Havg' by done.
  injection Havg' as Hbg. symmetry in Hbg. split; [done|].
  split; [|split; [|split]].
  - rewrite Hbg. by apply floor_quotient.
  - rewrite Hbg. by apply floor_quotient.
  - rewrite Hbg. by apply floor_quotient.
  - intros Hw Hh.
    assert (Hs : 1 ≤ sample_size) by (apply sample_coords_nonempty in Hcoords; lia).
    assert (Hbg0 : bg = color_at img (0, 0)).
    { rewrite <- Hcolors, sample_coords_single_pixel in Havg by done.
      csimpl in Havg. rewrite average_of_four in Havg. by injection Havg. }
    assert (Hin : in_bounds img (0, 0)) by (unfold in_bounds; simpl; lia).
    assert (Hclose : within_tolerance (color_at img (0, 0)) bg 0 = true).
    { rewrite Hbg0. by apply within_tolerance_self. }
    assert (Hrem : (0, 0) ∈ to_remove st).
    { apply (fill_inv_final img bg 0 st); [apply F | apply F |].
      apply connected_border; [|done].
      split; [done|]. simpl. lia. }
    split; [done|]. split; [done|]. split.
    + rewrite (run_removal _ _ _ _ _ _ F). f_equal. apply set_eq. intros c.
      rewrite elem_of_singleton. split; [|by intros ->].
      intros Hc. apply (inv_removed _ _ _ _ (run_inv _ _ _ _ _ _ F)) in Hc as [Hc _].
      apply (inv_bounds _ _ _ _ (run_inv _ _ _ _ _ _ F)) in Hc.
      unfold in_bounds in Hc. destruct c as [x y]. simpl in Hc. f_equal; lia.
    + exists out. split; [apply F|].
      rewrite (run_pixels _ _ _ _ _ _ F). by rewrite decide_True.
Qed.

(** A single pixel sampled with the default block size of 10. *)
Lemma background_is_floor_mean_witness :
  well_formed (single_pixel (12, 200, 7, 255)) ∧
  collect_corner_samples (single_pixel (12, 200, 7, 255)) 10 =
    Done [(12, 200, 7); (12, 200, 7); (12, 200, 7); (12, 200, 7)] ∧
  ∃ bg, background_estimate (single_pixel (12, 200, 7, 255)) 10 = Done (Some bg) ∧
        bg = (12, 200, 7).
Proof.
  assert (Hwf : well_formed (single_pixel (12, 200, 7, 255))).
  { by apply make_image_well_formed. }
  split; [exact Hwf|]. split; [vm_compute; reflexivity|].
  destruct (background_is_floor_mean (single_pixel (12, 200, 7, 255)) 10
              [(12, 200, 7); (12, 200, 7); (12, 200, 7); (12, 200, 7)] Hwf)
    as (bg & Hest & Hbg & _); [vm_compute; reflexivity | discriminate |].
  exists bg. split; [exact Hest|]. rewrite Hbg. vm_compute. reflexivity.
Defined.

(** ** C7: no exception, and the early return hands the input back *)

Lemma well_formed_result img tolerance sample_size out :
  well_formed img →
  remove_chroma_key_background img tolerance sample_size = Done out →
  well_formed out.
Proof.
  intros Hwf Hrun.
  destruct (run_summary img tolerance sample_size Hwf)
    as (R & out' & _ & Hrun' & Hw & Hh & HR & Hpx).
  rewrite Hrun in Hrun'. injection Hrun' as <-.
  destruct Hwf as (H0w & H0h & Hdom).
  split; [lia|]. split; [lia|]. intros c. rewrite Hpx.
  unfold in_bounds. rewrite Hw, Hh.
  destruct (decide (c ∈ R)) as [Hc | Hc]; [|apply Hdom].
  split; [intros _; by apply HR | by eauto].
Qed.

(** C7. On a well-formed picture [remove_chroma_key_background] raises
    nothing and returns a picture. When no corner sample is collected, which
    is the case for a picture of zero width or zero height, the result is
    the input itself. *)
Theorem no_error_and_early_return img tolerance sample_size :
  well_formed img →
  (∃ out, remove_chroma_key_background img tolerance sample_size = Done out) ∧
  (collect_corner_samples img sample_size = Done [] →
   remove_chroma_key_background img tolerance sample_size = Done img) ∧
  (width img = 0 ∨ height img = 0 →
   collect_corner_samples img sample_size = Done [] ∧
   remove_chroma_key_background img tolerance sample_size = Done img).
Proof.
  intros Hwf. split; [|split].
  - destruct (run_summary img tolerance sample_size Hwf) as (R & out & _ & Hrun & _).
    by exists out.
  - intros Hcollect. rewrite collect_corner_samples_spec in Hcollect by done.
    injection Hcollect as Hnil. apply fmap_nil_inv in Hnil.
    by apply run_early.
  - intros Hzero.
    assert (Hnil : sample_coords img sample_size = []).
    { destruct (decide (sample_coords img sample_size = [])) as [?|Hne]; [done|].
      apply sample_coords_nonempty in Hne. lia. }
    split; [|by apply run_early].
    rewrite collect_corner_samples_spec by done. by rewrite Hnil.
Qed.

(** A picture three pixels wide and zero pixels high. *)
Lemma no_error_and_early_return_witness :
  well_formed (make_image 3 0 (fun _ _ => (1, 2, 3, 255))) ∧
  remove_chroma_key_background
    (make_image 3 0 (fun _ _ => (1, 2, 3, 255))) 70 10 =
  Done (make_image 3 0 (fun _ _ => (1, 2, 3, 255))).
Proof.
  assert (Hwf : well_formed (make_image 3 0 (fun _ _ => (1, 2, 3, 255)))).
  { by apply make_image_well_formed. }
  split; [exact Hwf|].
  apply (no_error_and_early_return _ 70 10 Hwf). right. reflexivity.
Defined.

(** ** C2: what the transform changes *)

(** C2. After the transform every pixel of the removal set holds
    (0, 0, 0, 0), every other pixel holds the four channel values it had
    before, and the picture has the width and the height of the input. *)
Theorem cleared_and_preserved img tolerance sample_size :
  well_formed img →
  ∃ R out,
    removal_set img tolerance sample_size = Done R ∧
    remove_chroma_key_background img tolerance sample_size = Done out ∧
    (∀ c, c ∈ R → pixels out !! c = Some (0, 0, 0, 0)) ∧
    (∀ c, c ∉ R → pixels out !! c = pixels img !! c) ∧
    width out = width img ∧ height out = height img ∧
    well_formed out.
Proof.
  intros Hwf.
  destruct (run_summary img tolerance sample_size Hwf)
    as (R & out & HR & Hrun & Hw & Hh & _ & Hpx).
  exists R, out. split; [done|]. split; [done|].
  split; [|split; [|split; [|split]]]; try done.
  - intros c Hc. rewrite Hpx. by rewrite decide_True.
  - intros c Hc. rewrite Hpx. by rewrite decide_False.
  - by eapply well_formed_result.
Qed.

(** The grey square with tolerance 10: only the top-left pixel is cleared. *)
Lemma cleared_and_preserved_witness :
  well_formed grey_square ∧
  ∃ R out,
    removal_set grey_square 10 1 = Done R ∧
    remove_chroma_key_background grey_square 10 1 = Done out ∧
    (∀ c, c ∈ R → pixels out !! c = Some (0, 0, 0, 0)) ∧
    (∀ c, c ∉ R → pixels out !! c = pixels grey_square !! c) ∧
    width out = width grey_square ∧ height out = height grey_square ∧
    well_formed out.
Proof.
  assert (Hwf : well_formed grey_square).
  { by apply make_image_well_formed. }
  split; [exact Hwf|]. exact (cleared_and_preserved grey_square 10 1 Hwf).
Defined.

(** ** C1: the removal set is the border-connected matching region *)

Lemma adjacent_sym p q : adjacent p q → adjacent q p.
Proof.
  destruct p as [px py], q as [qx qy]. unfold adjacent. simpl.
  intros [H | [H | [H | H]]]; injection H as -> ->.
  - right. left. f_equal; lia.
  - left. f_equal; lia.
  - right. right. right. f_equal; lia.
  - right. right. left. f_equal; lia.
Qed.

Lemma matches_euclidean img bg_color tolerance c :
  matches img bg_color tolerance c ↔
  in_bounds img c ∧ (color_distance (color_at img c) bg_color <= IZR tolerance)%R.
Proof. unfold matches. by rewrite within_tolerance_euclidean. Qed.

(** A region that avoids the border and whose surroundings do not match is
    never entered by the fill. *)
Lemma enclosed_not_connected img bg_color tolerance (region : Coord → Prop) :
  (∀ c, region c → ¬ on_border img c) →
  (∀ p q, region p → adjacent p q → in_bounds img q →
          region q ∨ ¬ matches img bg_color tolerance q) →
  ∀ c, connected img bg_color tolerance c → ¬ region c.
Proof.
  intros Hborder Hwall c. induction 1 as [c Hb _ | p c Hp IH Hadj Hm].
  - intros Hc. by apply (Hborder c).
  - intros Hc. apply connected_matches in Hp as Hmp.
    destruct (Hwall c p Hc (adjacent_sym _ _ Hadj)) as [Hrp | Hnm].
    + by destruct Hmp.
    + by apply IH.
    + by apply Hnm.
Qed.

(** C1. For every non-empty picture and every sample size of at least 1
    (and every tolerance, non-negative or not), the pixels cleared by
    [remove_chroma_key_background] are exactly those reached from a border
    pixel by a chain of right/left/down/up steps through pixels whose
    Euclidean RGB distance to the background estimate is at most the
    tolerance. In particular a region that does not touch the border and is
    walled in by pixels that do not match is left as it was, whatever its
    own colours and whatever the tolerance. *)
Theorem removal_is_border_connected img tolerance sample_size :
  well_formed img → 0 < width img → 0 < height img → 1 ≤ sample_size →
  ∃ bg R out,
    background_estimate img sample_size = Done (Some bg) ∧
    removal_set img tolerance sample_size = Done R ∧
    remove_chroma_key_background img tolerance sample_size = Done out ∧
    (∀ c, matches img bg tolerance c ↔
          in_bounds img c ∧
          (color_distance (color_at img c) bg <= IZR tolerance)%R) ∧
    (∀ c, c ∈ R ↔ border_connected img bg tolerance c) ∧
    (∀ c, border_connected img bg tolerance c →
          pixels out !! c = Some (0, 0, 0, 0)) ∧
    (∀ c, ¬ border_connected img bg tolerance c →
          pixels out !! c = pixels img !! c) ∧
    (∀ region : Coord → Prop,
       (∀ c, region c → ¬ on_border img c) →
       (∀ p q, region p → adjacent p q → in_bounds img q →
               region q ∨ ¬ matches img bg tolerance q) →
       ∀ c, region c → (c ∉ R) ∧ pixels out !! c = pixels img !! c).
Proof.
  intros Hwf Hw Hh Hs.
  assert (Hne : sample_coords img sample_size ≠ [])
    by by apply sample_coords_nonempty.
  destruct (run_full img tolerance sample_size Hwf Hne) as (bg & st & out & F).
  assert (HR : ∀ c, c ∈ to_remove st ↔ border_connected img bg tolerance c).
  { intros c. rewrite <- connected_border_connected.
    apply fill_inv_final; apply F. }
  exists bg, (to_remove st), out.
  split; [apply F|]. split; [apply F|]. split; [apply F|].
  split; [intros c; apply matches_euclidean|]. split; [done|].
  split; [|split].
  - intros c Hc. rewrite (run_pixels _ _ _ _ _ _ F).
    by rewrite decide_True by by apply HR.
  - intros c Hc. rewrite (run_pixels _ _ _ _ _ _ F).
    by rewrite decide_False by by rewrite HR.
  - intros region Hborder Hwall c Hc.
    assert (Hout : c ∉ to_remove st).
    { rewrite HR, <- connected_border_connected. intros Hconn.
      by apply (enclosed_not_connected img bg tolerance region Hborder Hwall c). }
    split; [done|]. rewrite (run_pixels _ _ _ _ _ _ F). by rewrite decide_False.
Qed.

(** The framed picture with a dark centre, tolerance 10 and 1 x 1 samples. *)
Lemma removal_is_border_connected_witness :
  well_formed dark_frame ∧
  0 < width dark_frame ∧
  0 < height dark_frame ∧
  1 ≤ 1 ∧
  ∃ bg R out,
    background_estimate dark_frame 1 =
      Done (Some bg) ∧
    removal_set dark_frame 10 1 = Done R ∧
    remove_chroma_key_background dark_frame 10 1 =
      Done out ∧
    (∀ c, c ∈ R ↔
          border_connected dark_frame bg 10 c).
Proof.
  assert (Hwf : well_formed dark_frame).
  { by apply make_image_well_formed. }
  split; [exact Hwf|]. split; [simpl; lia|]. split; [simpl; lia|].
  split; [lia|].
  destruct (removal_is_border_connected
              dark_frame 10 1 Hwf)
    as (bg & R & out & H1 & H2 & H3 & _ & H4 & _); [simpl; lia.. |].
  exists bg, R, out. auto.
Defined.

(** ** Coordinates off the picture *)

Lemma occurrences_neighbours c p :
  occurrences c (neighbours p) = if decide (adjacent p c) then 1%nat else 0%nat.
Proof.
  destruct p as [px py], c as [cx cy].
  unfold occurrences, neighbours, adjacent. simpl.
  rewrite !filter_cons, filter_nil.
  repeat case_decide; simplify_eq; simpl; try done; try lia; naive_solver lia.
Qed.

Lemma occurrences_neighbours_sym c p :
  occurrences c (neighbours p) = occurrences p (neighbours c).
Proof.
  rewrite !occurrences_neighbours.
  destruct (decide (adjacent p c)) as [H | H].
  - by rewrite decide_True by by apply adjacent_sym.
  - rewrite decide_False; [done|]. intros H'. by apply H, adjacent_sym.
Qed.

Lemma absorbed_neighbours_insert (p : Coord) (R : gset Coord) (c : Coord) :
  p ∉ R →
  absorbed_neighbours ({[ p ]} ∪ R) c =
    (absorbed_neighbours R c + occurrences p (neighbours c))%nat.
Proof.
  intros Hp. unfold absorbed_neighbours.
  induction (neighbours c) as [|q l IH]; [done|].
  rewrite occurrences_cons, !filter_cons.
  destruct (decide (q = p)) as [-> | Hne].
  - rewrite decide_True by set_solver. rewrite (decide_False (P := p ∈ R)) by done.
    simpl. rewrite IH. lia.
  - destruct (decide (q ∈ R)) as [Hq | Hq].
    + rewrite decide_True by set_solver. simpl. rewrite IH. lia.
    + rewrite decide_False by set_solver. rewrite IH. lia.
Qed.

Lemma absorbed_neighbours_outside (img : Image) (R : gset Coord) (c : Coord) :
  (∀ q, q ∈ R → in_bounds img q) → ¬ in_bounds img c →
  (absorbed_neighbours R c ≤ 1)%nat ∧
  (¬ (0 < width img ∧ 0 < height img) → absorbed_neighbours R c = 0%nat).
Proof.
  intros HR Hc. destruct c as [x y].
  unfold absorbed_neighbours, neighbours. simpl.
  rewrite !filter_cons, filter_nil.
  repeat case_decide;
    repeat match goal with
           | H : _ ∈ R |- _ => apply HR in H; unfold in_bounds in H; simpl in H
           end;
    unfold in_bounds in Hc; simpl in Hc; simpl; split; intros; lia.
Qed.

Lemma edge_seeds_in_bounds img c :
  0 < width img → 0 < height img → c ∈ edge_seeds img → in_bounds img c.
Proof.
  intros Hw Hh Hc. apply elem_of_edge_seeds in Hc. unfold in_bounds. lia.
Qed.

Lemma NoDup_edge_seeds_degenerate img :
  ¬ (0 < width img ∧ 0 < height img) → NoDup (edge_seeds img).
Proof.
  intros Hdeg. unfold edge_seeds. apply NoDup_app. split; [|split].
  - apply NoDup_bind; [| |apply NoDup_range].
    + intros x1 x2 c Hx1 _ H1 H2. rewrite !elem_of_cons, elem_of_nil in H1, H2.
      destruct H1 as [-> | [-> | []]], H2 as [H2 | [H2 | []]]; by inversion H2.
    + intros x Hx. apply elem_of_range in Hx.
      apply NoDup_cons. split; [|apply NoDup_singleton].
      rewrite elem_of_cons, elem_of_nil. intros [H | []]. inversion H. lia.
  - intros c Hc1 Hc2.
    apply list_elem_of_bind in Hc1 as (x & _ & Hx).
    apply list_elem_of_bind in Hc2 as (y & _ & Hy).
    apply elem_of_range in Hx, Hy. lia.
  - apply NoDup_bind; [| |apply NoDup_range].
    + intros y1 y2 c Hy1 _ H1 H2. rewrite !elem_of_cons, elem_of_nil in H1, H2.
      destruct H1 as [-> | [-> | []]], H2 as [H2 | [H2 | []]]; by inversion H2.
    + intros y Hy. apply elem_of_range in Hy.
      apply NoDup_cons. split; [|apply NoDup_singleton].
      rewrite elem_of_cons, elem_of_nil. intros [H | []]. inversion H. lia.
Qed.

Lemma outside_inv_initial img : outside_inv img (initial_fill img).
Proof.
  intros c Hc. unfold initial_fill. cbn [queue trace to_remove].
  unfold visits, absorbed_neighbours, neighbours.
  rewrite !filter_cons, !filter_nil.
  rewrite !decide_False by set_solver. simpl. lia.
Qed.

(** One iteration keeps the bookkeeping. *)
Lemma fill_step_outside img bg_color tolerance c rest V R T st' :
  well_formed img →
  fill_inv img bg_color tolerance (mkFill (c :: rest) V R T) →
  outside_inv img (mkFill (c :: rest) V R T) →
  fill_step img bg_color tolerance c (mkFill rest V R T) = Done st' →
  outside_inv img st'.
Proof.
  intros Hwf Hinv Hout. destruct c as [x y]. unfold fill_step. simpl.
  destruct (decide ((x, y) ∈ V)) as [Hvis | Hfresh].
  { intros [= <-] c Hc. specialize (Hout c Hc). simpl in *.
    rewrite occurrences_cons in Hout. rewrite visits_snoc. simpl.
    rewrite decide_False in Hout; [lia|].
    intros <-. by apply Hc, (inv_bounds _ _ _ _ Hinv). }
  destruct ((x <? 0) || (x >=? width img) || (y <? 0) || (y >=? height img))
    eqn:Htest.
  { intros [= <-] c Hc. specialize (Hout c Hc). simpl in *.
    rewrite occurrences_cons in Hout. rewrite visits_snoc. simpl.
    destruct (decide ((x, y) = c)) as [-> | Hne].
    - rewrite decide_True by done. lia.
    - rewrite decide_False by congruence. lia. }
  assert (Hin : in_bounds img (x, y)).
  { destruct (decide (in_bounds img (x, y))) as [?|Hn]; [done|].
    apply out_of_bounds_test in Hn. congruence. }
  rewrite pixel_get_in_bounds by done.
  destruct (pixel_at img (x, y)) as [[[r g] b] a]. simpl.
  assert (HfreshR : (x, y) ∉ R).
  { intros HR. apply Hfresh. by apply (inv_removed _ _ _ _ Hinv) in HR as [? _]. }
  destruct (within_tolerance (r, g, b) bg_color tolerance).
  - intros [= <-] c Hc. specialize (Hout c Hc). simpl in *.
    rewrite occurrences_cons in Hout. rewrite visits_snoc. simpl.
    rewrite occurrences_app, absorbed_neighbours_insert by done.
    rewrite <- (occurrences_neighbours_sym c (x, y)).
    change [(x + 1, y); (x - 1, y); (x, y + 1); (x, y - 1)]
      with (neighbours (x, y)).
    rewrite decide_False in Hout by (by intros <-).
    rewrite decide_False by (intros [= <-]; done). lia.
  - intros [= <-] c Hc. specialize (Hout c Hc). simpl in *.
    rewrite occurrences_cons in Hout. rewrite visits_snoc. simpl.
    rewrite decide_False in Hout by (by intros <-).
    rewrite decide_False by (intros [= <-]; done). lia.
Qed.

Lemma fill_loop_outside img bg_color tolerance fuel st st' :
  well_formed img →
  fill_inv img bg_color tolerance st → outside_inv img st →
  fill_loop img bg_color tolerance fuel st = Done st' →
  outside_inv img st'.
Proof.
  intros Hwf. revert st. induction fuel as [|fuel IH]; intros st Hinv Hout.
  - destruct st as [q V R T]. destruct q as [|c rest]; simpl; [|done].
    by intros [= <-].
  - destruct st as [q V R T]. destruct q as [|c rest]; simpl.
    + by intros [= <-].
    + destruct (fill_step_spec img bg_color tolerance c rest V R T Hwf Hinv)
        as (st1 & Hstep & Hinv1 & _).
      rewrite Hstep. simpl. apply IH; [done|].
      by eapply fill_step_outside.
Qed.

(** At the end no coordinate off the picture has got past the [visited]
    check more than once. *)
Lemma outside_visited_once img bg_color tolerance st c :
  fill_inv img bg_color tolerance st → outside_inv img st →
  ¬ in_bounds img c → (visits (trace st) c ≤ 1)%nat.
Proof.
  intros Hinv Hout Hc. specialize (Hout c Hc).
  assert (HR : ∀ q, q ∈ to_remove st → in_bounds img q).
  { intros q Hq. apply (inv_bounds _ _ _ _ Hinv).
    by apply (inv_removed _ _ _ _ Hinv) in Hq as [? _]. }
  destruct (absorbed_neighbours_outside img (to_remove st) c HR Hc) as [Hle Hzero].
  destruct (decide (0 < width img ∧ 0 < height img)) as [[Hw Hh] | Hdeg].
  - rewrite (occurrences_absent c (edge_seeds img)) in Hout; [lia|].
    intros Hs. by apply Hc, edge_seeds_in_bounds.
  - rewrite Hzero in Hout by done.
    rewrite (occurrences_NoDup c (edge_seeds img)) in Hout
      by by apply NoDup_edge_seeds_degenerate.
    destruct (decide (c ∈ edge_seeds img)); lia.
Qed.

(** ** C5: every pixel is handled once, and the fill terminates *)

Lemma fill_budget_value img :
  fill_budget img =
    (2 * Z.to_nat (width img) + 2 * Z.to_nat (height img) +
     4 * Z.to_nat (width img * height img))%nat.
Proof. unfold fill_budget. by rewrite length_edge_seeds. Qed.

Lemma fill_budget_linear img :
  0 < width img → 0 < height img →
  (fill_budget img ≤ 8 * Z.to_nat (width img * height img))%nat.
Proof.
  intros Hw Hh. rewrite fill_budget_value.
  rewrite Z2Nat.inj_mul by lia.
  assert (1 ≤ Z.to_nat (width img))%nat by lia.
  assert (1 ≤ Z.to_nat (height img))%nat by lia. nia.
Qed.

(** C5. Whatever the picture, the background colour and the tolerance, the
    fill loop started from the edge seeds runs to an empty queue within
    [2*width + 2*height + 4*width*height] iterations, which is at most
    [8*width*height] on a non-empty picture; with any budget of at least
    that size it returns the same final state. In the recorded iterations
    no coordinate, on the picture or off it, gets past the [visited] check
    more than once, and the pixels of the picture that did are exactly those
    marked visited. A coordinate that is pushed again by a neighbour after
    it was visited is popped and dropped at that check; these pops are
    included in the iteration count. *)
Theorem fill_visits_each_pixel_once img bg_color tolerance fuel :
  well_formed img →
  (fill_budget img ≤ fuel)%nat →
  ∃ st,
    fill_loop img bg_color tolerance fuel (initial_fill img) = Done st ∧
    flood_fill img bg_color tolerance = Done st ∧
    queue st = [] ∧
    (∀ c, (visits (trace st) c ≤ 1)%nat) ∧
    (∀ c, in_bounds img c → visits (trace st) c = 1%nat ↔ c ∈ visited st) ∧
    (length (trace st) ≤
       2 * Z.to_nat (width img) + 2 * Z.to_nat (height img) +
       4 * Z.to_nat (width img * height img))%nat ∧
    (0 < width img → 0 < height img →
     (length (trace st) ≤ 8 * Z.to_nat (width img * height img))%nat).
Proof.
  intros Hwf Hfuel.
  destruct (flood_fill_spec img bg_color tolerance Hwf)
    as (st & Hrun & Hinv & Hq & Htr).
  exists st. split; [by eapply fill_loop_more_fuel|].
  split; [done|]. split; [done|]. split; [|split; [|split]].
  - intros c. destruct (decide (in_bounds img c)) as [Hc | Hc].
    + rewrite (inv_trace _ _ _ _ Hinv) by done.
      destruct (decide (c ∈ visited st)); lia.
    + apply (outside_visited_once img bg_color tolerance st c); [done | | done].
      apply (fill_loop_outside img bg_color tolerance (fill_budget img)
               (initial_fill img) st Hwf); [|apply outside_inv_initial | done].
      by apply fill_inv_initial.
  - intros c Hc. rewrite (inv_trace _ _ _ _ Hinv) by done.
    destruct (decide (c ∈ visited st)); split; try done.
  - by rewrite <- fill_budget_value.
  - intros Hw Hh. pose proof (fill_budget_linear img Hw Hh). lia.
Qed.

(** The framed picture with a budget of 100 iterations (80 are enough). *)
Lemma fill_visits_each_pixel_once_witness :
  well_formed dark_frame ∧
  (fill_budget dark_frame ≤ 100)%nat ∧
  ∃ st,
    fill_loop dark_frame magenta 10 100
      (initial_fill dark_frame) = Done st ∧
    queue st = [] ∧
    ∀ c, (visits (trace st) c ≤ 1)%nat.
Proof.
  assert (Hwf : well_formed dark_frame).
  { by apply make_image_well_formed. }
  assert (Hfuel : (fill_budget dark_frame ≤ 100)%nat).
  { vm_compute. lia. }
  split; [exact Hwf|]. split; [exact Hfuel|].
  destruct (fill_visits_each_pixel_once
              dark_frame magenta 10 100 Hwf Hfuel)
    as (st & H1 & _ & H2 & H3 & _).
  exists st. auto.
Defined.

(** ** C10: the alpha channel plays no part *)

Section same_colors.
Context (img1 img2 : Image).
Hypothesis Hwidth : width img1 = width img2.
Hypothesis Hheight : height img1 = height img2.
Hypothesis Hcolors : ∀ c, in_bounds img1 c → color_at img1 c = color_at img2 c.

Lemma in_bounds_same c : in_bounds img1 c ↔ in_bounds img2 c.
Proof. unfold in_bounds. by rewrite Hwidth, Hheight. Qed.

Lemma sample_coords_same sample_size :
  sample_coords img1 sample_size = sample_coords img2 sample_size.
Proof.
  unfold sample_coords, corner_regions, clipped_window.
  rewrite Hwidth, Hheight. csimpl.
  by rewrite !(list_filter_iff (in_bounds img1) (in_bounds img2))
    by apply in_bounds_same.
Qed.

Lemma sampled_colors_same sample_size :
  color_at img1 <$> sample_coords img1 sample_size =
  color_at img2 <$> sample_coords img2 sample_size.
Proof.
  rewrite <- sample_coords_same.
  assert (Hall : Forall (in_bounds img1) (sample_coords img1 sample_size)).
  { apply Forall_forall. intros c. apply sample_coords_in_bounds. }
  induction Hall as [|c l Hc _ IH]; csimpl; [done|].
  by rewrite IH, Hcolors.
Qed.

Lemma matches_same bg_color tolerance c :
  matches img1 bg_color tolerance c ↔ matches img2 bg_color tolerance c.
Proof.
  unfold matches. rewrite <- in_bounds_same. split.
  - intros [Hin Hm]. split; [done|]. by rewrite <- Hcolors.
  - intros [Hin Hm]. split; [done|]. by rewrite Hcolors.
Qed.

Lemma on_border_same c : on_border img1 c ↔ on_border img2 c.
Proof. unfold on_border. by rewrite in_bounds_same, Hwidth, Hheight. Qed.

Lemma connected_same_1 bg_color tolerance c :
  connected img1 bg_color tolerance c → connected img2 bg_color tolerance c.
Proof.
  induction 1 as [c Hb Hm | p c _ IH Hadj Hm].
  - apply connected_border; [by apply on_border_same | by apply matches_same].
  - eapply connected_step; [done | done | by apply matches_same].
Qed.

Lemma connected_same_2 bg_color tolerance c :
  connected img2 bg_color tolerance c → connected img1 bg_color tolerance c.
Proof.
  induction 1 as [c Hb Hm | p c _ IH Hadj Hm].
  - apply connected_border; [by apply on_border_same | by apply matches_same].
  - eapply connected_step; [done | done | by apply matches_same].
Qed.
End same_colors.

(** C10. Two pictures of the same size whose pixels agree on red, green and
    blue, whatever their alpha values, get the same background estimate and
    the same set of removed coordinates for the same tolerance and sample
    size. *)
Theorem alpha_is_ignored img1 img2 tolerance sample_size :
  well_formed img1 → well_formed img2 →
  width img1 = width img2 → height img1 = height img2 →
  (∀ c, in_bounds img1 c → rgb (pixel_at img1 c) = rgb (pixel_at img2 c)) →
  ∃ estimate R,
    background_estimate img1 sample_size = Done estimate ∧
    background_estimate img2 sample_size = Done estimate ∧
    removal_set img1 tolerance sample_size = Done R ∧
    removal_set img2 tolerance sample_size = Done R.
Proof.
  intros Hwf1 Hwf2 Hw Hh Hrgb.
  pose proof (sample_coords_same img1 img2 Hw Hh sample_size) as Hcoords.
  pose proof (sampled_colors_same img1 img2 Hw Hh Hrgb sample_size) as Hsame.
  destruct (decide (sample_coords img1 sample_size = [])) as [Hnil | Hne].
  - destruct (run_early img1 tolerance sample_size Hwf1 Hnil) as (_ & He1 & Hr1).
    rewrite Hcoords in Hnil.
    destruct (run_early img2 tolerance sample_size Hwf2 Hnil) as (_ & He2 & Hr2).
    by exists None, ∅.
  - destruct (run_full img1 tolerance sample_size Hwf1 Hne)
      as (bg1 & st1 & out1 & F1).
    rewrite Hcoords in Hne.
    destruct (run_full img2 tolerance sample_size Hwf2 Hne)
      as (bg2 & st2 & out2 & F2).
    assert (bg2 = bg1) as ->.
    { pose proof (run_average _ _ _ _ _ _ F1) as H1.
      pose proof (run_average _ _ _ _ _ _ F2) as H2.
      rewrite Hsame, H2 in H1. by injection H1. }
    assert (to_remove st2 = to_remove st1) as HR.
    { apply set_eq. intros c.
      rewrite (fill_inv_final img2 bg1 tolerance st2 c)
        by (apply F2 || apply F2).
      rewrite (fill_inv_final img1 bg1 tolerance st1 c)
        by (apply F1 || apply F1).
      split; [by apply connected_same_2 | by apply connected_same_1]. }
    exists (Some bg1), (to_remove st1).
    split; [apply F1|]. split; [apply F2|]. split; [apply F1|].
    rewrite <- HR. apply F2.
Qed.

(** The grey square, opaque and faded. *)
Lemma alpha_is_ignored_witness :
  well_formed grey_square ∧ well_formed grey_square_faded ∧
  width grey_square = width grey_square_faded ∧
  height grey_square = height grey_square_faded ∧
  (∀ c, in_bounds grey_square c →
        rgb (pixel_at grey_square c) = rgb (pixel_at grey_square_faded c)) ∧
  ∃ estimate R,
    background_estimate grey_square 1 = Done estimate ∧
    background_estimate grey_square_faded 1 = Done estimate ∧
    removal_set grey_square 10 1 = Done R ∧
    removal_set grey_square_faded 10 1 = Done R.
Proof.
  assert (Hwf1 : well_formed grey_square) by by apply make_image_well_formed.
  assert (Hwf2 : well_formed grey_square_faded)
    by by apply make_image_well_formed.
  assert (Hrgb : ∀ c, in_bounds grey_square c →
            rgb (pixel_at grey_square c) = rgb (pixel_at grey_square_faded c)).
  { intros [x y] [Hx Hy]. simpl in Hx, Hy.
    assert (Hxs : x = 0 ∨ x = 1) by lia. assert (Hys : y = 0 ∨ y = 1) by lia.
    destruct Hxs as [-> | ->], Hys as [-> | ->]; vm_compute; reflexivity. }
  split; [exact Hwf1|]. split; [exact Hwf2|].
  split; [reflexivity|]. split; [reflexivity|]. split; [exact Hrgb|].
  exact (alpha_is_ignored grey_square grey_square_faded 10 1
           Hwf1 Hwf2 eq_refl eq_refl Hrgb).
Defined.

(** ** C3: a second pass *)

(** C3 as stated fails. On the grey square (tolerance 10, 1 x 1 samples)
    the first pass estimates (160, 160, 160) and clears
    the top-left pixel only. The cleared corner lowers the second estimate
    to (120, 120, 120): black is far from it, but the top-right pixel now
    matches and is cleared by the second pass. *)
Lemma second_pass_changes_grey_square :
  well_formed grey_square ∧
  background_estimate grey_square 1 = Done (Some (160, 160, 160)) ∧
  image_rows <$> remove_chroma_key_background grey_square 10 1 =
    Done [[Some (0, 0, 0, 0); Some (120, 120, 120, 255)];
          [Some (180, 180, 180, 255); Some (180, 180, 180, 255)]] ∧
  (out ← remove_chroma_key_background grey_square 10 1;
   background_estimate out 1) = Done (Some (120, 120, 120)) ∧
  within_tolerance (0, 0, 0) (120, 120, 120) 10 = false ∧
  (out ← remove_chroma_key_background grey_square 10 1;
   image_rows <$> remove_chroma_key_background out 10 1) =
    Done [[Some (0, 0, 0, 0); Some (0, 0, 0, 0)];
          [Some (180, 180, 180, 255); Some (180, 180, 180, 255)]] ∧
  ¬ (∀ img tolerance sample_size out,
       well_formed img →
       remove_chroma_key_background img tolerance sample_size = Done out →
       (∀ bg, background_estimate out sample_size = Done (Some bg) →
              within_tolerance (0, 0, 0) bg tolerance = false) →
       remove_chroma_key_background out tolerance sample_size = Done out).
Proof.
  assert (Hwf : well_formed grey_square) by by apply make_image_well_formed.
  assert (Hfirst : image_rows <$> remove_chroma_key_background grey_square 10 1 =
    Done [[Some (0, 0, 0, 0); Some (120, 120, 120, 255)];
          [Some (180, 180, 180, 255); Some (180, 180, 180, 255)]])
    by (vm_compute; reflexivity).
  assert (Hest : (out ← remove_chroma_key_background grey_square 10 1;
                  background_estimate out 1) = Done (Some (120, 120, 120)))
    by (vm_compute; reflexivity).
  assert (Hsecond : (out ← remove_chroma_key_background grey_square 10 1;
                     image_rows <$> remove_chroma_key_background out 10 1) =
    Done [[Some (0, 0, 0, 0); Some (0, 0, 0, 0)];
          [Some (180, 180, 180, 255); Some (180, 180, 180, 255)]])
    by (vm_compute; reflexivity).
  split; [exact Hwf|]. split; [vm_compute; reflexivity|].
  split; [exact Hfirst|]. split; [exact Hest|].
  split; [vm_compute; reflexivity|]. split; [exact Hsecond|].
  intros Hclaim.
  destruct (run_summary grey_square 10 1 Hwf) as (R & out & _ & Hrun & _).
  rewrite Hrun in Hfirst, Hest, Hsecond.
  run_bind_in Hest. run_bind_in Hsecond.
  assert (Hprem : ∀ bg, background_estimate out 1 = Done (Some bg) →
                        within_tolerance (0, 0, 0) bg 10 = false).
  { intros bg Hbg. rewrite Hbg in Hest. injection Hest as ->. reflexivity. }
  pose proof (Hclaim grey_square 10 1 out Hwf Hrun Hprem) as Hagain.
  rewrite Hagain, Hfirst in Hsecond. congruence.
Qed.

Lemma color_at_cleared img c :
  pixels img !! c = Some (0, 0, 0, 0) → color_at img c = (0, 0, 0).
Proof. intros H. unfold color_at, pixel_at. by rewrite H. Qed.

Lemma color_at_same img1 img2 c :
  pixels img1 !! c = pixels img2 !! c → color_at img1 c = color_at img2 c.
Proof. intros H. unfold color_at, pixel_at. by rewrite H. Qed.

(** C3, amended. A second pass with the same tolerance and sample size
    leaves the output of the first pass as it is, provided the second pass
    computes the same background estimate as the first and (0, 0, 0) is not
    within the tolerance of it. *)
Theorem second_pass_same_estimate img tolerance sample_size out :
  well_formed img →
  remove_chroma_key_background img tolerance sample_size = Done out →
  background_estimate out sample_size = background_estimate img sample_size →
  (∀ bg, background_estimate out sample_size = Done (Some bg) →
         within_tolerance (0, 0, 0) bg tolerance = false) →
  remove_chroma_key_background out tolerance sample_size = Done out.
Proof.
  intros Hwf Hrun Hest Hblack.
  assert (Hwf' : well_formed out) by by eapply well_formed_result.
  destruct (decide (sample_coords out sample_size = [])) as [Hnil | Hne].
  { by apply run_early. }
  destruct (run_full out tolerance sample_size Hwf' Hne)
    as (bg & st2 & out2 & F2).
  destruct (run_summary img tolerance sample_size Hwf)
    as (R & out' & _ & Hrun' & Hw & Hh & _ & _).
  rewrite Hrun in Hrun'. injection Hrun' as <-.
  assert (Hne1 : sample_coords img sample_size ≠ []).
  { by rewrite <- (sample_coords_same out img Hw Hh). }
  destruct (run_full img tolerance sample_size Hwf Hne1)
    as (bg1 & st1 & out1 & F1).
  assert (out1 = out) as ->.
  { pose proof (run_result _ _ _ _ _ _ F1) as H1. rewrite Hrun in H1.
    by injection H1. }
  assert (bg1 = bg) as ->.
  { rewrite (run_estimate _ _ _ _ _ _ F1), (run_estimate _ _ _ _ _ _ F2) in Hest.
    by injection Hest. }
  assert (Hfar : within_tolerance (0, 0, 0) bg tolerance = false).
  { apply Hblack, F2. }
  assert (Hnone : ∀ c, ¬ connected out bg tolerance c).
  { intros c. induction 1 as [c Hb [Hin Hm] | p c _ IH _ _]; [|done].
    pose proof (run_pixels _ _ _ _ _ _ F1 c) as Hpx.
    destruct (decide (c ∈ to_remove st1)) as [Hc | Hc].
    - rewrite (color_at_cleared out c Hpx) in Hm. congruence.
    - apply Hc. apply (fill_inv_final img bg tolerance st1 c);
        [apply F1 | apply F1 |].
      apply connected_border.
      + by apply (on_border_same out img Hw Hh).
      + split; [by apply (in_bounds_same out img Hw Hh)|].
        by rewrite <- (color_at_same out img c Hpx). }
  rewrite (run_result _ _ _ _ _ _ F2). f_equal. apply image_eq.
  - apply F2.
  - apply F2.
  - intros c. rewrite (run_pixels _ _ _ _ _ _ F2).
    rewrite decide_False; [done|]. intros Hc. apply (Hnone c).
    apply (fill_inv_final out bg tolerance st2 c); [apply F2 | apply F2 | done].
Qed.

(** The grey strip: the estimate (100, 100, 100) comes from the two end
    pixels, which stay; the middle pixel is cleared, and a second pass
    changes nothing. *)
Lemma second_pass_same_estimate_witness :
  well_formed grey_strip ∧
  ∃ out,
    remove_chroma_key_background grey_strip 10 1 = Done out ∧
    image_rows out =
      [[Some (0, 0, 0, 255); Some (0, 0, 0, 0); Some (200, 200, 200, 255)]] ∧
    background_estimate out 1 = background_estimate grey_strip 1 ∧
    (∀ bg, background_estimate out 1 = Done (Some bg) →
           within_tolerance (0, 0, 0) bg 10 = false) ∧
    remove_chroma_key_background out 10 1 = Done out.
Proof.
  assert (Hwf : well_formed grey_strip) by by apply make_image_well_formed.
  split; [exact Hwf|].
  assert (Hfirst : ∃ out,
    remove_chroma_key_background grey_strip 10 1 = Done out ∧
    image_rows out =
      [[Some (0, 0, 0, 255); Some (0, 0, 0, 0); Some (200, 200, 200, 255)]] ∧
    background_estimate out 1 = background_estimate grey_strip 1 ∧
    (∀ bg, background_estimate out 1 = Done (Some bg) →
           within_tolerance (0, 0, 0) bg 10 = false)).
  { eexists. split; [vm_compute; reflexivity|].
    split; [vm_compute; reflexivity|]. split; [vm_compute; reflexivity|].
    intros bg. vm_compute. intros [= <-]. reflexivity. }
  destruct Hfirst as (out & Hrun & Hrows & Hest & Hblack).
  exists out. split; [exact Hrun|]. split; [exact Hrows|].
  split; [exact Hest|]. split; [exact Hblack|].
  exact (second_pass_same_estimate grey_strip 10 1 out Hwf Hrun Hest Hblack).
Defined.

(** ** C8: the magenta frame *)

(** C8 as stated fails. With tolerance 10 a centre that is not magenta, but
    one step away from it, is swallowed with the frame: all 16 pixels are
    cleared. *)
Lemma near_magenta_centre_removed :
  well_formed pale_frame ∧
  (∀ x y, 1 ≤ x ≤ 2 → 1 ≤ y ≤ 2 →
     pixels pale_frame !! (x, y) = Some (254, 0, 255, 255) ∧
     (254, 0, 255) ≠ magenta) ∧
  (∀ x y, 0 ≤ x ≤ 3 → 0 ≤ y ≤ 3 → x = 0 ∨ x = 3 ∨ y = 0 ∨ y = 3 →
     pixels pale_frame !! (x, y) = Some (255, 0, 255, 255)) ∧
  background_estimate pale_frame 1 = Done (Some magenta) ∧
  size <$> removal_set pale_frame 10 1 = Done 16%nat ∧
  image_rows <$> remove_chroma_key_background pale_frame 10 1 =
    Done [[Some (0, 0, 0, 0); Some (0, 0, 0, 0); Some (0, 0, 0, 0); Some (0, 0, 0, 0)];
          [Some (0, 0, 0, 0); Some (0, 0, 0, 0); Some (0, 0, 0, 0); Some (0, 0, 0, 0)];
          [Some (0, 0, 0, 0); Some (0, 0, 0, 0); Some (0, 0, 0, 0); Some (0, 0, 0, 0)];
          [Some (0, 0, 0, 0); Some (0, 0, 0, 0); Some (0, 0, 0, 0); Some (0, 0, 0, 0)]].
Proof.
  split; [by apply make_image_well_formed|]. split; [|split].
  - intros x y Hx Hy. split; [|discriminate].
    assert (Hxs : x = 1 ∨ x = 2) by lia. assert (Hys : y = 1 ∨ y = 2) by lia.
    destruct Hxs as [-> | ->], Hys as [-> | ->]; vm_compute; reflexivity.
  - intros x y Hx Hy Hb.
    assert (Hxs : x = 0 ∨ x = 1 ∨ x = 2 ∨ x = 3) by lia.
    assert (Hys : y = 0 ∨ y = 1 ∨ y = 2 ∨ y = 3) by lia.
    destruct Hxs as [-> | [-> | [-> | ->]]], Hys as [-> | [-> | [-> | ->]]];
      try (vm_compute; reflexivity); lia.
  - split; [vm_compute; reflexivity|]. split; vm_compute; reflexivity.
Qed.

Lemma clipped_window_unit img x y :
  in_bounds img (x, y) → clipped_window img x y 1 = [(x, y)].
Proof.
  intros Hin. apply only_element; [apply NoDup_clipped_window|].
  intros [x' y']. rewrite elem_of_clipped_window. simpl. split.
  - intros (_ & ? & ?). f_equal; lia.
  - intros [= -> ->]. split; [done | lia].
Qed.

Lemma border_set_four (R : gset Coord) :
  (∀ c, c ∈ R ↔ (0 ≤ c.1 < 4 ∧ 0 ≤ c.2 < 4) ∧
                 (c.1 = 0 ∨ c.1 = 3 ∨ c.2 = 0 ∨ c.2 = 3)) →
  size R = 12%nat.
Proof.
  intros HR.
  assert (R = list_to_set
    (filter (fun c : Coord => c.1 = 0 ∨ c.1 = 3 ∨ c.2 = 0 ∨ c.2 = 3)
            (all_coords 4 4))) as ->; [|by vm_compute].
  apply set_eq. intros c.
  rewrite HR, elem_of_list_to_set, list_elem_of_filter, elem_of_all_coords.
  tauto.
Qed.

(** C8, amended. Take a 4 x 4 picture whose 12 frame pixels are magenta
    (255, 0, 255) and whose 4 centre pixels are each at a Euclidean RGB
    distance of more than 10 from magenta. With sample size 1 and tolerance
    10 the estimate is magenta, exactly the 12 frame pixels are removed and
    become (0, 0, 0, 0), and the centre pixels keep colour and alpha. *)
Theorem magenta_frame_removed img :
  well_formed img → width img = 4 → height img = 4 →
  (∀ c, on_border img c → color_at img c = magenta) →
  (∀ c, in_bounds img c → ¬ on_border img c →
        within_tolerance (color_at img c) magenta 10 = false) →
  ∃ R out,
    background_estimate img 1 = Done (Some magenta) ∧
    removal_set img 10 1 = Done R ∧
    remove_chroma_key_background img 10 1 = Done out ∧
    (∀ c, c ∈ R ↔ on_border img c) ∧
    size R = 12%nat ∧
    (∀ c, on_border img c → pixels out !! c = Some (0, 0, 0, 0)) ∧
    (∀ c, in_bounds img c → ¬ on_border img c →
          pixels out !! c = pixels img !! c).
Proof.
  intros Hwf Hw Hh Hframe Hcentre.
  assert (Hne : sample_coords img 1 ≠ []).
  { apply sample_coords_nonempty. lia. }
  destruct (run_full img 10 1 Hwf Hne) as (bg & st & out & F).
  assert (bg = magenta) as ->.
  { pose proof (run_average _ _ _ _ _ _ F) as Havg.
    rewrite sample_coords_app, Hw, Hh in Havg.
    rewrite !clipped_window_unit in Havg
      by (unfold in_bounds; simpl; lia).
    csimpl in Havg.
    rewrite !Hframe in Havg by (unfold on_border, in_bounds; simpl; lia).
    rewrite average_of_four in Havg. by injection Havg. }
  assert (HR : ∀ c, c ∈ to_remove st ↔ on_border img c).
  { intros c.
    rewrite (fill_inv_final img magenta 10 st c) by (apply F || apply F).
    split.
    - intros Hconn. apply connected_matches in Hconn as [Hin Hm].
      destruct (decide (on_border img c)) as [?|Hnb]; [done|].
      rewrite (Hcentre c Hin Hnb) in Hm. discriminate.
    - intros Hb. apply connected_border; [done|].
      split; [apply Hb|]. rewrite (Hframe c Hb).
      by apply within_tolerance_self. }
  exists (to_remove st), out.
  split; [apply F|]. split; [apply F|]. split; [apply F|]. split; [done|].
  split; [|split].
  - apply border_set_four. intros c. rewrite HR.
    unfold on_border, in_bounds. rewrite Hw, Hh. tauto.
  - intros c Hb. rewrite (run_pixels _ _ _ _ _ _ F).
    by rewrite decide_True by by apply HR.
  - intros c Hin Hnb. rewrite (run_pixels _ _ _ _ _ _ F).
    by rewrite decide_False by by rewrite HR.
Qed.

(** The frame around the dark centre (10, 20, 30). *)
Lemma magenta_frame_removed_witness :
  well_formed dark_frame ∧ width dark_frame = 4 ∧ height dark_frame = 4 ∧
  (∀ c, on_border dark_frame c → color_at dark_frame c = magenta) ∧
  (∀ c, in_bounds dark_frame c → ¬ on_border dark_frame c →
        within_tolerance (color_at dark_frame c) magenta 10 = false) ∧
  ∃ R out,
    background_estimate dark_frame 1 = Done (Some magenta) ∧
    removal_set dark_frame 10 1 = Done R ∧
    remove_chroma_key_background dark_frame 10 1 = Done out ∧
    (∀ c, c ∈ R ↔ on_border dark_frame c) ∧
    size R = 12%nat ∧
    (∀ c, on_border dark_frame c → pixels out !! c = Some (0, 0, 0, 0)) ∧
    (∀ c, in_bounds dark_frame c → ¬ on_border dark_frame c →
          pixels out !! c = pixels dark_frame !! c).
Proof.
  assert (Hwf : well_formed dark_frame) by by apply make_image_well_formed.
  assert (Hcases : ∀ c, in_bounds dark_frame c →
    (on_border dark_frame c ∧ color_at dark_frame c = magenta) ∨
    (¬ on_border dark_frame c ∧
     within_tolerance (color_at dark_frame c) magenta 10 = false)).
  { intros [x y] [Hx Hy]. simpl in Hx, Hy.
    assert (Hxs : x = 0 ∨ x = 1 ∨ x = 2 ∨ x = 3) by lia.
    assert (Hys : y = 0 ∨ y = 1 ∨ y = 2 ∨ y = 3) by lia.
    destruct Hxs as [-> | [-> | [-> | ->]]], Hys as [-> | [-> | [-> | ->]]];
      first [ left; split; [unfold on_border, in_bounds; simpl; lia
                           | vm_compute; reflexivity]
            | right; split; [unfold on_border, in_bounds; simpl; lia
                            | vm_compute; reflexivity] ]. }
  assert (Hframe : ∀ c, on_border dark_frame c → color_at dark_frame c = magenta).
  { intros c Hb. destruct (Hcases c) as [[_ ?] | [Hnb _]];
      [apply Hb | done | by destruct Hnb]. }
  assert (Hcentre : ∀ c, in_bounds dark_frame c → ¬ on_border dark_frame c →
            within_tolerance (color_at dark_frame c) magenta 10 = false).
  { intros c Hin Hnb. destruct (Hcases c Hin) as [[Hb _] | [_ ?]];
      [by destruct Hnb | done]. }
  split; [exact Hwf|]. split; [reflexivity|]. split; [reflexivity|].
  split; [exact Hframe|]. split; [exact Hcentre|].
  exact (magenta_frame_removed dark_frame Hwf eq_refl eq_refl Hframe Hcentre).
Defined.

(** * Further properties of the background removal *)

(** ** The tolerance *)

Lemma within_tolerance_mono c1 c2 t1 t2 :
  t1 ≤ t2 → within_tolerance c1 c2 t1 = true → within_tolerance c1 c2 t2 = true.
Proof.
  unfold within_tolerance. rewrite !andb_true_iff, !Z.leb_le.
  intros Hle [H0 Hd]. split; [lia | nia].
Qed.

Lemma within_tolerance_negative c1 c2 tolerance :
  tolerance < 0 → within_tolerance c1 c2 tolerance = false.
Proof.
  intros Hneg. unfold within_tolerance.
  destruct (Z.leb_spec 0 tolerance); [lia | done].
Qed.

Lemma connected_mono img bg_color t1 t2 c :
  t1 ≤ t2 → connected img bg_color t1 c → connected img bg_color t2 c.
Proof.
  intros Hle. induction 1 as [c Hb [Hin Hm] | p c _ IH Hadj [Hin Hm]].
  - apply connected_border; [done|]. split; [done|].
    by eapply within_tolerance_mono.
  - eapply connected_step; [done | done |]. split; [done|].
    by eapply within_tolerance_mono.
Qed.

(** The removal set of a run that got past the early return. *)
Lemma run_removal_set img tolerance sample_size bg st out c :
  run_facts img tolerance sample_size bg st out →
  c ∈ to_remove st ↔ connected img bg tolerance c.
Proof. intros F. apply fill_inv_final; apply F. Qed.

(** The background estimate does not depend on the tolerance. *)
Lemma run_same_estimate img t1 t2 sample_size bg1 st1 out1 bg2 st2 out2 :
  run_facts img t1 sample_size bg1 st1 out1 →
  run_facts img t2 sample_size bg2 st2 out2 → bg1 = bg2.
Proof.
  intros F1 F2. pose proof (run_estimate _ _ _ _ _ _ F1) as H1.
  rewrite (run_estimate _ _ _ _ _ _ F2) in H1. by injection H1.
Qed.

(** X1. Raising the tolerance never spares a pixel: with the same picture
    and sample size, everything removed at one tolerance is removed at
    every larger one. *)
Theorem removal_grows_with_tolerance img t1 t2 sample_size :
  well_formed img → t1 ≤ t2 →
  ∃ R1 R2,
    removal_set img t1 sample_size = Done R1 ∧
    removal_set img t2 sample_size = Done R2 ∧
    R1 ⊆ R2.
Proof.
  intros Hwf Hle.
  destruct (decide (sample_coords img sample_size = [])) as [Hnil | Hne].
  - exists ∅, ∅. split; [by apply run_early|]. split; [by apply run_early | done].
  - destruct (run_full img t1 sample_size Hwf Hne) as (bg1 & st1 & out1 & F1).
    destruct (run_full img t2 sample_size Hwf Hne) as (bg2 & st2 & out2 & F2).
    exists (to_remove st1), (to_remove st2).
    split; [apply F1|]. split; [apply F2|]. intros c Hc.
    apply (run_removal_set _ _ _ _ _ _ c F2).
    rewrite <- (run_same_estimate _ _ _ _ _ _ _ _ _ _ F1 F2).
    apply (connected_mono img bg1 t1 t2 c Hle).
    by apply (run_removal_set _ _ _ _ _ _ c F1).
Qed.

(** The dark frame at tolerances 10 and 400. *)
Lemma removal_grows_with_tolerance_witness :
  well_formed dark_frame ∧ 10 ≤ 400 ∧
  ∃ R1 R2,
    removal_set dark_frame 10 1 = Done R1 ∧
    removal_set dark_frame 400 1 = Done R2 ∧
    R1 ⊆ R2.
Proof.
  assert (Hwf : well_formed dark_frame) by by apply make_image_well_formed.
  split; [exact Hwf|]. split; [lia|].
  apply (removal_grows_with_tolerance dark_frame 10 400 1 Hwf). lia.
Defined.

(** X2. With a negative tolerance nothing matches: no pixel is removed and
    the picture comes back as it was. *)
Theorem negative_tolerance_removes_nothing img tolerance sample_size :
  well_formed img → tolerance < 0 →
  removal_set img tolerance sample_size = Done ∅ ∧
  remove_chroma_key_background img tolerance sample_size = Done img.
Proof.
  intros Hwf Hneg.
  destruct (decide (sample_coords img sample_size = [])) as [Hnil | Hne].
  - split; by apply run_early.
  - destruct (run_full img tolerance sample_size Hwf Hne) as (bg & st & out & F).
    assert (Hnone : to_remove st = ∅).
    { apply set_eq. intros c. split; [|set_solver]. intros Hc.
      apply (run_removal_set _ _ _ _ _ _ c F) in Hc.
      apply connected_matches in Hc as [_ Hm].
      rewrite within_tolerance_negative in Hm by done. discriminate. }
    split.
    + rewrite (run_removal _ _ _ _ _ _ F). by rewrite Hnone.
    + rewrite (run_result _ _ _ _ _ _ F). f_equal.
      apply image_eq; [apply F | apply F |]. intros c.
      rewrite (run_pixels _ _ _ _ _ _ F), Hnone.
      by rewrite decide_False by set_solver.
Qed.

(** The dark frame at tolerance -1. *)
Lemma negative_tolerance_removes_nothing_witness :
  well_formed dark_frame ∧ -1 < 0 ∧
  removal_set dark_frame (-1) 1 = Done ∅ ∧
  remove_chroma_key_background dark_frame (-1) 1 = Done dark_frame.
Proof.
  assert (Hwf : well_formed dark_frame) by by apply make_image_well_formed.
  split; [exact Hwf|]. split; [lia|].
  apply (negative_tolerance_removes_nothing dark_frame (-1) 1 Hwf). lia.
Defined.

(** ** The background estimate stays within the sampled channels *)

Lemma sum_channel_bounds proj lo hi colors :
  (∀ col, col ∈ colors → lo ≤ proj col ≤ hi) →
  Z.of_nat (length colors) * lo ≤ sum_channel proj colors
    ≤ Z.of_nat (length colors) * hi.
Proof.
  induction colors as [|col colors IH]; intros Hall; [simpl; lia|].
  assert (Hcol : lo ≤ proj col ≤ hi) by (apply Hall; left).
  assert (Hrest : Z.of_nat (length colors) * lo ≤ sum_channel proj colors
                    ≤ Z.of_nat (length colors) * hi).
  { apply IH. intros c Hc. apply Hall. by right. }
  unfold sum_channel in *. simpl foldr. simpl length. lia.
Qed.

Lemma quotient_bounds s n lo hi :
  0 < n → n * lo ≤ s ≤ n * hi → lo ≤ s / n ≤ hi.
Proof.
  intros Hn [Hlo Hhi]. split.
  - by apply Z.div_le_lower_bound.
  - apply Z.div_le_upper_bound; [done|]. lia.
Qed.

(** The floor mean of a non-empty list of colours lies within the range of
    each channel. *)
Lemma average_color_range colors lo hi bg :
  average_color colors = Done bg → colors ≠ [] →
  (∀ col, col ∈ colors →
     lo ≤ red col ≤ hi ∧ lo ≤ green col ≤ hi ∧ lo ≤ blue col ≤ hi) →
  lo ≤ red bg ≤ hi ∧ lo ≤ green bg ≤ hi ∧ lo ≤ blue bg ≤ hi.
Proof.
  intros Havg Hne Hrange.
  assert (Hn : 0 < Z.of_nat (length colors)).
  { destruct colors; [done | simpl; lia]. }
  rewrite average_color_spec in Havg by done. injection Havg as <-.
  unfold red at 1, green at 1, blue at 1. simpl.
  split; [|split]; apply quotient_bounds; try done; apply sum_channel_bounds;
    intros col Hcol; apply (Hrange col Hcol).
Qed.

Lemma sampled_colors_in_range img sample_size lo hi :
  (∀ c, in_bounds img c →
     lo ≤ red (color_at img c) ≤ hi ∧
     lo ≤ green (color_at img c) ≤ hi ∧
     lo ≤ blue (color_at img c) ≤ hi) →
  ∀ col, col ∈ color_at img <$> sample_coords img sample_size →
    lo ≤ red col ≤ hi ∧ lo ≤ green col ≤ hi ∧ lo ≤ blue col ≤ hi.
Proof.
  intros Hrange col Hcol. apply list_elem_of_fmap in Hcol as (c & -> & Hc).
  apply Hrange. by eapply sample_coords_in_bounds.
Qed.

(** X3. If every colour channel of the picture lies between [lo] and [hi],
    so does every channel of the background estimate; for 8-bit pictures
    the estimate is again an 8-bit colour. *)
Theorem estimate_within_channel_range img sample_size lo hi bg :
  well_formed img →
  (∀ c, in_bounds img c →
     lo ≤ red (color_at img c) ≤ hi ∧
     lo ≤ green (color_at img c) ≤ hi ∧
     lo ≤ blue (color_at img c) ≤ hi) →
  background_estimate img sample_size = Done (Some bg) →
  lo ≤ red bg ≤ hi ∧ lo ≤ green bg ≤ hi ∧ lo ≤ blue bg ≤ hi.
Proof.
  intros Hwf Hrange Hest.
  destruct (decide (sample_coords img sample_size = [])) as [Hnil | Hne].
  { destruct (run_early img 0 sample_size Hwf Hnil) as (_ & He & _).
    rewrite He in Hest. discriminate. }
  destruct (run_full img 0 sample_size Hwf Hne) as (bg' & st & out & F).
  rewrite (run_estimate _ _ _ _ _ _ F) in Hest. injection Hest as ->.
  apply (average_color_range (color_at img <$> sample_coords img sample_size)).
  - apply F.
  - intros Hnil. apply fmap_nil_inv in Hnil. done.
  - by apply sampled_colors_in_range.
Qed.

(** The dark frame: all channels are between 0 and 255. *)
Lemma estimate_within_channel_range_witness :
  well_formed dark_frame ∧
  (∀ c, in_bounds dark_frame c →
     0 ≤ red (color_at dark_frame c) ≤ 255 ∧
     0 ≤ green (color_at dark_frame c) ≤ 255 ∧
     0 ≤ blue (color_at dark_frame c) ≤ 255) ∧
  background_estimate dark_frame 3 = Done (Some (146, 8, 155)) ∧
  0 ≤ red (146, 8, 155) ≤ 255 ∧ 0 ≤ green (146, 8, 155) ≤ 255 ∧
  0 ≤ blue (146, 8, 155) ≤ 255.
Proof.
  assert (Hwf : well_formed dark_frame) by by apply make_image_well_formed.
  assert (Hrange : ∀ c, in_bounds dark_frame c →
     0 ≤ red (color_at dark_frame c) ≤ 255 ∧
     0 ≤ green (color_at dark_frame c) ≤ 255 ∧
     0 ≤ blue (color_at dark_frame c) ≤ 255).
  { intros [x y] [Hx Hy]. simpl in Hx, Hy.
    assert (Hxs : x = 0 ∨ x = 1 ∨ x = 2 ∨ x = 3) by lia.
    assert (Hys : y = 0 ∨ y = 1 ∨ y = 2 ∨ y = 3) by lia.
    destruct Hxs as [-> | [-> | [-> | ->]]], Hys as [-> | [-> | [-> | ->]]];
      vm_compute; intuition discriminate. }
  assert (Hest : background_estimate dark_frame 3 = Done (Some (146, 8, 155)))
    by (vm_compute; reflexivity).
  split; [exact Hwf|]. split; [exact Hrange|]. split; [exact Hest|].
  exact (estimate_within_channel_range dark_frame 3 0 255 (146, 8, 155)
           Hwf Hrange Hest).
Defined.

(** ** Pictures that are cleared completely *)

(** When every pixel matches, every pixel is connected to the left edge
    along its row. *)
Lemma all_matching_connected img bg_color tolerance :
  (∀ c, in_bounds img c → matches img bg_color tolerance c) →
  ∀ c, in_bounds img c → connected img bg_color tolerance c.
Proof.
  intros Hall.
  assert (Hrow : ∀ (n : nat) y, in_bounds img (Z.of_nat n, y) →
                   connected img bg_color tolerance (Z.of_nat n, y)).
  { induction n as [|n IH]; intros y Hin.
    - apply connected_border; [|by apply Hall].
      split; [done|]. simpl. lia.
    - apply (connected_step _ _ _ (Z.of_nat n, y)).
      + apply IH. unfold in_bounds in *. simpl in *. lia.
      + left. simpl. f_equal. lia.
      + by apply Hall. }
  intros [x y] Hin. pose proof Hin as [Hx _]. simpl in Hx.
  rewrite <- (Z2Nat.id x) by lia. apply Hrow. by rewrite Z2Nat.id by lia.
Qed.

Lemma all_matching_cleared img tolerance sample_size bg st out :
  run_facts img tolerance sample_size bg st out →
  (∀ c, in_bounds img c → matches img bg tolerance c) →
  (∀ c, c ∈ to_remove st ↔ in_bounds img c) ∧
  (∀ c, in_bounds img c → pixels out !! c = Some (0, 0, 0, 0)).
Proof.
  intros F Hall.
  assert (HR : ∀ c, c ∈ to_remove st ↔ in_bounds img c).
  { intros c. rewrite (run_removal_set _ _ _ _ _ _ c F). split.
    - intros Hc. by apply connected_matches in Hc as [? _].
    - by apply all_matching_connected. }
  split; [done|]. intros c Hc.
  rewrite (run_pixels _ _ _ _ _ _ F). by rewrite decide_True by by apply HR.
Qed.

Lemma byte_colors_close c1 c2 tolerance :
  0 ≤ red c1 ≤ 255 → 0 ≤ green c1 ≤ 255 → 0 ≤ blue c1 ≤ 255 →
  0 ≤ red c2 ≤ 255 → 0 ≤ green c2 ≤ 255 → 0 ≤ blue c2 ≤ 255 →
  442 ≤ tolerance → within_tolerance c1 c2 tolerance = true.
Proof.
  destruct c1 as [[r1 g1] b1], c2 as [[r2 g2] b2].
  unfold red, green, blue, within_tolerance, color_distance_sq. simpl.
  intros Hr1 Hg1 Hb1 Hr2 Hg2 Hb2 Ht.
  apply andb_true_iff. rewrite !Z.leb_le. split; [lia|].
  rewrite !Z.pow_2_r.
  assert ((r1 - r2) * (r1 - r2) ≤ 255 * 255) by nia.
  assert ((g1 - g2) * (g1 - g2) ≤ 255 * 255) by nia.
  assert ((b1 - b2) * (b1 - b2) ≤ 255 * 255) by nia.
  assert (442 * 442 ≤ tolerance * tolerance) by nia. lia.
Qed.

(** X4. On a non-empty 8-bit picture a tolerance of 442 or more (the largest
    possible RGB distance is below 441.7) removes everything: every pixel of
    the picture is in the removal set and comes out as (0, 0, 0, 0). *)
Theorem large_tolerance_clears_picture img tolerance sample_size :
  well_formed img → eight_bit img →
  0 < width img → 0 < height img → 1 ≤ sample_size → 442 ≤ tolerance →
  ∃ R out,
    removal_set img tolerance sample_size = Done R ∧
    remove_chroma_key_background img tolerance sample_size = Done out ∧
    (∀ c, c ∈ R ↔ in_bounds img c) ∧
    (∀ c, in_bounds img c → pixels out !! c = Some (0, 0, 0, 0)).
Proof.
  intros Hwf Hbyte Hw Hh Hs Ht.
  assert (Hne : sample_coords img sample_size ≠ [])
    by by apply sample_coords_nonempty.
  destruct (run_full img tolerance sample_size Hwf Hne) as (bg & st & out & F).
  destruct (average_color_range
              (color_at img <$> sample_coords img sample_size) 0 255 bg)
    as (Hr & Hg & Hb).
  { apply F. }
  { intros Hnil. apply fmap_nil_inv in Hnil. done. }
  { by apply sampled_colors_in_range. }
  exists (to_remove st), out. split; [apply F|]. split; [apply F|].
  apply (all_matching_cleared img tolerance sample_size bg st out F).
  intros c Hc. split; [done|]. destruct (Hbyte c Hc) as (? & ? & ?).
  by apply byte_colors_close.
Qed.

Lemma dark_frame_eight_bit : eight_bit dark_frame.
Proof.
  intros [x y] [Hx Hy]. simpl in Hx, Hy.
  assert (Hxs : x = 0 ∨ x = 1 ∨ x = 2 ∨ x = 3) by lia.
  assert (Hys : y = 0 ∨ y = 1 ∨ y = 2 ∨ y = 3) by lia.
  destruct Hxs as [-> | [-> | [-> | ->]]], Hys as [-> | [-> | [-> | ->]]];
    vm_compute; intuition discriminate.
Qed.

(** The dark frame at tolerance 442: the centre goes too. *)
Lemma large_tolerance_clears_picture_witness :
  well_formed dark_frame ∧ eight_bit dark_frame ∧
  0 < width dark_frame ∧ 0 < height dark_frame ∧ 1 ≤ 1 ∧ 442 ≤ 442 ∧
  ∃ R out,
    removal_set dark_frame 442 1 = Done R ∧
    remove_chroma_key_background dark_frame 442 1 = Done out ∧
    (∀ c, c ∈ R ↔ in_bounds dark_frame c) ∧
    (∀ c, in_bounds dark_frame c → pixels out !! c = Some (0, 0, 0, 0)).
Proof.
  assert (Hwf : well_formed dark_frame) by by apply make_image_well_formed.
  split; [exact Hwf|]. split; [exact dark_frame_eight_bit|].
  split; [simpl; lia|]. split; [simpl; lia|]. split; [lia|]. split; [lia|].
  apply (large_tolerance_clears_picture dark_frame 442 1 Hwf
           dark_frame_eight_bit); simpl; lia.
Defined.

Lemma sum_channel_constant proj col (colors : list Color) :
  (∀ c, c ∈ colors → c = col) →
  sum_channel proj colors = Z.of_nat (length colors) * proj col.
Proof.
  induction colors as [|c colors IH]; intros Hall; [simpl; lia|].
  assert (c = col) as -> by (apply Hall; left).
  assert (Hrest : sum_channel proj colors = Z.of_nat (length colors) * proj col).
  { apply IH. intros c Hc. apply Hall. by right. }
  unfold sum_channel in *. simpl foldr. simpl length. lia.
Qed.

Lemma average_color_constant col colors :
  colors ≠ [] → (∀ c, c ∈ colors → c = col) → average_color colors = Done col.
Proof.
  intros Hne Hall. rewrite average_color_spec by done.
  assert (Hn : Z.of_nat (length colors) ≠ 0).
  { destruct colors; [done | simpl; lia]. }
  rewrite !(sum_channel_constant _ col) by done.
  rewrite !(Z.mul_comm (Z.of_nat (length colors))), !Z.div_mul by done.
  by destruct col as [[r g] b].
Qed.

(** X5. A non-empty picture of a single colour: the estimate is that
    colour, and with any non-negative tolerance every pixel is removed. *)
Theorem uniform_picture_cleared img col tolerance sample_size :
  well_formed img → uniform img col →
  0 < width img → 0 < height img → 1 ≤ sample_size → 0 ≤ tolerance →
  ∃ R out,
    background_estimate img sample_size = Done (Some col) ∧
    removal_set img tolerance sample_size = Done R ∧
    remove_chroma_key_background img tolerance sample_size = Done out ∧
    (∀ c, c ∈ R ↔ in_bounds img c) ∧
    (∀ c, in_bounds img c → pixels out !! c = Some (0, 0, 0, 0)).
Proof.
  intros Hwf Huni Hw Hh Hs Ht.
  assert (Hne : sample_coords img sample_size ≠ [])
    by by apply sample_coords_nonempty.
  destruct (run_full img tolerance sample_size Hwf Hne) as (bg & st & out & F).
  assert (bg = col) as ->.
  { pose proof (run_average _ _ _ _ _ _ F) as Havg.
    rewrite (average_color_constant col) in Havg; [by injection Havg | |].
    - intros Hnil. apply fmap_nil_inv in Hnil. done.
    - intros c Hc. apply list_elem_of_fmap in Hc as (c' & -> & Hc').
      apply Huni. by eapply sample_coords_in_bounds. }
  exists (to_remove st), out.
  split; [apply F|]. split; [apply F|]. split; [apply F|].
  apply (all_matching_cleared img tolerance sample_size col st out F).
  intros c Hc. split; [done|]. rewrite (Huni c Hc).
  by apply within_tolerance_self.
Qed.

(** X6. A picture that is already transparent black everywhere is a fixed
    point of the transform, for every tolerance and every sample size. *)
Theorem transparent_picture_unchanged img tolerance sample_size :
  well_formed img →
  (∀ c, in_bounds img c → pixels img !! c = Some (0, 0, 0, 0)) →
  remove_chroma_key_background img tolerance sample_size = Done img.
Proof.
  intros Hwf Hclear.
  destruct (run_summary img tolerance sample_size Hwf)
    as (R & out & _ & Hrun & Hw & Hh & HR & Hpx).
  rewrite Hrun. f_equal. apply image_eq; [done | done |].
  intros c. rewrite Hpx. destruct (decide (c ∈ R)) as [Hc | Hc]; [|done].
  symmetry. by apply Hclear, HR.
Qed.

Lemma plain_lookup w h p c :
  in_bounds (plain w h p) c → pixels (plain w h p) !! c = Some p.
Proof.
  intros Hin. unfold plain. rewrite make_image_lookup.
  by rewrite decide_True by apply Hin.
Qed.

Lemma plain_uniform w h p : uniform (plain w h p) (rgb p).
Proof.
  intros c Hc. unfold color_at, pixel_at. by rewrite plain_lookup.
Qed.

(** Three by two pixels of one colour, tolerance 0, the default sample
    size. *)
Lemma uniform_picture_cleared_witness :
  well_formed (plain 3 2 (40, 50, 60, 255)) ∧
  uniform (plain 3 2 (40, 50, 60, 255)) (40, 50, 60) ∧
  0 < width (plain 3 2 (40, 50, 60, 255)) ∧
  0 < height (plain 3 2 (40, 50, 60, 255)) ∧ 1 ≤ 10 ∧ 0 ≤ 0 ∧
  ∃ R out,
    background_estimate (plain 3 2 (40, 50, 60, 255)) 10 =
      Done (Some (40, 50, 60)) ∧
    removal_set (plain 3 2 (40, 50, 60, 255)) 0 10 = Done R ∧
    remove_chroma_key_background (plain 3 2 (40, 50, 60, 255)) 0 10 = Done out ∧
    (∀ c, c ∈ R ↔ in_bounds (plain 3 2 (40, 50, 60, 255)) c) ∧
    (∀ c, in_bounds (plain 3 2 (40, 50, 60, 255)) c →
          pixels out !! c = Some (0, 0, 0, 0)).
Proof.
  assert (Hwf : well_formed (plain 3 2 (40, 50, 60, 255)))
    by by apply make_image_well_formed.
  split; [exact Hwf|]. split; [apply (plain_uniform 3 2 (40, 50, 60, 255))|].
  split; [simpl; lia|]. split; [simpl; lia|]. split; [lia|]. split; [lia|].
  apply (uniform_picture_cleared (plain 3 2 (40, 50, 60, 255)) (40, 50, 60) 0 10
           Hwf (plain_uniform 3 2 (40, 50, 60, 255))); simpl; lia.
Defined.

(** Three by two transparent black pixels. *)
Lemma transparent_picture_unchanged_witness :
  well_formed (plain 3 2 (0, 0, 0, 0)) ∧
  (∀ c, in_bounds (plain 3 2 (0, 0, 0, 0)) c →
        pixels (plain 3 2 (0, 0, 0, 0)) !! c = Some (0, 0, 0, 0)) ∧
  remove_chroma_key_background (plain 3 2 (0, 0, 0, 0)) 70 10 =
    Done (plain 3 2 (0, 0, 0, 0)).
Proof.
  assert (Hwf : well_formed (plain 3 2 (0, 0, 0, 0)))
    by by apply make_image_well_formed.
  split; [exact Hwf|]. split; [apply plain_lookup|].
  apply (transparent_picture_unchanged (plain 3 2 (0, 0, 0, 0)) 70 10 Hwf).
  apply plain_lookup.
Defined.

(** ** How many samples are taken *)

Lemma length_all_coords_nat w h :
  length (all_coords w h) = (Z.to_nat w * Z.to_nat h)%nat.
Proof.
  unfold all_coords.
  assert (Hlen : ∀ l : list Z,
    length (l ≫= fun y => (fun x => (x, y)) <$> range w) =
      (length l * Z.to_nat w)%nat).
  { induction l as [|y l IH]; csimpl; [done|].
    rewrite length_app, length_fmap, IH. unfold range. rewrite length_seqZ. lia. }
  rewrite Hlen. unfold range. rewrite length_seqZ. lia.
Qed.

(** A clipped block is a rectangle: it holds as many coordinates as the
    overlap of the block with the picture. *)
Lemma length_clipped_window img start_x start_y size :
  length (clipped_window img start_x start_y size) =
    (Z.to_nat (Z.min (start_x + size) (width img) - Z.max start_x 0) *
     Z.to_nat (Z.min (start_y + size) (height img) - Z.max start_y 0))%nat.
Proof.
  set (nx := Z.min (start_x + size) (width img) - Z.max start_x 0).
  set (ny := Z.min (start_y + size) (height img) - Z.max start_y 0).
  transitivity
    (length ((fun c : Coord => (c.1 + Z.max start_x 0, c.2 + Z.max start_y 0))
               <$> all_coords nx ny));
    [|by rewrite length_fmap, length_all_coords_nat].
  apply Permutation_length, NoDup_Permutation.
  - apply NoDup_clipped_window.
  - apply NoDup_fmap_2; [|apply NoDup_all_coords].
    intros [x1 y1] [x2 y2] H. simpl in H. inversion H. f_equal; lia.
  - intros [x y]. rewrite elem_of_clipped_window, list_elem_of_fmap.
    unfold in_bounds. simpl. split.
    + intros (Hin & Hx & Hy).
      exists (x - Z.max start_x 0, y - Z.max start_y 0). split.
      * simpl. f_equal; lia.
      * apply elem_of_all_coords. simpl. unfold nx, ny. lia.
    + intros ([x' y'] & Heq & Hc). apply elem_of_all_coords in Hc.
      simpl in Heq, Hc. inversion Heq. unfold nx, ny in Hc. lia.
Qed.

(** X7. For a sample size N >= 0 the number of collected corner samples is
    [4 * min(N, width) * min(N, height)]: four blocks, each cut down to the
    picture, overlaps counted again. *)
Theorem corner_sample_count img sample_size :
  well_formed img → 0 ≤ sample_size →
  ∃ colors,
    collect_corner_samples img sample_size = Done colors ∧
    Z.of_nat (length colors) =
      4 * Z.min sample_size (width img) * Z.min sample_size (height img).
Proof.
  intros Hwf Hs. pose proof Hwf as (Hw & Hh & _).
  exists (color_at img <$> sample_coords img sample_size).
  split; [by apply collect_corner_samples_spec|].
  rewrite length_fmap, sample_coords_app, !length_app, !length_clipped_window.
  rewrite !Nat2Z.inj_add, !Nat2Z.inj_mul.
  rewrite !Z2Nat.id by lia. nia.
Qed.

(** The row of three pixels with 5 x 5 blocks: 4 * 3 * 1 = 12 samples. *)
Lemma corner_sample_count_witness :
  well_formed grey_strip ∧ 0 ≤ 5 ∧
  ∃ colors,
    collect_corner_samples grey_strip 5 = Done colors ∧
    Z.of_nat (length colors) =
      4 * Z.min 5 (width grey_strip) * Z.min 5 (height grey_strip).
Proof.
  assert (Hwf : well_formed grey_strip) by by apply make_image_well_formed.
  split; [exact Hwf|]. split; [lia|].
  apply (corner_sample_count grey_strip 5 Hwf). lia.
Defined.

(** ** Sample blocks that cover the whole picture *)

Lemma sum_channel_permutation proj (l k : list Color) :
  l ≡ₚ k → sum_channel proj l = sum_channel proj k.
Proof.
  unfold sum_channel. induction 1; simpl; lia.
Qed.

Lemma sum_channel_app proj (l k : list Color) :
  sum_channel proj (l ++ k) = sum_channel proj l + sum_channel proj k.
Proof.
  unfold sum_channel. induction l as [|c l IH]; simpl; lia.
Qed.

(** A block that reaches over the picture on all sides samples every pixel
    once. *)
Lemma clipped_window_whole img start_x start_y size :
  start_x ≤ 0 → width img ≤ start_x + size →
  start_y ≤ 0 → height img ≤ start_y + size →
  clipped_window img start_x start_y size ≡ₚ
    all_coords (width img) (height img).
Proof.
  intros Hx1 Hx2 Hy1 Hy2. apply NoDup_Permutation.
  - apply NoDup_clipped_window.
  - apply NoDup_all_coords.
  - intros c. rewrite elem_of_clipped_window, elem_of_all_coords.
    unfold in_bounds. lia.
Qed.

Lemma sample_coords_whole img sample_size :
  width img ≤ sample_size → height img ≤ sample_size →
  sample_coords img sample_size ≡ₚ
    all_coords (width img) (height img) ++ all_coords (width img) (height img) ++
    all_coords (width img) (height img) ++ all_coords (width img) (height img).
Proof.
  intros Hw Hh. rewrite sample_coords_app.
  rewrite !clipped_window_whole by lia. done.
Qed.

(** X8. Once the sample size is at least the width and the height of a
    non-empty picture, every corner block is the whole picture: the
    estimate is the floor of the mean over all pixels, whatever the sample
    size. *)
Theorem oversized_samples_average_picture img sample_size :
  well_formed img → 0 < width img → 0 < height img →
  width img ≤ sample_size → height img ≤ sample_size →
  background_estimate img sample_size =
    Done (Some
      (sum_channel red (color_at img <$> all_coords (width img) (height img))
         / (width img * height img),
       sum_channel green (color_at img <$> all_coords (width img) (height img))
         / (width img * height img),
       sum_channel blue (color_at img <$> all_coords (width img) (height img))
         / (width img * height img))).
Proof.
  intros Hwf Hw Hh Hsw Hsh.
  assert (Hne : sample_coords img sample_size ≠ []).
  { apply sample_coords_nonempty. lia. }
  destruct (run_full img 0 sample_size Hwf Hne) as (bg & st & out & F).
  rewrite (run_estimate _ _ _ _ _ _ F). do 2 f_equal.
  pose proof (run_average _ _ _ _ _ _ F) as Havg.
  rewrite average_color_spec in Havg
    by (intros Hnil; apply fmap_nil_inv in Hnil; done).
  injection Havg as <-.
  set (everything := all_coords (width img) (height img)).
  assert (Hperm : color_at img <$> sample_coords img sample_size ≡ₚ
            (color_at img <$> everything) ++ (color_at img <$> everything) ++
            (color_at img <$> everything) ++ (color_at img <$> everything)).
  { rewrite sample_coords_whole by done. by rewrite !fmap_app. }
  assert (Hlen : Z.of_nat (length (color_at img <$> sample_coords img sample_size))
                 = 4 * (width img * height img)).
  { rewrite Hperm, !length_app, !length_fmap. unfold everything.
    rewrite length_all_coords by lia. rewrite !Nat2Z.inj_add, Z2Nat.id; lia. }
  assert (Hsum : ∀ proj,
    sum_channel proj (color_at img <$> sample_coords img sample_size) =
      4 * sum_channel proj (color_at img <$> everything)).
  { intros proj. rewrite (sum_channel_permutation _ _ _ Hperm).
    rewrite !sum_channel_app. lia. }
  rewrite Hlen, !Hsum. rewrite !Z.div_mul_cancel_l by lia. done.
Qed.

(** The grey strip with the default sample size 10: (0 + 100 + 200) / 3. *)
Lemma oversized_samples_average_picture_witness :
  well_formed grey_strip ∧ 0 < width grey_strip ∧ 0 < height grey_strip ∧
  width grey_strip ≤ 10 ∧ height grey_strip ≤ 10 ∧
  background_estimate grey_strip 10 = Done (Some (100, 100, 100)).
Proof.
  assert (Hwf : well_formed grey_strip) by by apply make_image_well_formed.
  split; [exact Hwf|]. do 4 (split; [simpl; lia|]).
  rewrite (oversized_samples_average_picture grey_strip 10 Hwf)
    by (simpl; lia).
  vm_compute. reflexivity.
Defined.

(** * Properties of the image-generation client *)

Section client_facts.
Context `{Runtime}.

Lemma posts_app l k : posts (l ++ k) = posts l + posts k.
Proof. unfold posts. rewrite List.filter_app, List.length_app. lia. Qed.

Lemma downloads_app l k : downloads (l ++ k) = downloads l + downloads k.
Proof. unfold downloads. rewrite List.filter_app, List.length_app. lia. Qed.

Lemma slept_app l k : slept (l ++ k) = slept l + slept k.
Proof. unfold slept. induction l as [|e l IH]; simpl; [done|]. rewrite IH. lia. Qed.

Lemma decode_and_return_facts c log b e c' log' :
  decode_and_return c log b = (e, c', log') →
  log' = log ∧ api_key c' = api_key c ∧
  total_requests c' = total_requests c ∧
  successful_requests c' = successful_requests c + 1 ∧ e ≠ Continues.
Proof.
  unfold decode_and_return. destruct (b64decode b); intros [= <- <- <-]; done.
Qed.

Lemma try_fallback_facts c log message e c' log' :
  try_fallback c log message = (e, c', log') →
  log' = log ∧ api_key c' = api_key c ∧
  total_requests c' = total_requests c ∧
  successful_requests c ≤ successful_requests c' ≤ successful_requests c + 1 ∧
  (∀ data, e = Returns data →
     successful_requests c' = successful_requests c + 1) ∧
  e ≠ Continues.
Proof.
  unfold try_fallback. destruct (fallback_image message) as [[b|]|].
  - intros Hd. apply decode_and_return_facts in Hd as (-> & ? & ? & ? & ?).
    repeat split; try done; lia.
  - intros [= <- <- <-]. repeat split; try done; lia.
  - intros [= <- <- <-]. repeat split; try done; lia.
Qed.

Lemma add_cost_counters c x :
  api_key (add_cost c x) = api_key c ∧
  total_requests (add_cost c x) = total_requests c ∧
  successful_requests (add_cost c x) = successful_requests c.
Proof. done. Qed.

Lemma handle_ok_facts net c log r e c' log' :
  handle_ok net c log r = (e, c', log') →
  (∃ added, log' = log ++ added ∧ posts added = 0 ∧
            0 ≤ downloads added ≤ 1 ∧ slept added = 0) ∧
  api_key c' = api_key c ∧
  total_requests c' = total_requests c ∧
  successful_requests c ≤ successful_requests c' ≤ successful_requests c + 1 ∧
  (∀ data, e = Returns data →
     successful_requests c' = successful_requests c + 1) ∧
  e ≠ Continues.
Proof.
  unfold handle_ok.
  assert (Hstay : ∀ c0 : client,
    api_key c0 = api_key c → total_requests c0 = total_requests c →
    successful_requests c0 = successful_requests c →
    (FallsThrough, c0, log) = (e, c', log') →
    (∃ added, log' = log ++ added ∧ posts added = 0 ∧
              0 ≤ downloads added ≤ 1 ∧ slept added = 0) ∧
    api_key c' = api_key c ∧ total_requests c' = total_requests c ∧
    successful_requests c ≤ successful_requests c' ≤ successful_requests c + 1 ∧
    (∀ data, e = Returns data →
       successful_requests c' = successful_requests c + 1) ∧
    e ≠ Continues).
  { intros c0 Hk Ht Hs [= <- <- <-]. split.
    - exists []. by rewrite app_nil_r.
    - repeat split; try done; lia. }
  destruct (json_body r) as [data|]; [|by apply Hstay].
  destruct (reported_cost data) as [cost|]; [|by apply Hstay].
  set (c1 := if cost is Some x then add_cost c x else c).
  assert (Hc1 : api_key c1 = api_key c ∧ total_requests c1 = total_requests c ∧
                successful_requests c1 = successful_requests c).
  { unfold c1. by destruct cost. }
  destruct Hc1 as (Hk & Ht & Hs).
  destruct (has_choices data) as [[|]|]; [|(by apply Hstay)..].
  destruct (primary_image data) as [[message [b|url|]]|]; [| | |by apply Hstay].
  - intros Hd. apply decode_and_return_facts in Hd as (-> & ? & ? & ? & ?).
    split; [exists []; by rewrite app_nil_r|].
    repeat split; try congruence; lia.
  - destruct (net (log ++ [Get url 60])) as [ex|resp].
    + intros [= <- <- <-]. split; [by exists [Get url 60]|].
      repeat split; try congruence; lia.
    + destruct (status_code resp =? 200).
      * intros [= <- <- <-]. split; [by exists [Get url 60]|].
        simpl. repeat split; try congruence; lia.
      * intros Hf. apply try_fallback_facts in Hf as (-> & ? & ? & ? & ? & ?).
        split; [by exists [Get url 60]|].
        repeat split; try congruence; try lia.
        intros data0 He. rewrite <- Hs. eauto.
  - intros Hf. apply try_fallback_facts in Hf as (-> & ? & ? & ? & ? & ?).
    split; [exists []; by rewrite app_nil_r|].
    repeat split; try congruence; try lia.
    intros data0 He. rewrite <- Hs. eauto.
Qed.

Lemma attempt_body_facts net prompt aspect_ratio attempt c log e c' log' :
  attempt_body net prompt aspect_ratio attempt c log = (e, c', log') →
  attempt_facts net attempt c log e c' log'.
Proof.
  unfold attempt_body.
  set (post := Post OPENROUTER_API_URL (request_body prompt aspect_ratio) 120).
  destruct (net (log ++ [post])) as [ex|r].
  { intros [= <- <- <-]. split.
    - by exists [post].
    - done.
    - done.
    - simpl. lia.
    - intros data [=]. }
  destruct (status_code r =? 200).
  { intros Hok. apply handle_ok_facts in Hok
      as ((added & -> & Hp & Hg & Hs) & Hk & Ht & Hsucc & Hret & Hne).
    split.
    - exists (post :: added). rewrite <- app_assoc. split; [done|].
      change (post :: added) with ([post] ++ added).
      rewrite posts_app, downloads_app, slept_app, Hp, Hs.
      assert (Hd0 : downloads [post] = 0) by done. rewrite Hd0.
      split; [done|]. split; [lia|]. by destruct e.
    - done.
    - done.
    - simpl in Hsucc. lia.
    - intros data He. rewrite (Hret data He). done. }
  destruct (status_code r =? 429).
  - intros [= <- <- <-]. split.
    + exists [post; Sleep (RETRY_DELAY * (attempt + 1) * 2)].
      rewrite <- app_assoc. split; [done|]. split; [done|].
      split; [done|]. simpl. lia.
    + done.
    + done.
    + simpl. lia.
    + intros data [=].
  - intros [= <- <- <-]. split.
    + by exists [post].
    + done.
    + done.
    + simpl. lia.
    + intros data [=].
Qed.

Lemma sleep_budget_seqZ (m : nat) : ∀ k,
  sleep_budget (seqZ k (Z.of_nat m)) =
    RETRY_DELAY * (Z.of_nat m * (2 * k + Z.of_nat m + 1)).
Proof.
  induction m as [|m IH]; intros k; [simpl; lia|].
  rewrite seqZ_cons by lia. simpl sleep_budget.
  replace (Z.pred (Z.of_nat (S m))) with (Z.of_nat m) by lia.
  rewrite IH. unfold RETRY_DELAY. lia.
Qed.

Lemma sleep_budget_range n :
  sleep_budget (range n) = RETRY_DELAY * (Z.max 0 n * (Z.max 0 n + 1)).
Proof.
  unfold range. destruct (Z.le_gt_cases 0 n) as [Hn | Hn].
  - rewrite <- (Z2Nat.id n) at 1 by done. rewrite sleep_budget_seqZ.
    rewrite Z2Nat.id by done. rewrite Z.max_r by done. unfold RETRY_DELAY. lia.
  - rewrite Z.max_l by lia. unfold seqZ.
    replace (Z.to_nat n) with 0%nat by lia. simpl. unfold RETRY_DELAY. lia.
Qed.

Lemma attempts_facts net prompt aspect_ratio retries todo :
  ∀ c log res c' log',
    attempts net prompt aspect_ratio retries todo c log = (res, c', log') →
    loop_facts todo c log res c' log'.
Proof.
  induction todo as [|attempt rest IH]; intros c log res c' log'; simpl.
  { intros [= <- <- <-]. split; try done.
    exists []. rewrite app_nil_r.
    assert (Hp0 : posts [] = 0) by done. assert (Hd0 : downloads [] = 0) by done.
    rewrite Hp0, Hd0. split; [done|].
    split; [done|]. split; [done|]. split; [lia|].
    split; [lia|]. split; [intros _; simpl; lia | done]. }
  destruct (attempt_body net prompt aspect_ratio attempt c log)
    as [[e c1] log1] eqn:Hbody.
  apply attempt_body_facts in Hbody
    as [(added1 & -> & Hp1 & Hd1 & Hs1) Hk1 Ht1 Hsucc1 Hret1].
  assert (Hrest : ∀ extra, slept extra = 0 ∨ (e = FallsThrough ∧ slept extra = RETRY_DELAY) →
    attempts net prompt aspect_ratio retries rest c1 ((log ++ added1) ++ extra)
      = (res, c', log') →
    e ≠ Returns (default [] res) → posts extra = 0 → downloads extra = 0 →
    loop_facts (attempt :: rest) c log res c' log').
  { intros extra Hextra Hrun _ Hpe Hde. apply IH in Hrun
      as [(added2 & -> & Hp2 & Hd2 & Ht2 & Hsu2 & Hsl2 & Hone2) Hk2 Hsucc2 Hret2].
    split; try congruence; try lia.
    - exists (added1 ++ extra ++ added2). rewrite <- !app_assoc.
      split; [done|]. rewrite !posts_app, !downloads_app, !slept_app, Hp1, Hpe, Hde.
      simpl List.length. split; [lia|]. split; [lia|]. split; [lia|].
      split; [lia|]. split.
      + intros Hall. apply Forall_cons in Hall as [Ha Hall].
        specialize (Hsl2 Hall). simpl sleep_budget. rewrite Hs1.
        unfold RETRY_DELAY in *.
        destruct Hextra as [Hx | [He Hx]]; rewrite Hx;
          destruct e; try discriminate; lia.
      + intros Hres. specialize (Hone2 Hres). lia.
    - intros Hres. specialize (Hret2 Hres). lia. }
  destruct e as [data| |].
  - intros [= <- <- <-]. split; try done; try lia.
    + exists added1. split; [done|]. simpl List.length.
      rewrite Hs1. split; [lia|]. split; [lia|]. split; [lia|].
      split; [lia|]. split; [|lia].
      intros Hall. apply Forall_cons in Hall as [Ha Hall]. simpl sleep_budget.
      assert (0 ≤ sleep_budget rest).
      { clear -Hall. induction Hall; simpl; unfold RETRY_DELAY in *; lia. }
      unfold RETRY_DELAY. lia.
    + intros _. rewrite (Hret1 data eq_refl). lia.
  - intros Hrun. apply (Hrest []); try done; [by left | by rewrite app_nil_r].
  - destruct (attempt <? retries - 1).
    + intros Hrun. apply (Hrest [Sleep RETRY_DELAY]); try done.
      right. split; [done|]. simpl. lia.
    + intros Hrun. apply (Hrest []); try done; [by left | by rewrite app_nil_r].
Qed.

Lemma generate_image_facts net c log prompt aspect_ratio retries res c' log' :
  generate_image net c log prompt aspect_ratio retries = (res, c', log') →
  loop_facts (range retries) c log res c' log'.
Proof. apply attempts_facts. Qed.

Lemma length_range n : Z.of_nat (List.length (range n)) = Z.max 0 n.
Proof. unfold range. rewrite length_seqZ. lia. Qed.

Lemma range_nonneg n : Forall (fun attempt => 0 ≤ attempt) (range n).
Proof. apply Forall_forall. intros a Ha. apply elem_of_range in Ha. lia. Qed.

(** X9. A call of [generate_image] sends at most [retries] POST requests
    (none when [retries <= 0]), at most one download per POST, and
    [total_requests] grows by exactly the number of POSTs; an image is only
    returned after at least one request. *)
Theorem generate_image_request_budget
    net c log prompt aspect_ratio retries res c' log' :
  generate_image net c log prompt aspect_ratio retries = (res, c', log') →
  ∃ added,
    log' = log ++ added ∧
    0 ≤ posts added ≤ Z.max 0 retries ∧
    0 ≤ downloads added ≤ posts added ∧
    total_requests c' = total_requests c + posts added ∧
    (res ≠ None → 1 ≤ posts added) ∧
    api_key c' = api_key c.
Proof.
  intros Hrun. apply generate_image_facts in Hrun
    as [(added & -> & Hp & Hd & Ht & _ & _ & Hone) Hk _ _].
  rewrite length_range in Hp. exists added. done.
Qed.

(** X10. [generate_image] never lowers a counter, raises
    [successful_requests] by at most as much as [total_requests], and raises
    it when it returns an image. Hence the [failed_requests] reported by
    [get_cost_summary] never decreases, and for a client made by [__init__]
    it is never negative. *)
Theorem cost_summary_consistent
    net c log prompt aspect_ratio retries res c' log' :
  generate_image net c log prompt aspect_ratio retries = (res, c', log') →
  total_requests c ≤ total_requests c' ∧
  successful_requests c ≤ successful_requests c' ∧
  (res ≠ None → successful_requests c < successful_requests c') ∧
  sum_failed_requests (get_cost_summary c) ≤
    sum_failed_requests (get_cost_summary c') ∧
  (in_use c →
   0 ≤ sum_successful_requests (get_cost_summary c')
     ≤ sum_total_requests (get_cost_summary c') ∧
   0 ≤ sum_failed_requests (get_cost_summary c')).
Proof.
  intros Hrun.
  assert (Hstep : ∀ net c log prompt aspect_ratio retries res c' log',
    generate_image net c log prompt aspect_ratio retries = (res, c', log') →
    total_requests c ≤ total_requests c' ∧
    successful_requests c ≤ successful_requests c' ∧
    (res ≠ None → successful_requests c < successful_requests c') ∧
    successful_requests c' - successful_requests c
      ≤ total_requests c' - total_requests c).
  { clear. intros net c log prompt aspect_ratio retries res c' log' Hrun.
    apply generate_image_facts in Hrun
      as [(added & -> & Hp & Hd & Ht & Hs & _ & _) _ Hsucc Hret].
    split; [lia|]. split; [lia|]. split; [|lia].
    intros Hres. specialize (Hret Hres). lia. }
  assert (Hinv : ∀ c0, in_use c0 →
            0 ≤ successful_requests c0 ≤ total_requests c0).
  { induction 1 as [key | net0 c0 log0 p0 a0 r0 res0 c1 log1 _ IH Hcall].
    - simpl. lia.
    - apply Hstep in Hcall. lia. }
  destruct (Hstep _ _ _ _ _ _ _ _ _ Hrun) as (Ht & Hs & Hret & Hdiff).
  split; [done|]. split; [done|]. split; [done|]. simpl. split; [lia|].
  intros Huse. specialize (Hinv c Huse). lia.
Qed.

(** X11. The time a call of [generate_image] spends in [time.sleep] is at
    most [RETRY_DELAY * n * (n + 1)] seconds for [n = max(0, retries)], that
    is 24 seconds for the default of three attempts. *)
Theorem generate_image_sleep_bound
    net c log prompt aspect_ratio retries res c' log' :
  generate_image net c log prompt aspect_ratio retries = (res, c', log') →
  ∃ added,
    log' = log ++ added ∧
    0 ≤ slept added ≤ RETRY_DELAY * (Z.max 0 retries * (Z.max 0 retries + 1)) ∧
    (retries = MAX_RETRIES → slept added ≤ 24).
Proof.
  intros Hrun. apply generate_image_facts in Hrun
    as [(added & -> & _ & _ & _ & _ & Hs & _) _ _ _].
  specialize (Hs (range_nonneg retries)). rewrite sleep_budget_range in Hs.
  exists added. split; [done|]. split; [done|].
  intros ->. unfold MAX_RETRIES, RETRY_DELAY in *. lia.
Qed.

Lemma attempts_rate_limited net prompt aspect_ratio retries :
  (∀ l, ∃ r, net l = Responds r ∧ status_code r = 429) →
  ∀ todo c log,
    ∃ added,
      attempts net prompt aspect_ratio retries todo c log =
        (None,
         mkClient (api_key c) (total_cost c)
           (total_requests c + Z.of_nat (List.length todo))
           (successful_requests c),
         log ++ added) ∧
      posts added = Z.of_nat (List.length todo) ∧
      downloads added = 0 ∧
      slept added = sleep_budget todo.
Proof.
  intros Hnet. induction todo as [|attempt rest IH]; intros c log.
  - exists []. rewrite app_nil_r. simpl. rewrite Z.add_0_r.
    by destruct c.
  - simpl attempts. unfold attempt_body.
    set (post := Post OPENROUTER_API_URL (request_body prompt aspect_ratio) 120).
    destruct (Hnet (log ++ [post])) as (r & -> & Hstatus). rewrite Hstatus.
    simpl.
    destruct (IH (add_request c)
                ((log ++ [post]) ++ [Sleep (RETRY_DELAY * (attempt + 1) * 2)]))
      as (added & -> & Hp & Hd & Hs).
    set (extra := [post; Sleep (RETRY_DELAY * (attempt + 1) * 2)]).
    exists (extra ++ added). split.
    + rewrite <- !app_assoc. f_equal. f_equal. simpl. f_equal. lia.
    + rewrite posts_app, downloads_app, slept_app, Hp, Hd, Hs.
      assert (Hp1 : posts extra = 1) by done.
      assert (Hd1 : downloads extra = 0) by done.
      assert (Hs1 : slept extra = RETRY_DELAY * (attempt + 1) * 2)
        by (simpl; lia).
      rewrite Hp1, Hd1, Hs1. simpl List.length. simpl sleep_budget. lia.
Qed.

(** X12. When every request is answered with status 429, [generate_image]
    makes all [retries] attempts, sleeps [RETRY_DELAY * 2 * (attempt + 1)]
    seconds after each of them, the last one included, which adds up to the
    bound [RETRY_DELAY * retries * (retries + 1)], downloads nothing and
    returns [None] with [successful_requests] unchanged. *)
Theorem rate_limited_backoff net c log prompt aspect_ratio retries :
  (∀ l, ∃ r, net l = Responds r ∧ status_code r = 429) →
  0 ≤ retries →
  ∃ added,
    generate_image net c log prompt aspect_ratio retries =
      (None,
       mkClient (api_key c) (total_cost c) (total_requests c + retries)
         (successful_requests c),
       log ++ added) ∧
    posts added = retries ∧ downloads added = 0 ∧
    slept added = RETRY_DELAY * (retries * (retries + 1)).
Proof.
  intros Hnet Hn. unfold generate_image.
  destruct (attempts_rate_limited net prompt aspect_ratio retries Hnet
              (range retries) c log) as (added & Hrun & Hp & Hd & Hs).
  rewrite length_range, Z.max_r in Hrun, Hp by done.
  rewrite sleep_budget_range, Z.max_r in Hs by done.
  exists added. done.
Qed.

Lemma image_document_found url :
  String.prefix "data:image" url = true →
  reported_cost (image_document url) = Ok None ∧
  has_choices (image_document url) = Ok true ∧
  ∃ message,
    primary_image (image_document url) = Ok (message, DataUrl (base64_part url)).
Proof.
  intros Hprefix. split; [done|]. split; [done|].
  assert (Hurl : url ≠ EmptyString) by (intros ->; discriminate).
  assert (Hfirst :
    first_image_url (JDict [("image_url"%string, JDict [("url"%string, JStr url)])])
      = Ok (JStr url)).
  { unfold first_image_url. simpl. by rewrite bool_decide_eq_false_2 by done. }
  eexists. unfold primary_image, image_document. simpl.
  rewrite Hfirst. simpl. rewrite bool_decide_eq_false_2 by done. simpl.
  rewrite Hprefix. reflexivity.
Qed.

Lemma attempts_undecodable net prompt aspect_ratio retries url :
  String.prefix "data:image" url = true →
  b64decode (base64_part url) = None →
  (∀ l, ∃ r, net l = Responds r ∧ status_code r = 200 ∧
             json_body r = Some (image_document url)) →
  ∀ todo c log,
    ∃ log',
      attempts net prompt aspect_ratio retries todo c log =
        (None,
         mkClient (api_key c) (total_cost c)
           (total_requests c + Z.of_nat (List.length todo))
           (successful_requests c + Z.of_nat (List.length todo)),
         log').
Proof.
  intros Hprefix Hdecode Hnet.
  destruct (image_document_found url Hprefix) as (Hcost & Hchoices & message & Hprim).
  induction todo as [|attempt rest IH]; intros c log.
  - exists log. simpl. rewrite !Z.add_0_r. by destruct c.
  - simpl attempts. unfold attempt_body.
    set (post := Post OPENROUTER_API_URL (request_body prompt aspect_ratio) 120).
    destruct (Hnet (log ++ [post])) as (r & -> & Hstatus & Hbody).
    rewrite Hstatus. simpl. unfold handle_ok.
    rewrite Hbody, Hcost, Hchoices, Hprim. unfold decode_and_return.
    rewrite Hdecode.
    set (log1 := if attempt <? retries - 1
                 then (log ++ [post]) ++ [Sleep RETRY_DELAY] else log ++ [post]).
    destruct (IH (add_success (add_request c)) log1) as (log' & ->).
    exists log'. f_equal. f_equal. simpl. f_equal; lia.
Qed.

(** X13. [successful_requests] is raised before the base64 payload is
    decoded. When every answer is a 200 response whose image is a
    "data:image" URL that [b64decode] rejects, [generate_image] returns
    [None] after [retries] attempts, yet every attempt is counted as
    successful: [failed_requests] does not move. *)
Theorem undecodable_images_counted_successful
    net c log prompt aspect_ratio retries url :
  String.prefix "data:image" url = true →
  b64decode (base64_part url) = None →
  (∀ l, ∃ r, net l = Responds r ∧ status_code r = 200 ∧
             json_body r = Some (image_document url)) →
  0 ≤ retries →
  ∃ c' log',
    generate_image net c log prompt aspect_ratio retries = (None, c', log') ∧
    total_requests c' = total_requests c + retries ∧
    successful_requests c' = successful_requests c + retries ∧
    sum_failed_requests (get_cost_summary c') =
      sum_failed_requests (get_cost_summary c).
Proof.
  intros Hprefix Hdecode Hnet Hn. unfold generate_image.
  destruct (attempts_undecodable net prompt aspect_ratio retries url
              Hprefix Hdecode Hnet (range retries) c log) as (log' & ->).
  rewrite length_range, Z.max_r by done.
  eexists _, log'. split; [done|]. simpl. lia.
Qed.





End client_facts.

(** One image served as a data URL on the first attempt. *)
Lemma generate_image_request_budget_witness :
  ∃ res c' log',
    generate_image
      (always_serves (image_document "data:image/png;base64,QQ=="))
      example_client [] "a tile" "16:9" 3 = (res, c', log') ∧
    res = Some [Byte.x41] ∧
    ∃ added,
      log' = [] ++ added ∧
      0 ≤ posts added ≤ Z.max 0 3 ∧
      0 ≤ downloads added ≤ posts added ∧
      total_requests c' = total_requests example_client + posts added ∧
      (res ≠ None → 1 ≤ posts added) ∧
      api_key c' = api_key example_client.
Proof.
  assert (Hrun : ∃ res c' log',
    generate_image
      (always_serves (image_document "data:image/png;base64,QQ=="))
      example_client [] "a tile" "16:9" 3 = (res, c', log') ∧
    res = Some [Byte.x41]).
  { eexists _, _, _. split; vm_compute; reflexivity. }
  destruct Hrun as (res & c' & log' & Hrun & Hres).
  exists res, c', log'. split; [exact Hrun|]. split; [exact Hres|].
  exact (generate_image_request_budget _ _ _ _ _ _ _ _ _ Hrun).
Defined.

(** Three attempts answered with status 500. *)
Lemma cost_summary_consistent_witness :
  ∃ res c' log',
    generate_image (always_status 500)
      example_client [] "a tile" "16:9" 3 = (res, c', log') ∧
    sum_failed_requests (get_cost_summary c') = 3 ∧
    total_requests example_client ≤ total_requests c' ∧
    successful_requests example_client ≤ successful_requests c'.
Proof.
  assert (Hrun : ∃ res c' log',
    generate_image (always_status 500)
      example_client [] "a tile" "16:9" 3 = (res, c', log') ∧
    sum_failed_requests (get_cost_summary c') = 3).
  { eexists _, _, _. split; vm_compute; reflexivity. }
  destruct Hrun as (res & c' & log' & Hrun & Hfailed).
  exists res, c', log'. split; [exact Hrun|]. split; [exact Hfailed|].
  destruct (cost_summary_consistent _ _ _ _ _ _ _ _ _ Hrun) as (Ht & Hs & _).
  split; [exact Ht | exact Hs].
Defined.

(** Three attempts answered with status 500: two pauses of two seconds. *)
Lemma generate_image_sleep_bound_witness :
  ∃ res c' log',
    generate_image (always_status 500)
      example_client [] "a tile" "16:9" 3 = (res, c', log') ∧
    slept log' = 4 ∧
    ∃ added,
      log' = [] ++ added ∧
      0 ≤ slept added ≤ RETRY_DELAY * (Z.max 0 3 * (Z.max 0 3 + 1)) ∧
      (3 = MAX_RETRIES → slept added ≤ 24).
Proof.
  assert (Hrun : ∃ res c' log',
    generate_image (always_status 500)
      example_client [] "a tile" "16:9" 3 = (res, c', log') ∧
    slept log' = 4).
  { eexists _, _, _. split; vm_compute; reflexivity. }
  destruct Hrun as (res & c' & log' & Hrun & Hslept).
  exists res, c', log'. split; [exact Hrun|]. split; [exact Hslept|].
  exact (generate_image_sleep_bound _ _ _ _ _ _ _ _ _ Hrun).
Defined.

(** Three attempts answered with status 429: 4 + 8 + 12 seconds. *)
Lemma rate_limited_backoff_witness :
  (∀ l, ∃ r, always_status 429 l = Responds r ∧ status_code r = 429) ∧
  0 ≤ 3 ∧
  ∃ added,
    generate_image (always_status 429)
      example_client [] "a tile" "16:9" 3 =
      (None, mkClient (H := example_runtime) "key" 0 3 0, [] ++ added) ∧
    posts added = 3 ∧ downloads added = 0 ∧
    slept added = RETRY_DELAY * (3 * (3 + 1)).
Proof.
  assert (Hnet : ∀ l, ∃ r, always_status 429 l = Responds r ∧ status_code r = 429).
  { intros l. by eexists. }
  split; [exact Hnet|]. split; [lia|].
  apply (rate_limited_backoff (always_status 429)
           example_client [] "a tile" "16:9" 3 Hnet). lia.
Defined.

(** A data URL whose payload the example runtime cannot decode. *)
Lemma undecodable_images_counted_successful_witness :
  String.prefix "data:image" "data:image/png;base64,!!" = true ∧
  b64decode (Runtime := example_runtime)
    (base64_part "data:image/png;base64,!!") = None ∧
  (∀ l, ∃ r,
     always_serves (image_document "data:image/png;base64,!!") l = Responds r ∧
     status_code r = 200 ∧
     json_body r = Some (image_document "data:image/png;base64,!!")) ∧
  0 ≤ 3 ∧
  ∃ c' log',
    generate_image
      (always_serves (image_document "data:image/png;base64,!!"))
      example_client [] "a tile" "16:9" 3 = (None, c', log') ∧
    total_requests c' = total_requests example_client + 3 ∧
    successful_requests c' = successful_requests example_client + 3 ∧
    sum_failed_requests (get_cost_summary c') =
      sum_failed_requests (get_cost_summary example_client).
Proof.
  assert (Hnet : ∀ l, ∃ r,
     always_serves (image_document "data:image/png;base64,!!") l = Responds r ∧
     status_code r = 200 ∧
     json_body r = Some (image_document "data:image/png;base64,!!")).
  { intros l. by eexists. }
  split; [reflexivity|]. split; [reflexivity|]. split; [exact Hnet|].
  split; [lia|].
  apply (undecodable_images_counted_successful
           (always_serves (image_document "data:image/png;base64,!!"))
           example_client [] "a tile" "16:9" 3
           "data:image/png;base64,!!"); [reflexivity | reflexivity | exact Hnet | lia].
Defined.


(** * Properties of the generators and of [main] *)

Lemma writes_app l k : writes (l ++ k) = writes l + writes k.
Proof. unfold writes. rewrite List.filter_app, List.length_app. lia. Qed.

Lemma mkdirs_app l k : mkdirs (l ++ k) = mkdirs l + mkdirs k.
Proof. unfold mkdirs. rewrite List.filter_app, List.length_app. lia. Qed.

Lemma posts_nonneg l : 0 ≤ posts l.
Proof. unfold posts. lia. Qed.

Lemma downloads_nonneg l : 0 ≤ downloads l.
Proof. unfold downloads. lia. Qed.

Lemma writes_nonneg l : 0 ≤ writes l.
Proof. unfold writes. lia. Qed.

Lemma mkdirs_nonneg l : 0 ≤ mkdirs l.
Proof. unfold mkdirs. lia. Qed.

Lemma network_only_counts added :
  Forall (fun e => is_network e = true) added →
  writes added = 0 ∧ mkdirs added = 0 ∧
  ∀ i path data, added !! i ≠ Some (WriteBytes path data).
Proof.
  induction 1 as [|e l He _ (Hw & Hm & Hno)].
  - split; [done|]. split; [done|]. by intros [|i].
  - change (e :: l) with ([e] ++ l). rewrite writes_app, mkdirs_app, Hw, Hm.
    split; [by destruct e|]. split; [by destruct e|].
    intros [|i] path data; simpl; [|apply Hno].
    intros [= ->]. done.
Qed.

Lemma well_placed_nil ok_dir : well_placed ok_dir [].
Proof. intros i path data Hi. by rewrite lookup_nil in Hi. Qed.

Lemma well_placed_app ok_dir l k :
  well_placed ok_dir l → well_placed ok_dir k → well_placed ok_dir (l ++ k).
Proof.
  intros Hl Hk i path data Hi. apply lookup_app_Some in Hi as [Hi | [Hlen Hi]].
  - destruct (Hl i path data Hi) as (j & dir & stem & Hj & Hdir & Hpath & Hok).
    exists j, dir, stem. split; [done|]. split; [|done].
    by apply lookup_app_l_Some.
  - destruct (Hk _ path data Hi) as (j & dir & stem & Hj & Hdir & Hpath & Hok).
    exists (length l + j)%nat, dir, stem. split; [lia|]. split; [|done].
    rewrite lookup_app_r by lia. rewrite <- Hdir. f_equal. lia.
Qed.

Lemma well_placed_no_writes ok_dir added :
  (∀ i path data, added !! i ≠ Some (WriteBytes path data)) →
  well_placed ok_dir added.
Proof. intros Hno i path data Hi. by apply Hno in Hi. Qed.

Lemma segment_facts_nil ok_dir dry_run : segment_facts ok_dir dry_run [].
Proof.
  split; done.
Qed.

Lemma segment_facts_app ok_dir dry_run l k :
  segment_facts ok_dir dry_run l → segment_facts ok_dir dry_run k →
  segment_facts ok_dir dry_run (l ++ k).
Proof.
  intros [Hp1 Hd1 Hs1 Hw1 Hpl1 Hdry1] [Hp2 Hd2 Hs2 Hw2 Hpl2 Hdry2].
  split; rewrite ?posts_app, ?downloads_app, ?slept_app, ?writes_app, ?mkdirs_app.
  - unfold MAX_RETRIES in *. lia.
  - lia.
  - lia.
  - lia.
  - by apply well_placed_app.
  - intros Hdry. apply Forall_app. split; auto.
Qed.

Section generator_facts.
Context `{Runtime}.

Lemma handle_ok_network net c log r e c' log' :
  handle_ok net c log r = (e, c', log') →
  ∃ added, log' = log ++ added ∧ Forall (fun x => is_network x = true) added.
Proof.
  unfold handle_ok.
  assert (Hstay : ∀ (e0 : attempt_end) (c0 : client),
    (e0, c0, log) = (e, c', log') →
    ∃ added, log' = log ++ added ∧ Forall (fun x => is_network x = true) added).
  { intros e0 c0 [= <- <- <-]. exists []. by rewrite app_nil_r. }
  destruct (json_body r) as [data|]; [|by apply Hstay].
  destruct (reported_cost data) as [cost|]; [|by apply Hstay].
  destruct (has_choices data) as [[|]|]; [|(by apply Hstay)..].
  destruct (primary_image data) as [[message [b|url|]]|]; [| | |by apply Hstay].
  - intros Hd. apply decode_and_return_facts in Hd as (-> & _).
    exists []. by rewrite app_nil_r.
  - destruct (net (log ++ [Get url 60])) as [ex|resp].
    + intros [= <- <- <-]. exists [Get url 60]. split; [done|]. by constructor.
    + destruct (status_code resp =? 200).
      * intros [= <- <- <-]. exists [Get url 60]. split; [done|]. by constructor.
      * intros Hf. apply try_fallback_facts in Hf as (-> & _).
        exists [Get url 60]. split; [done|]. by constructor.
  - intros Hf. apply try_fallback_facts in Hf as (-> & _).
    exists []. by rewrite app_nil_r.
Qed.

Lemma attempts_network net prompt aspect_ratio retries todo :
  ∀ c log res c' log',
    attempts net prompt aspect_ratio retries todo c log = (res, c', log') →
    ∃ added, log' = log ++ added ∧ Forall (fun x => is_network x = true) added.
Proof.
  induction todo as [|attempt rest IH]; intros c log res c' log'; simpl.
  { intros [= <- <- <-]. exists []. by rewrite app_nil_r. }
  unfold attempt_body.
  set (post := Post OPENROUTER_API_URL (request_body prompt aspect_ratio) 120).
  assert (Hnext : ∀ c1 extra,
    Forall (fun x => is_network x = true) extra →
    attempts net prompt aspect_ratio retries rest c1 (log ++ extra)
      = (res, c', log') →
    ∃ added, log' = log ++ added ∧ Forall (fun x => is_network x = true) added).
  { intros c1 extra Hextra Hrun. apply IH in Hrun as (added & -> & Hadded).
    exists (extra ++ added). rewrite <- app_assoc. split; [done|].
    by apply Forall_app. }
  assert (Hpause : ∀ c1 extra,
    Forall (fun x => is_network x = true) extra →
    attempts net prompt aspect_ratio retries rest c1
      (if attempt <? retries - 1 then (log ++ extra) ++ [Sleep RETRY_DELAY]
       else log ++ extra) = (res, c', log') →
    ∃ added, log' = log ++ added ∧ Forall (fun x => is_network x = true) added).
  { intros c1 extra Hextra. destruct (attempt <? retries - 1).
    - rewrite <- app_assoc. apply Hnext. apply Forall_app. split; [done|].
      by constructor.
    - by apply Hnext. }
  assert (Hpost : Forall (fun x => is_network x = true) [post]) by by constructor.
  destruct (net (log ++ [post])) as [ex|r].
  { by apply Hpause. }
  destruct (status_code r =? 200).
  - destruct (handle_ok net (add_request c) (log ++ [post]) r)
      as [[e c1] log1] eqn:Hok.
    apply handle_ok_network in Hok as (added1 & -> & Hadded1).
    rewrite <- app_assoc.
    assert (Hboth : Forall (fun x => is_network x = true) ([post] ++ added1))
      by by apply Forall_app.
    destruct e as [d| |].
    + intros [= <- <- <-]. by exists ([post] ++ added1).
    + by apply Hnext.
    + rewrite (app_assoc log). rewrite <- (app_assoc log [post] added1).
      by apply Hpause.
  - destruct (status_code r =? 429).
    + rewrite <- app_assoc. apply Hnext. apply Forall_app. split; [done|].
      by constructor.
    + by apply Hpause.
Qed.

(** One call of [generate_image] with the default number of attempts. *)
Lemma generate_image_default net cl log prompt aspect_ratio res cl' log' :
  generate_image net cl log prompt aspect_ratio MAX_RETRIES = (res, cl', log') →
  ∃ added,
    log' = log ++ added ∧
    Forall (fun x => is_network x = true) added ∧
    0 ≤ posts added ≤ MAX_RETRIES ∧
    0 ≤ downloads added ≤ posts added ∧
    0 ≤ slept added ≤ 24 ∧
    api_key cl' = api_key cl ∧
    total_requests cl' = total_requests cl + posts added.
Proof.
  intros Hrun.
  destruct (attempts_network _ _ _ _ _ _ _ _ _ _ Hrun) as (added & -> & Hnet).
  apply generate_image_facts in Hrun
    as [(added' & Heq & Hp & Hd & Ht & _ & Hs & _) Hk _ _].
  apply app_inv_head in Heq as <-.
  specialize (Hs (range_nonneg MAX_RETRIES)).
  rewrite sleep_budget_range in Hs. rewrite length_range in Hp.
  exists added. unfold MAX_RETRIES, RETRY_DELAY in *.
  split; [done|]. split; [done|]. split; [lia|]. split; [lia|].
  split; [lia|]. done.
Qed.
End generator_facts.

Section call_facts_proofs.
Context `{Runtime}.

Lemma crash_cause_mono dsk dry_run (P Q : exn → Prop) e log :
  (∀ x, P x → Q x) →
  crash_cause dsk dry_run P e log → crash_cause dsk dry_run Q e log.
Proof.
  intros HPQ [l Hl | x l b Hdry Hp Hr | x l Hx].
  - by constructor.
  - by econstructor 2.
  - constructor 3. auto.
Qed.


Lemma fetch_and_save_facts net dsk (other : exn → Prop) c log prompt
    aspect_ratio dir stem r c' log' :
  (c = None → other AttributeError) →
  fetch_and_save net dsk c log prompt aspect_ratio (dir ++ [stem +:+ ".png"])
    = (r, c', log') →
  ∃ added,
    log' = log ++ added ∧
    0 ≤ posts added ≤ MAX_RETRIES ∧
    0 ≤ downloads added ≤ posts added ∧
    0 ≤ slept added ≤ 24 ∧
    mkdirs added = 0 ∧
    0 ≤ writes added ≤ 1 ∧
    (∀ i path data, added !! i = Some (WriteBytes path data) →
       path = dir ++ [stem +:+ ".png"]) ∧
    client_after c c' added ∧
    (∀ ok, r = Ok ok → writes added = if ok then 1 else 0) ∧
    (∀ e, r = Raise e → crash_cause dsk false other e log').
Proof.
  intros Hother. unfold fetch_and_save. destruct c as [cl|].
  2:{ intros [= <- <- <-]. exists []. rewrite app_nil_r.
      do 6 (split; [done|]). split; [by intros [|i]|]. split; [done|].
      split; [done|]. intros e [= <-]. constructor 3. by apply Hother. }
  destruct (generate_image net cl log prompt aspect_ratio MAX_RETRIES)
    as [[res cl1] log1] eqn:Hgi.
  apply generate_image_default in Hgi
    as (added & -> & Hnet & Hp & Hd & Hs & Hk & Ht).
  destruct (network_only_counts added Hnet) as (Hw & Hm & Hno).
  assert (Hclient : client_after (Some cl) (Some cl1) added)
    by (by exists cl1).
  assert (Hfalse : (Ok false, Some cl1, log ++ added) = (r, c', log') →
    ∃ added0,
      log' = log ++ added0 ∧ 0 ≤ posts added0 ≤ MAX_RETRIES ∧
      0 ≤ downloads added0 ≤ posts added0 ∧ 0 ≤ slept added0 ≤ 24 ∧
      mkdirs added0 = 0 ∧ 0 ≤ writes added0 ≤ 1 ∧
      (∀ i path data, added0 !! i = Some (WriteBytes path data) →
         path = dir ++ [stem +:+ ".png"]) ∧
      client_after (Some cl) c' added0 ∧
      (∀ ok, r = Ok ok → writes added0 = if ok then 1 else 0) ∧
      (∀ e, r = Raise e → crash_cause dsk false other e log')).
  { intros [= <- <- <-]. exists added. do 4 (split; [done|]).
    split; [done|]. split; [lia|]. split; [intros i p d Hi; by apply Hno in Hi|].
    split; [done|]. split; [by intros ok [= <-]|]. by intros e [=]. }
  destruct res as [[|b rest]|]; [by apply Hfalse| |by apply Hfalse].
  set (output_path := dir ++ [stem +:+ ".png"]).
  assert (Hsaved : ∀ image_data,
    (let log2 := (log ++ added) ++ [WriteBytes output_path image_data] in
     if dsk log2 then (Ok true, Some cl1, log2)
     else (Raise OSError, Some cl1, log2)) = (r, c', log') →
    ∃ added0,
      log' = log ++ added0 ∧ 0 ≤ posts added0 ≤ MAX_RETRIES ∧
      0 ≤ downloads added0 ≤ posts added0 ∧ 0 ≤ slept added0 ≤ 24 ∧
      mkdirs added0 = 0 ∧ 0 ≤ writes added0 ≤ 1 ∧
      (∀ i path data, added0 !! i = Some (WriteBytes path data) →
         path = output_path) ∧
      client_after (Some cl) c' added0 ∧
      (∀ ok, r = Ok ok → writes added0 = if ok then 1 else 0) ∧
      (∀ e, r = Raise e → crash_cause dsk false other e log')).
  { intros image_data. cbn zeta.
    set (w := WriteBytes output_path image_data).
    assert (Hfacts :
      0 ≤ posts (added ++ [w]) ≤ MAX_RETRIES ∧
      0 ≤ downloads (added ++ [w]) ≤ posts (added ++ [w]) ∧
      0 ≤ slept (added ++ [w]) ≤ 24 ∧ mkdirs (added ++ [w]) = 0 ∧
      writes (added ++ [w]) = 1 ∧
      (∀ i path data, (added ++ [w]) !! i = Some (WriteBytes path data) →
         path = output_path) ∧
      client_after (Some cl) (Some cl1) (added ++ [w])).
    { rewrite posts_app, downloads_app, slept_app, mkdirs_app, writes_app, Hw, Hm.
      assert (Hp1 : posts [w] = 0) by done.
      assert (Hd1 : downloads [w] = 0) by done.
      assert (Hs1 : slept [w] = 0) by done.
      assert (Hm1 : mkdirs [w] = 0) by done.
      assert (Hw1 : writes [w] = 1) by done.
      rewrite Hp1, Hd1, Hs1, Hm1, Hw1, !Z.add_0_r.
      do 5 (split; [done|]). split.
      - intros i path data Hi. apply lookup_app_Some in Hi as [Hi | [_ Hi]].
        + by apply Hno in Hi.
        + destruct (i - length added)%nat; [|done]. simpl in Hi. by injection Hi.
      - exists cl1. rewrite posts_app, Hp1, Z.add_0_r. done. }
    destruct Hfacts as (Hp2 & Hd2 & Hs2 & Hm2 & Hw2 & Hpath & Hcl).
    destruct (dsk ((log ++ added) ++ [w])) eqn:Hdsk; intros [= <- <- <-];
      exists (added ++ [w]); rewrite app_assoc;
      (split; [done|]); do 4 (split; [done|]); (split; [lia|]);
      (split; [done|]); (split; [done|]).
    - split; [by intros ok [= <-]|]. by intros e [=].
    - split; [by intros ok [=]|]. intros e [= <-]. by constructor. }
  destruct HAS_PIL eqn:Hpil; [|by apply Hsaved].
  destruct (remove_chroma_key_background_bytes (b :: rest) 70 10)
    as [image_data|e] eqn:Hproc; [by apply Hsaved|].
  intros [= <- <- <-]. exists added. do 4 (split; [done|]).
  split; [done|]. split; [lia|]. split; [intros i p d Hi; by apply Hno in Hi|].
  split; [done|]. split; [by intros ok [=]|].
  intros e0 [= <-]. by econstructor 2.
Qed.
End call_facts_proofs.

Section generator_call_facts.
Context `{Runtime}.

Lemma client_after_same c (added : list effect) :
  posts added = 0 → client_after c c added.
Proof.
  intros Hp. destruct c as [cl|]; [|done]. exists cl. rewrite Hp. split; [done|].
  split; [done|]. lia.
Qed.

(** Both generators from the [mkdir] on. *)
Lemma created_then_fetched net dsk (other : exn → Prop) (ok_dir : Path → Prop)
    dry_run c log subdir stem prompt (ar : result string) r c' log' :
  ok_dir subdir →
  (c = None → dry_run = false → other AttributeError) →
  (∀ e, ar = Raise e → dry_run = false → other e) →
  (let log1 := log ++ [Mkdir subdir] in
   if negb (dsk log1) then (Raise OSError, c, log1)
   else if dry_run then (Ok true, c, log1)
   else match ar with
        | Raise e => (Raise e, c, log1)
        | Ok aspect_ratio =>
          fetch_and_save net dsk c log1 prompt aspect_ratio
            (subdir ++ [stem +:+ ".png"])
        end) = (r, c', log') →
  call_facts dsk other ok_dir dry_run c log r c' log'.
Proof.
  intros Hok Hclient Har. cbn zeta.
  set (m := Mkdir subdir).
  assert (Hp1 : posts [m] = 0) by done.
  assert (Hd1 : downloads [m] = 0) by done.
  assert (Hs1 : slept [m] = 0) by done.
  assert (Hm1 : mkdirs [m] = 1) by done.
  assert (Hw1 : writes [m] = 0) by done.
  assert (Hseg1 : segment_facts ok_dir dry_run [m]).
  { split; rewrite ?Hp1, ?Hd1, ?Hs1, ?Hm1, ?Hw1; try done.
    - intros [|[|i]] path data Hi; done.
    - intros _. by constructor. }
  assert (Honly : ∀ (r0 : result bool),
    (r0, c, log ++ [m]) = (r, c', log') →
    (∀ ok, r0 = Ok ok → ok = true ∧ dry_run = true) →
    (∀ e, r0 = Raise e → crash_cause dsk dry_run other e (log ++ [m])) →
    call_facts dsk other ok_dir dry_run c log r c' log').
  { intros r0 [= <- <- <-] Hres Hcause. split; [|done].
    exists [m]. split; [done|]. split; [done|]. rewrite Hs1, Hm1.
    split; [done|]. split; [done|]. split; [by apply client_after_same|].
    intros ok Hr. destruct (Hres ok Hr) as [-> Hdry]. split; [done|].
    split; [done|]. intros Hnot. congruence. }
  destruct (dsk (log ++ [m])) eqn:Hdsk; simpl.
  2:{ intros Heq. apply (Honly _ Heq); [done|]. intros e [= <-]. by constructor. }
  destruct dry_run eqn:Hdry.
  { intros Heq. apply (Honly _ Heq); [by intros ok [= <-]|done]. }
  destruct ar as [aspect_ratio|e].
  2:{ intros Heq. apply (Honly _ Heq); [done|]. intros e0 [= <-].
      constructor 3. by apply Har. }
  intros Hfetch.
  apply (fetch_and_save_facts net dsk other) in Hfetch
    as (added & -> & Hp & Hd & Hs & Hm & Hw & Hpath & Hcl & Hres & Hcause);
    [|by auto].
  split; [|by rewrite <- app_assoc in Hcause |- *].
  exists ([m] ++ added). rewrite <- app_assoc. split; [done|].
  rewrite slept_app, mkdirs_app, Hs1, Hm1, Hm.
  split.
  - split; rewrite ?posts_app, ?downloads_app, ?slept_app, ?writes_app,
      ?mkdirs_app, ?Hp1, ?Hd1, ?Hs1, ?Hm1, ?Hw1, ?Hm.
    + unfold MAX_RETRIES in *. lia.
    + lia.
    + lia.
    + lia.
    + intros [|i] path data Hi; [done|]. simpl in Hi.
      apply Hpath in Hi as ->. exists 0%nat, subdir, stem.
      split; [lia|]. done.
    + done.
  - split; [lia|]. split; [lia|]. split.
    + destruct c as [cl|]; [|done]. destruct Hcl as (cl' & -> & Hk & Ht).
      exists cl'. rewrite posts_app, Hp1. done.
    + intros ok Hr. split; [done|]. split; [done|]. intros _.
      rewrite writes_app, Hw1. by rewrite (Hres ok Hr).
Qed.

Lemma generate_biome_tile_facts net dsk (ok_dir : Path → Prop) c log biome
    output_dir variant dry_run r c' log' :
  (∀ suffix, ok_dir (output_dir ++ suffix)) →
  generate_biome_tile net dsk c log biome output_dir variant dry_run
    = (r, c', log') →
  call_facts dsk (tile_trouble variant dry_run c) ok_dir dry_run c log r c' log'.
Proof.
  intros Hok. unfold generate_biome_tile.
  assert (Hclient : c = None → dry_run = false →
            tile_trouble variant dry_run c AttributeError) by (by right).
  destruct variant as [v|].
  - destruct (dict_get v AUTOTILE_VARIANTS) as [[variant_name variant_desc]|]
      eqn:Hv.
    + intros Hrun.
      apply (created_then_fetched net dsk _ ok_dir dry_run c log
               (output_dir ++ [name biome]) (pretty v)
               (variant_prompt biome v variant_name variant_desc)
               (Ok "16:9")); [apply Hok | done | done | exact Hrun].
    + intros [= <- <- <-]. split.
      * exists []. rewrite app_nil_r. split; [done|].
        split; [apply segment_facts_nil|]. split; [done|]. split; [done|].
        split; [by apply client_after_same|]. done.
      * intros e [= <-]. constructor 3. left. split; [done|]. by exists v.
  - intros Hrun.
    apply (created_then_fetched net dsk _ ok_dir dry_run c log
             output_dir (name biome) (center_prompt biome)
             (Ok "16:9")); [|done|done|exact Hrun].
    rewrite <- (app_nil_r output_dir). apply Hok.
Qed.

Lemma generate_building_facts net dsk (ok_dir : Path → Prop) c log
    building_name config output_dir dry_run r c' log' :
  ok_dir output_dir →
  generate_building net dsk c log building_name config output_dir dry_run
    = (r, c', log') →
  call_facts dsk (building_trouble config dry_run c) ok_dir dry_run c log
    r c' log'.
Proof.
  intros Hok. unfold generate_building, building_trouble.
  destruct (building_size config) as [width height]. simpl.
  intros Hrun.
  apply (created_then_fetched net dsk _ ok_dir dry_run c log
           output_dir building_name (building_prompt_text config)
           (building_aspect_ratio width height));
    [done | by right | | exact Hrun].
  intros e He Hdry. by left.
Qed.
End generator_call_facts.

Lemma dict_get_None {K A : Type} `{EqDecision K} (key : K)
    (items : list (K * A)) :
  dict_get key items = None → key ∉ items.*1.
Proof.
  induction items as [|[k v] rest IH]; simpl; [set_solver|].
  destruct (decide (k = key)) as [-> | Hne]; [done|].
  intros Hrest. apply IH in Hrest. set_solver.
Qed.

Section run_proofs.
Context `{Runtime}.

Lemma client_after_trans c c1 c2 (a1 a2 : list effect) :
  client_after c c1 a1 → client_after c1 c2 a2 → client_after c c2 (a1 ++ a2).
Proof.
  destruct c as [cl|]; simpl.
  - intros (cl1 & -> & Hk1 & Ht1) (cl2 & -> & Hk2 & Ht2). exists cl2.
    rewrite posts_app. split; [done|]. split; [congruence|]. lia.
  - by intros -> ->.
Qed.

Lemma client_after_none c c' (added : list effect) :
  client_after c c' added → c' = None → c = None.
Proof. destruct c as [cl|]; [|done]. by intros (cl' & -> & _). Qed.

Lemma run_trouble_earlier args c c' (added : list effect) e :
  client_after c c' added → run_trouble args c' e → run_trouble args c e.
Proof.
  intros Hcl [Hkey | [(He & Hc & Hdry) | Hsize]].
  - by left.
  - right. left. split; [done|]. split; [|done]. by eapply client_after_none.
  - by right; right.
Qed.

Lemma progress_facts_start dsk args st :
  progress_facts dsk args 0 st (Running st).
Proof.
  split; [|done]. exists []. simpl. rewrite app_nil_r. split; [done|].
  split; [apply segment_facts_nil|]. split; [done|].
  split; [by apply client_after_same|].
  intros st0 [= <-]. split; [done|]. do 2 (split; [lia|]). split; [lia|].
  split; [done|]. intros _. unfold writes. simpl. lia.
Qed.

Lemma progress_facts_then dsk args n1 n2 st0 st1 r :
  progress_facts dsk args n1 st0 (Running st1) →
  progress_facts dsk args n2 st1 r →
  progress_facts dsk args (n1 + n2) st0 r.
Proof.
  intros [(a1 & Hlog1 & Hseg1 & Hm1 & Hcl1 & Hrun1) _]
         [(a2 & Hlog2 & Hseg2 & Hm2 & Hcl2 & Hrun2) Hcause2].
  simpl in Hlog1, Hcl1.
  destruct (Hrun1 st1 eq_refl) as (Hn1 & Hs1 & Hf1 & Hsum1 & Hdry1 & Hw1).
  split.
  - exists (a1 ++ a2). rewrite Hlog2, Hlog1, <- app_assoc. split; [done|].
    split; [by apply segment_facts_app|]. rewrite mkdirs_app, writes_app.
    split; [lia|]. split; [by eapply client_after_trans|].
    intros st Hr. destruct (Hrun2 st Hr) as (Hn2 & Hs2 & Hf2 & Hsum2 & Hdry2 & Hw2).
    split; [lia|]. do 2 (split; [lia|]). split; [lia|]. split.
    + intros Hdry. rewrite (Hdry2 Hdry). auto.
    + intros Hdry. rewrite (Hw1 Hdry), (Hw2 Hdry). lia.
  - intros e st Hr. eapply crash_cause_mono; [|by eapply Hcause2].
    intros x. by eapply run_trouble_earlier.
Qed.

Lemma progress_facts_stopped dsk args n1 n2 st0 e st :
  0 ≤ n2 →
  progress_facts dsk args n1 st0 (Crashed e st) →
  progress_facts dsk args (n1 + n2) st0 (Crashed e st).
Proof.
  intros Hn2 [(a1 & Hlog1 & Hseg1 & Hm1 & Hcl1 & Hrun1) Hcause]. split; [|done].
  exists a1. split; [done|]. split; [done|]. split; [lia|]. split; [done|].
  by intros st' [=].
Qed.

Lemma progress_facts_key_error dsk args n st :
  0 ≤ n → ¬ biome_known args →
  progress_facts dsk args n st (Crashed KeyError st).
Proof.
  intros Hn Hunknown. split.
  - exists []. simpl. rewrite app_nil_r. split; [done|].
    split; [apply segment_facts_nil|]. split; [done|].
    split; [by apply client_after_same|]. by intros st' [=].
  - intros e st' [= <- <-]. constructor 3. by left.
Qed.

Lemma account_facts dsk args (other : exn → Prop) st r c' log' :
  call_facts dsk other (asset_dir (args_output_dir args)) (args_dry_run args)
    (the_client st) (the_log st) r c' log' →
  (∀ e, other e → run_trouble args (the_client st) e) →
  progress_facts dsk args 1 st (account (args_dry_run args) st (r, c', log')).
Proof.
  intros [(added & -> & Hseg & Hs & Hm & Hcl & Hres) Hcause] Hother.
  unfold account. destruct r as [ok|e].
  2:{ split.
      - exists added. simpl. split; [done|]. split; [done|]. split; [done|].
        split; [done|]. by intros st' [=].
      - intros e0 st' [= <- <-]. simpl. eapply crash_cause_mono; [|by apply Hcause].
        done. }
  destruct (Hres ok eq_refl) as (Hone & Hdry & Hwrite).
  set (pause := if args_dry_run args then [] else [Sleep 1]).
  assert (Hlog : (if args_dry_run args then the_log st ++ added
                  else (the_log st ++ added) ++ [Sleep 1])
                 = the_log st ++ (added ++ pause)).
  { unfold pause. destruct (args_dry_run args); [by rewrite app_nil_r|].
    by rewrite app_assoc. }
  rewrite Hlog.
  assert (Hpause : posts pause = 0 ∧ downloads pause = 0 ∧ mkdirs pause = 0 ∧
                   writes pause = 0 ∧ 0 ≤ slept pause ≤ 1 ∧
                   (args_dry_run args = true → pause = [])).
  { unfold pause. destruct (args_dry_run args); done. }
  destruct Hpause as (Hp0 & Hd0 & Hm0 & Hw0 & Hs0 & Hnil).
  destruct Hseg as [Hp Hd _ Hw Hplaced Honly].
  assert (Hseg : segment_facts (asset_dir (args_output_dir args))
                   (args_dry_run args) (added ++ pause)).
  { split; rewrite ?posts_app, ?downloads_app, ?slept_app, ?writes_app,
      ?mkdirs_app, ?Hp0, ?Hd0, ?Hm0, ?Hw0, ?Z.add_0_r.
    - done.
    - done.
    - lia.
    - done.
    - apply well_placed_app; [done|]. unfold pause.
      destruct (args_dry_run args); intros [|[|i]] path data Hi; done.
    - intros Hdry'. rewrite (Hnil Hdry'), app_nil_r. auto. }
  assert (Hclient : client_after (the_client st) c' (added ++ pause)).
  { destruct (the_client st) as [cl|]; [|done].
    destruct Hcl as (cl' & -> & Hk & Ht). exists cl'.
    rewrite posts_app, Hp0, Z.add_0_r. done. }
  assert (Hmk : mkdirs (added ++ pause) = 1)
    by (rewrite mkdirs_app, Hm0; lia).
  assert (Hwr : writes (added ++ pause) = writes added)
    by (rewrite writes_app, Hw0; lia).
  destruct ok.
  - split; [|done]. exists (added ++ pause). simpl. split; [done|].
    split; [done|]. split; [lia|]. split; [done|].
    intros st' [= <-]. simpl. split; [done|]. do 2 (split; [lia|]).
    split; [lia|]. split; [done|]. intros Hnot. rewrite Hwr, (Hwrite Hnot). lia.
  - split; [|done]. exists (added ++ pause). simpl. split; [done|].
    split; [done|]. split; [lia|]. split; [done|].
    intros st' [= <-]. simpl. split; [done|]. do 2 (split; [lia|]).
    split; [lia|]. split.
    + intros Hdry'. by apply Hdry in Hdry'.
    + intros Hnot. rewrite Hwr, (Hwrite Hnot). lia.
Qed.

Lemma for_assets_facts {A : Type} dsk args k (xs : list A)
    (body : A → progress → run) :
  0 ≤ k →
  (∀ x st, x ∈ xs → progress_facts dsk args k st (body x st)) →
  ∀ st, progress_facts dsk args (k * Z.of_nat (List.length xs)) st
          (for_assets xs body st).
Proof.
  intros Hk. induction xs as [|x rest IH]; intros Hbody st.
  - simpl. rewrite Z.mul_0_r. apply progress_facts_start.
  - simpl for_assets.
    replace (k * Z.of_nat (List.length (x :: rest)))
      with (k + k * Z.of_nat (List.length rest)) by (simpl List.length; lia).
    pose proof (Hbody x st ltac:(set_solver)) as Hx.
    destruct (body x st) as [st1|e st1].
    + eapply progress_facts_then; [exact Hx|]. apply IH.
      intros y st' Hy. apply Hbody. set_solver.
    + apply progress_facts_stopped; [lia|done].
Qed.
End run_proofs.

Lemma variants_known (v : Z) :
  v ∈ range 16 → dict_get v AUTOTILE_VARIANTS ≠ None.
Proof.
  intros Hv.
  assert (Hall : forallb
            (fun v => if dict_get v AUTOTILE_VARIANTS is Some _ then true else false)
            (range 16) = true) by (vm_compute; reflexivity).
  rewrite forallb_forall in Hall. apply list_elem_of_In, Hall in Hv.
  by destruct (dict_get v AUTOTILE_VARIANTS).
Qed.

Lemma biomes_to_generate_spec args biome_name :
  biome_name ∈ biomes_to_generate args →
  biome_name ∈ BIOMES.*1 ∨ args_biome args = Some biome_name.
Proof.
  unfold biomes_to_generate. destruct (args_biome args) as [b|]; [|by left].
  case_bool_decide; [by left|]. intros ->%list_elem_of_singleton. by right.
Qed.

Lemma biomes_to_generate_nonempty args :
  1 ≤ Z.of_nat (List.length (biomes_to_generate args)).
Proof.
  unfold biomes_to_generate. destruct (args_biome args) as [b|]; [|simpl; lia].
  case_bool_decide; simpl; lia.
Qed.

Lemma tiles_asset_dir (output_dir suffix : Path) :
  asset_dir output_dir ((output_dir ++ ["tiles"; "isometric"]) ++ suffix).
Proof. left. by exists suffix. Qed.

Section loop_proofs.
Context `{Runtime}.

Lemma tile_call_facts net dsk args biome variant st :
  (∀ v, variant = Some v → v ∈ range 16) →
  progress_facts dsk args 1 st
    (account (args_dry_run args) st
       (generate_biome_tile net dsk (the_client st) (the_log st) biome
          (args_output_dir args ++ ["tiles"; "isometric"]) variant
          (args_dry_run args))).
Proof.
  intros Hvariant.
  destruct (generate_biome_tile net dsk (the_client st) (the_log st) biome
              (args_output_dir args ++ ["tiles"; "isometric"]) variant
              (args_dry_run args)) as [[r c'] log'] eqn:Hcall.
  apply (generate_biome_tile_facts net dsk (asset_dir (args_output_dir args)))
    in Hcall; [|apply tiles_asset_dir].
  eapply account_facts; [exact Hcall|].
  intros e [(_ & v & Hv & Hnone) | Hclient].
  - apply Hvariant in Hv as Hrange. by apply variants_known in Hrange.
  - right. by left.
Qed.

Lemma unknown_biome_facts dsk args n biome_name st :
  0 ≤ n → biome_name ∈ biomes_to_generate args →
  dict_get biome_name BIOMES = None →
  progress_facts dsk args n st (Crashed KeyError st).
Proof.
  intros Hn Hin Hnone. apply progress_facts_key_error; [done|].
  apply dict_get_None in Hnone. intros Hknown.
  apply biomes_to_generate_spec in Hin as [Hin | Hgiven]; [done|].
  by apply Hknown in Hgiven.
Qed.

Lemma base_tiles_facts net dsk args st :
  progress_facts dsk args (Z.of_nat (List.length (biomes_to_generate args))) st
    (base_tiles net dsk args st).
Proof.
  unfold base_tiles.
  rewrite <- (Z.mul_1_l (Z.of_nat (List.length (biomes_to_generate args)))).
  apply for_assets_facts; [lia|]. intros biome_name st' Hin.
  destruct (dict_get biome_name BIOMES) as [biome|] eqn:Hbiome.
  - by apply tile_call_facts.
  - by eapply unknown_biome_facts.
Qed.

Lemma autotile_variants_facts net dsk args st :
  progress_facts dsk args
    (16 * Z.of_nat (List.length (biomes_to_generate args))) st
    (autotile_variants net dsk args st).
Proof.
  unfold autotile_variants. apply for_assets_facts; [lia|].
  intros biome_name st' Hin.
  destruct (dict_get biome_name BIOMES) as [biome|] eqn:Hbiome.
  - replace 16 with (1 * Z.of_nat (List.length (range 16)))
      by (rewrite length_range; lia).
    apply for_assets_facts; [lia|]. intros variant st'' Hvariant.
    apply tile_call_facts. by intros v [= <-].
  - by eapply unknown_biome_facts.
Qed.

Lemma buildings_facts net dsk args st :
  progress_facts dsk args (Z.of_nat (List.length BUILDINGS)) st
    (buildings net dsk args st).
Proof.
  unfold buildings. rewrite <- (Z.mul_1_l (Z.of_nat (List.length BUILDINGS))).
  apply for_assets_facts; [lia|]. intros [building_name config] st' Hin.
  destruct (generate_building net dsk (the_client st') (the_log st')
              building_name config
              (args_output_dir args ++ ["buildings"; "isometric"])
              (args_dry_run args)) as [[r c'] log'] eqn:Hcall.
  apply (generate_building_facts net dsk (asset_dir (args_output_dir args)))
    in Hcall; [|by right].
  eapply account_facts; [exact Hcall|].
  intros e [[Hdry Hratio] | Hclient].
  - right. right. split; [done|]. by exists building_name, config.
  - right. by left.
Qed.

Lemma part_facts dsk args n0 n (condition : bool) body st0 r :
  0 ≤ n →
  progress_facts dsk args n0 st0 r →
  (∀ st, progress_facts dsk args n st (body st)) →
  progress_facts dsk args (n0 + (if condition then n else 0)) st0
    (part condition body r).
Proof.
  intros Hn Hr Hbody. destruct r as [st|e st]; simpl.
  - destruct condition.
    + by eapply progress_facts_then.
    + rewrite Z.add_0_r. done.
  - apply progress_facts_stopped; [by destruct condition|done].
Qed.

(** [main] either stops at the validation of its arguments, or runs its
    three parts from a fresh state. *)
Lemma main_facts net dsk args log e c' log' :
  main net dsk args log = (e, c', log') →
  (e = Exit 1 ∧ c' = None ∧ log' = log) ∨
  ∃ r,
    progress_facts dsk args (planned_assets args)
      (mkProgress (if args_dry_run args then None
                   else Some (new_client (args_api_key args))) log 0 0) r ∧
    1 ≤ planned_assets args ∧
    c' = the_client (state_of r) ∧ log' = the_log (state_of r) ∧
    match r with
    | Running st => e = Exit (if 0 <? fail_count st then 1 else 0)
    | Crashed x _ => e = Traceback x
    end.
Proof.
  unfold main.
  destruct (bool_decide (args_api_key args = EmptyString)
            && negb (args_dry_run args)).
  { intros [= <- <- <-]. by left. }
  destruct (args_biomes args || args_autotile args || args_buildings args
            || args_all args || biome_given args) eqn:Htarget; simpl.
  2:{ intros [= <- <- <-]. by left. }
  set (st0 := mkProgress _ log 0 0).
  set (n := Z.of_nat (List.length (biomes_to_generate args))).
  assert (Hfacts : progress_facts dsk args (planned_assets args) st0
    (part (args_buildings args || args_all args) (buildings net dsk args)
       (part (args_autotile args || args_all args)
          (autotile_variants net dsk args)
          (part (args_biomes args || args_all args || biome_given args)
             (base_tiles net dsk args) (Running st0))))).
  { unfold planned_assets. fold n.
    apply part_facts; [lia | | apply buildings_facts].
    apply part_facts; [lia | | apply autotile_variants_facts].
    rewrite <- (Z.add_0_l
      (if args_biomes args || args_all args || biome_given args then n else 0)).
    apply part_facts; [lia | apply progress_facts_start | apply base_tiles_facts]. }
  assert (Hplanned : 1 ≤ planned_assets args).
  { unfold planned_assets. fold n.
    pose proof (biomes_to_generate_nonempty args) as Hn. fold n in Hn.
    assert (Hb : 1 ≤ Z.of_nat (List.length BUILDINGS)) by (simpl; lia).
    destruct (args_biomes args), (args_autotile args), (args_buildings args),
      (args_all args), (biome_given args); simpl in *; try done; lia. }
  destruct (part _ _ _) as [st|x st] eqn:Hr; intros [= <- <- <-]; right;
    eexists; (split; [exact Hfacts|]); done.
Qed.
End loop_proofs.


Lemma planned_assets_bound args : 0 ≤ planned_assets args ≤ 196.
Proof.
  unfold planned_assets.
  assert (Hn : 0 ≤ Z.of_nat (List.length (biomes_to_generate args)) ≤ 11).
  { unfold biomes_to_generate. destruct (args_biome args) as [b|]; [|simpl; lia].
    case_bool_decide; simpl; lia. }
  assert (Hb : Z.of_nat (List.length BUILDINGS) = 9) by done.
  rewrite Hb.
  destruct (args_biomes args || args_all args || biome_given args),
    (args_autotile args || args_all args),
    (args_buildings args || args_all args); lia.
Qed.


Section run_theorems.
Context `{Runtime}.



(** X17. The budget of a whole run, however it ends: at most 196 generator
    calls, at most [MAX_RETRIES] POST requests and 25 seconds of sleep per
    generator call, at most one download per POST and one file per
    generator call; and the [total_requests] of the client at the end is
    the number of POST requests of the run. *)
Theorem run_request_budget net dsk args log e c' log' :
  main net dsk args log = (e, c', log') →
  ∃ added,
    log' = log ++ added ∧
    0 ≤ mkdirs added ≤ planned_assets args ∧
    planned_assets args ≤ 196 ∧
    0 ≤ posts added ≤ MAX_RETRIES * mkdirs added ∧
    0 ≤ downloads added ≤ posts added ∧
    0 ≤ slept added ≤ 25 * mkdirs added ∧
    0 ≤ writes added ≤ mkdirs added ∧
    ∀ cl, c' = Some cl →
      api_key cl = args_api_key args ∧ total_requests cl = posts added.
Proof.
  intros Hmain. pose proof (planned_assets_bound args) as Hplanned.
  apply main_facts in Hmain as [(-> & -> & ->) | (r & Hfacts & _ & -> & -> & _)].
  { exists []. rewrite app_nil_r. split; [done|].
    split; [change (mkdirs []) with 0; lia|].
    split; [lia|]. by do 4 (split; [done|]). }
  destruct Hfacts as [(added & Hlog & [Hp Hd Hs Hw _ _] & Hm & Hcl & _) _].
  simpl in Hlog, Hcl. exists added. split; [done|].
  split; [split; [apply mkdirs_nonneg | done]|]. split; [lia|].
  do 4 (split; [done|]). intros cl Hc'.
  destruct (args_dry_run args); [congruence|].
  destruct Hcl as (cl' & Heq & Hk & Ht). rewrite Hc' in Heq.
  injection Heq as <-. simpl in Hk, Ht. split; [done|]. lia.
Qed.

(** X18. Every file that a run writes is a ".png" directly inside a
    directory that the run has created before, and that directory is
    [output_dir/tiles/isometric], a subdirectory of it, or
    [output_dir/buildings/isometric]. *)
Theorem written_files_in_place net dsk args log e c' log' :
  main net dsk args log = (e, c', log') →
  ∃ added,
    log' = log ++ added ∧
    well_placed (asset_dir (args_output_dir args)) added.
Proof.
  intros Hmain.
  apply main_facts in Hmain as [(-> & -> & ->) | (r & Hfacts & _ & -> & -> & _)].
  { exists []. rewrite app_nil_r. split; [done|]. apply well_placed_nil. }
  destruct Hfacts as [(added & Hlog & Hseg & _) _]. simpl in Hlog.
  exists added. split; [done|]. by destruct Hseg.
Qed.



End run_theorems.

(** ** Example runs *)

Lemma run_result_eta {A B C : Type} (p : A * B * C) (a : A) :
  p.1.1 = a → p = (a, p.1.2, p.2).
Proof. destruct p as [[? ?] ?]. simpl. by intros ->. Qed.



(** One tile that the API never delivers: three requests. *)
Lemma run_request_budget_witness :
  ∃ c' log',
    main (H := example_runtime) (always_status 500) willing_disk
      (oak_args false) [] = (Exit 1, c', log') ∧
    posts log' = 3 ∧
    ∃ added,
      log' = [] ++ added ∧
      0 ≤ mkdirs added ≤ planned_assets (oak_args false) ∧
      planned_assets (oak_args false) ≤ 196 ∧
      0 ≤ posts added ≤ MAX_RETRIES * mkdirs added ∧
      0 ≤ downloads added ≤ posts added ∧
      0 ≤ slept added ≤ 25 * mkdirs added ∧
      0 ≤ writes added ≤ mkdirs added ∧
      ∀ cl, c' = Some cl →
        api_key cl = args_api_key (oak_args false) ∧
        total_requests cl = posts added.
Proof.
  set (r := main (H := example_runtime) (always_status 500) willing_disk
              (oak_args false) []).
  assert (Hrun : r = (Exit 1, r.1.2, r.2))
    by (apply run_result_eta; vm_compute; reflexivity).
  exists r.1.2, r.2. split; [exact Hrun|].
  split; [vm_compute; reflexivity|].
  exact (run_request_budget (H := example_runtime) (always_status 500)
           willing_disk (oak_args false) [] (Exit 1) r.1.2 r.2 Hrun).
Defined.

(** One tile, delivered as a data URL and written to
    public/images/tiles/isometric/oak_forest.png. *)
Lemma written_files_in_place_witness :
  ∃ c' log',
    main (H := example_runtime)
      (always_serves (image_document "data:image/png;base64,QQ=="))
      willing_disk (oak_args false) [] = (Exit 0, c', log') ∧
    writes log' = 1 ∧
    ∃ added,
      log' = [] ++ added ∧
      well_placed (asset_dir (args_output_dir (oak_args false))) added.
Proof.
  set (r := main (H := example_runtime)
              (always_serves (image_document "data:image/png;base64,QQ=="))
              willing_disk (oak_args false) []).
  assert (Hrun : r = (Exit 0, r.1.2, r.2))
    by (apply run_result_eta; vm_compute; reflexivity).
  exists r.1.2, r.2. split; [exact Hrun|].
  split; [vm_compute; reflexivity|].
  exact (written_files_in_place (H := example_runtime)
           (always_serves (image_document "data:image/png;base64,QQ=="))
           willing_disk (oak_args false) [] (Exit 0) r.1.2 r.2 Hrun).
Defined.

